(** * Sliding-window rate limiter of the search backend

    A shallow embedding of [backend/src/rate_limiter.py] (the per-user,
    per-endpoint limiter) and of [backend/rate_limiter.py] (its per-user
    predecessor), with the properties of the design document stated and
    settled against the code.

    Conventions of the embedding.
    - Timestamps are the values returned by [time.time()].  They are taken
      as exact rationals ([Q]); every float is a rational, and the
      embedding computes sums, differences and products exactly.  An IEEE
      operation returns the exact result whenever that result is a double;
      a property whose statement depends on a computed value, or on which
      entries a prune keeps, takes as hypothesis that the operations
      concerned are exact in this sense (module [Double]).  Clock readings
      between 2^30 and 2^31 seconds with windows that keep the sums below
      2^31, as on a real clock, meet these hypotheses.
    - [str] of an int is defined up to 4300 digits (module [Limits]); a
      property that depends on [str(limit)] takes that as a hypothesis.
    - Every call of [time.time()] in the source is an explicit argument of
      the embedded function, in the order in which the source reads the
      clock.  "At the same instant" means that all those arguments are
      equal.
    - [max_requests], [window] and [limit] are Python ints: [Z].
    - [defaultdict] lookups create the missing entry, as in Python.
    - A [threading.Lock] is a boolean (held or free); [with lock:] blocks
      while the lock is held, which a single-threaded run renders as the
      outcome [Blocked]. *)

From Stdlib Require Import QArith Qround ZArith String Ascii List DecimalString Lia.
From stdpp Require Import gmap strings list fin_maps sorting.

Local Open Scope Z_scope.

(** ** Python primitives used by the module *)

Module Py.

(** [a < b] on floats. *)
Definition lt (a b : Q) : bool := negb (Qle_bool b a).

(** [len(l)] as a Python int. *)
Definition len {A} (l : list A) : Z := Z.of_nat (length l).

(** [max(0, x)] on ints. *)
Definition max0_int (x : Z) : Z := if 0 <? x then x else 0.

(** [max(0, x)] with [x] a float: Python keeps the first argument unless
    a later one is strictly greater. *)
Definition max0 (x : Q) : Q := if lt 0 x then x else 0%Q.

(** [min(l)] for a non-empty list [x :: l]: the running minimum is
    replaced only by a strictly smaller element. *)
Fixpoint min_from (cur : Q) (l : list Q) : Q :=
  match l with
  | [] => cur
  | x :: r => min_from (if lt x cur then x else cur) r
  end.

(** [int(x)] on a float truncates toward zero. *)
Definition int (x : Q) : Z := Z.quot (Qnum x) (Zpos (Qden x)).

(** [math.ceil(x)], which the design document asks for. *)
Definition ceil (x : Q) : Z := Qceiling x.

(** [str(n)] on an int.  CPython refuses an int of more than 4300 digits
    with a [ValueError]; the embedding prints every int, and the
    properties that depend on [str] of a configured value take
    [Limits.str_defined] as a hypothesis. *)
Definition str (n : Z) : string := NilZero.string_of_int (Z.to_int n).

(** Characters below 256 for which [str.isspace] holds; these are the
    ones [str.strip()] removes. *)
Definition isspace (c : ascii) : bool :=
  let n := nat_of_ascii c in
  ((9 <=? n) && (n <=? 13))%nat || ((28 <=? n) && (n <=? 32))%nat
  || (n =? 133)%nat || (n =? 160)%nat.

Fixpoint lstrip (s : string) : string :=
  match s with
  | EmptyString => EmptyString
  | String c r => if isspace c then lstrip r else s
  end.

(** [rstrip] keeps a character when it is not a space or when something
    survives to its right. *)
Fixpoint rstrip (s : string) : string :=
  match s with
  | EmptyString => EmptyString
  | String c r =>
      match rstrip r with
      | EmptyString => if isspace c then EmptyString else String c EmptyString
      | r' => String c r'
      end
  end.

Definition strip (s : string) : string := rstrip (lstrip s).

(** [s.split(sep)] for a one-character separator. *)
Fixpoint split (sep : ascii) (s : string) : list string :=
  match s with
  | EmptyString => [EmptyString]
  | String c r =>
      if Ascii.eqb c sep then EmptyString :: split sep r
      else match split sep r with
           | h :: t => String c h :: t
           | [] => [String c EmptyString]
           end
  end.

(** [l[0]]; [None] stands for [IndexError]. *)
Definition item0 {A} (l : list A) : option A := head l.

(** Truthiness of [headers.get(...)]: [None] and the empty string are
    falsy. *)
Definition truthy (o : option string) : bool :=
  match o with
  | Some (String _ _) => true
  | _ => false
  end.

End Py.

(** ** The limiter object *)

(** [self.requests] is [defaultdict(lambda: defaultdict(list))] and
    [self.locks] is [defaultdict(threading.Lock)]; a lock is [true] while
    held. *)
Record RateLimiter := mkRateLimiter {
  requests : gmap string (gmap string (list Q));
  locks : gmap string bool
}.

(** [RateLimiter()] *)
Definition init : RateLimiter := mkRateLimiter ∅ ∅.

(** The exceptions the module can meet.  [HTTPException] is fastapi's. *)
Inductive exn :=
| ValueError
| IndexError
| HTTPException (status_code : Z) (detail : string)
                (headers : list (string * string)).

(** What a call does to a state of type [S]: it returns a value and
    leaves a new state, waits forever on a held lock, or raises and
    leaves the state as mutated so far. *)
Inductive outcome (S A : Type) :=
| Returns (a : A) (s : S)
| Blocked
| Raised (e : exn) (s : S).
Arguments Returns {S A} a s.
Arguments Blocked {S A}.
Arguments Raised {S A} e s.

Definition St (S A : Type) : Type := S -> outcome S A.

Definition ret {S A} (a : A) : St S A := fun s => Returns a s.

Definition raise {S A} (e : exn) : St S A := fun s => Raised e s.

Definition bind {S A B} (c : St S A) (k : A -> St S B) : St S B :=
  fun s => match c s with
           | Returns a s' => k a s'
           | Blocked => Blocked
           | Raised e s' => Raised e s'
           end.

(** [try: c finally: f], for an [f] that does not raise. *)
Definition finally {S A} (c : St S A) (f : St S unit) : St S A :=
  fun s => match c s with
           | Returns a s' =>
               match f s' with
               | Returns _ s'' => Returns a s''
               | Blocked => Blocked
               | Raised e s'' => Raised e s''
               end
           | Blocked => Blocked
           | Raised e s' =>
               match f s' with
               | Returns _ s'' => Raised e s''
               | Blocked => Blocked
               | Raised e' s'' => Raised e' s''
               end
           end.

Declare Scope rl_scope.
Delimit Scope rl_scope with rl.
Notation "x <- c1 ;; c2" := (bind c1 (fun x => c2))
  (at level 100, c1 at next level, right associativity) : rl_scope.
Notation "c1 ;; c2" := (bind c1 (fun _ => c2))
  (at level 100, right associativity) : rl_scope.
Local Open Scope rl_scope.

(** Computations on the limiter. *)
Abbreviation M := (St RateLimiter).

(** [d[k]] on a [defaultdict] whose factory yields [dflt]. *)
Definition getitem {V} (dflt : V) (k : string) (d : gmap string V)
  : V * gmap string V :=
  match d !! k with
  | Some v => (v, d)
  | None => (dflt, <[k := dflt]> d)
  end.

(** Evaluating [self.requests[user_id][endpoint]]. *)
Definition get_log (user_id endpoint : string) : M (list Q) := fun rl =>
  let (inner, reqs) := getitem ∅ user_id (requests rl) in
  let (l, inner') := getitem [] endpoint inner in
  Returns l (mkRateLimiter (<[user_id := inner']> reqs) (locks rl)).

(** [self.requests[user_id][endpoint] = l] *)
Definition set_log (user_id endpoint : string) (l : list Q) : M unit := fun rl =>
  let (inner, reqs) := getitem ∅ user_id (requests rl) in
  Returns tt (mkRateLimiter (<[user_id := <[endpoint := l]> inner]> reqs) (locks rl)).

(** [self.requests[user_id][endpoint].append(x)]: the list is mutated in
    place. *)
Definition append_log (user_id endpoint : string) (x : Q) : M unit :=
  l <- get_log user_id endpoint ;;
  set_log user_id endpoint (l ++ [x]).

(** Entering [with self.locks[user_id]:].  The lookup creates a free lock
    when there is none; acquiring a held lock blocks. *)
Definition acquire (user_id : string) : M unit := fun rl =>
  let (held, lks) := getitem false user_id (locks rl) in
  if held then Blocked
  else Returns tt (mkRateLimiter (requests rl) (<[user_id := true]> lks)).

(** Leaving the [with] block. *)
Definition release (user_id : string) : M unit := fun rl =>
  Returns tt (mkRateLimiter (requests rl) (<[user_id := false]> (locks rl))).

(** [with self.locks[user_id]: body]; the lock is released however the
    body ends. *)
Definition with_lock {A} (user_id : string) (body : M A) : M A :=
  acquire user_id ;;
  finally body (release user_id).

(** ** [class RateLimiter] of [backend/src/rate_limiter.py] *)

(** The test of the list comprehension: [now - req_time < window].  The
    difference is exact here; the code compares the rounded double, which
    is the same value when [Double.sub_exact now req_time] holds. *)
Definition active (now : Q) (window : Z) (req_time : Q) : bool :=
  Py.lt (now - req_time) (inject_Z window).

Definition _clean_old_requests (now : Q) (user_id endpoint : string)
    (window : Z) : M unit :=
  with_lock user_id
    (l <- get_log user_id endpoint ;;
     set_log user_id endpoint (List.filter (active now window) l)).

(** [t_clean] is the clock read by [_clean_old_requests], [t_append] the
    one read when the request is recorded. *)
Definition is_rate_limited (t_clean t_append : Q) (user_id endpoint : string)
    (max_requests window : Z) : M bool :=
  _clean_old_requests t_clean user_id endpoint window ;;
  with_lock user_id
    (l <- get_log user_id endpoint ;;
     if max_requests <=? Py.len l then ret true
     else (append_log user_id endpoint t_append ;; ret false)).

Definition get_remaining_requests (t_clean : Q) (user_id endpoint : string)
    (max_requests window : Z) : M Z :=
  _clean_old_requests t_clean user_id endpoint window ;;
  with_lock user_id
    (l <- get_log user_id endpoint ;;
     ret (Py.max0_int (max_requests - Py.len l))).

(** [now] is the clock read in the last line.  The guard [if not ...]
    makes [min] run on a non-empty list only.  The sum and the difference
    are exact here; the code rounds each to a double and, on a non-empty
    log, raises [OverflowError] for a window that no double holds.  Under
    [Double.reset_exact] neither happens and the values are the same. *)
Definition get_reset_time (now : Q) (user_id endpoint : string)
    (window : Z) : M Q :=
  with_lock user_id
    (l <- get_log user_id endpoint ;;
     match l with
     | [] => ret 0%Q
     | _ :: _ =>
         l' <- get_log user_id endpoint ;;
         match l' with
         | [] => raise ValueError
         | x :: r =>
             let oldest_request := Py.min_from x r in
             ret (Py.max0 (oldest_request + inject_Z window - now)%Q)
         end
     end).

(** ** The request dependencies *)

(** What the module uses of a fastapi [Request]: [headers.get], and
    [client], which is an address or [None]. *)
Record Address := mkAddress { host : string; port : Z }.

Record Request := mkRequest {
  headers_get : string -> option string;
  client : option Address
}.

(** [if forwarded:] holds for a header that is present and not empty.
    [None] stands for the [IndexError] of [[0]]. *)
Definition get_user_id (request : Request) : option string :=
  let forwarded := headers_get request "X-Forwarded-For" in
  if Py.truthy forwarded then
    fwd ← forwarded;
    first ← Py.item0 (Py.split "," fwd);
    Some (Py.strip first)
  else
    Some match client request with
         | Some a => host a
         | None => "unknown"%string
         end.

(** The clock readings of one run of [rate_limit_dependency], named after
    the call that reads them. *)
Record clock := mkClock {
  t_limited_clean : Q;   (* is_rate_limited, in _clean_old_requests *)
  t_limited_append : Q;  (* is_rate_limited, when recording *)
  t_remaining : Q;       (* get_remaining_requests *)
  t_reset : Q            (* get_reset_time *)
}.

Definition frozen (now : Q) : clock := mkClock now now now now.

(** The value of the dependency for an admitted request: the user id it
    returns, and what it stores in [request.state.rate_limit_headers]. *)
Record admitted := mkAdmitted {
  user : string;
  rate_limit_headers : list (string * string)
}.

(** The dependency, with the four clock readings of [clk].  It inherits
    the exact arithmetic of [get_reset_time] and the total [Py.str]: the
    properties about its headers take [Double.reset_exact],
    [Double.prune_exact] and [Limits.str_defined] as hypotheses. *)
Definition rate_limit_dependency (limit : Z) (endpoint : string) (window : Z)
    (clk : clock) (request : Request) : M admitted :=
  user_id <- match get_user_id request with
             | Some u => ret u
             | None => raise IndexError
             end ;;
  limited <- is_rate_limited (t_limited_clean clk) (t_limited_append clk)
               user_id endpoint limit window ;;
  if (limited : bool) then
    reset_time <- get_reset_time (t_reset clk) user_id endpoint window ;;
    raise (HTTPException 429
             ("Rate limit exceeded. Try again in "
                ++ Py.str (Py.int reset_time) ++ " seconds.")
             [("X-RateLimit-Limit", Py.str limit);
              ("X-RateLimit-Remaining", "0");
              ("X-RateLimit-Reset", Py.str (Py.int reset_time));
              ("Retry-After", Py.str (Py.int reset_time))]%string)
  else
    remaining <- get_remaining_requests (t_remaining clk)
                   user_id endpoint limit window ;;
    reset_time <- get_reset_time (t_reset clk) user_id endpoint window ;;
    ret (mkAdmitted user_id
           [("X-RateLimit-Limit", Py.str limit);
            ("X-RateLimit-Remaining", Py.str remaining);
            ("X-RateLimit-Reset", Py.str (Py.int reset_time))]%string).

(** [create_rate_limiter] builds the closure and returns it; the limiter
    object it closes over is the state the closure runs on.  [inl] would
    be an exception raised while building. *)
Definition create_rate_limiter (limit : Z) (endpoint : string) (window : Z)
  : exn + (clock -> Request -> M admitted) :=
  inr (rate_limit_dependency limit endpoint window).

(** The wiring of [backend/src/main.py]; [window] is left at its default. *)
Definition RATE_LIMIT_SEARCH : Z := 20.
Definition RATE_LIMIT_ANSWER : Z := 100.
Definition RATE_LIMIT_CITATIONS : Z := 500.
Definition default_window : Z := 3600.

(** ** Sequences of calls *)

Record call := mkCall {
  c_clean : Q;
  c_append : Q;
  c_user : string;
  c_endpoint : string;
  c_max : Z;
  c_window : Z
}.

Definition do_call (c : call) : M bool :=
  is_rate_limited (c_clean c) (c_append c) (c_user c) (c_endpoint c)
    (c_max c) (c_window c).

(** The calls of [cs] one after the other, first to last, with the
    answers in the same order. *)
Fixpoint run_calls (cs : list call) : M (list bool) :=
  match cs with
  | [] => ret []
  | c :: r =>
      b <- do_call c ;;
      bs <- run_calls r ;;
      ret (b :: bs)
  end.

(** A call with every clock reading equal to [now]. *)
Definition at_instant (now : Q) (user_id endpoint : string)
    (max_requests window : Z) : call :=
  mkCall now now user_id endpoint max_requests window.

(** ** [class RateLimiter] of [backend/rate_limiter.py]

    The earlier limiter keeps one log per user and has no endpoint. *)

Module Legacy.

Record RateLimiter := mkRateLimiter {
  requests : gmap string (list Q);
  locks : gmap string bool
}.

Definition init : RateLimiter := mkRateLimiter ∅ ∅.

Definition get_log (user_id : string) : St RateLimiter (list Q) := fun rl =>
  let (l, reqs) := getitem [] user_id (requests rl) in
  Returns l (mkRateLimiter reqs (locks rl)).

Definition set_log (user_id : string) (l : list Q) : St RateLimiter unit :=
  fun rl => Returns tt (mkRateLimiter (<[user_id := l]> (requests rl)) (locks rl)).

Definition append_log (user_id : string) (x : Q) : St RateLimiter unit :=
  l <- get_log user_id ;;
  set_log user_id (l ++ [x]).

Definition acquire (user_id : string) : St RateLimiter unit := fun rl =>
  let (held, lks) := getitem false user_id (locks rl) in
  if held then Blocked
  else Returns tt (mkRateLimiter (requests rl) (<[user_id := true]> lks)).

Definition release (user_id : string) : St RateLimiter unit := fun rl =>
  Returns tt (mkRateLimiter (requests rl) (<[user_id := false]> (locks rl))).

Definition with_lock {A} (user_id : string) (body : St RateLimiter A)
  : St RateLimiter A :=
  acquire user_id ;;
  finally body (release user_id).

Definition _clean_old_requests (now : Q) (user_id : string) (window : Z)
  : St RateLimiter unit :=
  with_lock user_id
    (l <- get_log user_id ;;
     set_log user_id (List.filter (active now window) l)).

Definition is_rate_limited (t_clean t_append : Q) (user_id : string)
    (max_requests window : Z) : St RateLimiter bool :=
  _clean_old_requests t_clean user_id window ;;
  with_lock user_id
    (l <- get_log user_id ;;
     if max_requests <=? Py.len l then ret true
     else (append_log user_id t_append ;; ret false)).

Record call := mkCall {
  c_clean : Q;
  c_append : Q;
  c_user : string;
  c_max : Z;
  c_window : Z
}.

Fixpoint run_calls (cs : list call) : St RateLimiter (list bool) :=
  match cs with
  | [] => ret []
  | c :: r =>
      b <- is_rate_limited (c_clean c) (c_append c) (c_user c)
             (c_max c) (c_window c) ;;
      bs <- run_calls r ;;
      ret (b :: bs)
  end.

Definition log_of (user_id : string) (rl : RateLimiter) : list Q :=
  default [] (requests rl !! user_id).

Definition lock_free (user_id : string) (rl : RateLimiter) : Prop :=
  locks rl !! user_id ≠ Some true.

(** The state in which the log of the user is [l] and the user's lock has
    been used and is free. *)
Definition put (user_id : string) (l : list Q) (rl : RateLimiter)
  : RateLimiter :=
  mkRateLimiter (<[user_id := l]> (requests rl))
    (<[user_id := false]> (locks rl)).

End Legacy.

(** ** Reading a state *)

(** The stored log of a key; a key never touched has the empty log. *)
Definition log_of (user_id endpoint : string) (rl : RateLimiter) : list Q :=
  default [] (requests rl !! user_id ≫= (.!! endpoint)).

(** The entries of the stored log that count at [now]. *)
Definition active_log (now : Q) (window : Z) (user_id endpoint : string)
    (rl : RateLimiter) : list Q :=
  List.filter (active now window) (log_of user_id endpoint rl).

Definition lock_free (user_id : string) (rl : RateLimiter) : Prop :=
  locks rl !! user_id ≠ Some true.

(** The state in which the log of one key is [l] and the locks are
    [lks]. *)
Definition upd (user_id endpoint : string) (l : list Q)
    (lks : gmap string bool) (rl : RateLimiter) : RateLimiter :=
  mkRateLimiter
    (<[user_id := <[endpoint := l]> (default ∅ (requests rl !! user_id))]>
       (requests rl))
    lks.

(** The state in which the log of one key is [l] and the user's lock has
    been used and is free. *)
Definition put (user_id endpoint : string) (l : list Q) (rl : RateLimiter)
  : RateLimiter :=
  upd user_id endpoint l (<[user_id := false]> (locks rl)) rl.

(** The state that [k] calls for one key at the instant [now] leave, when
    the key had no active entry: the log holds [now] once per admitted
    call. *)
Definition after_burst (k : nat) (now : Q) (user_id endpoint : string)
    (max_requests : Z) (rl : RateLimiter) : RateLimiter :=
  match k with
  | O => rl
  | S _ =>
      put user_id endpoint
        (replicate (Nat.min (Z.to_nat max_requests) k) now) rl
  end.

(** ** Concurrent callers of [is_rate_limited]

    Several threads run [is_rate_limited] with the same arguments on one
    limiter.  A thread is a program point; a step of a thread runs one of
    the primitives above on the shared limiter.  The guard of the [if] and
    the [append] are two steps, and so are the evaluation of the list
    comprehension and its assignment: a thread switch can fall between
    them.  Looking a lock up and taking it is one step.  A thread at an
    [acquire] whose lock is held cannot step. *)

Module Conc.

Record config := mkConfig {
  user_id : string;
  endpoint : string;
  max_requests : Z;
  window : Z
}.

Inductive pc :=
| CleanTime                 (* now = time.time() *)
| CleanAcquire (now : Q)    (* with self.locks[user_id]: *)
| CleanRead (now : Q)       (* [... for req_time in self.requests[..][..] if ...] *)
| CleanWrite (l : list Q)   (* self.requests[user_id][endpoint] = ... *)
| CleanRelease              (* end of the with block *)
| CheckAcquire              (* with self.locks[user_id]: *)
| Check                     (* if len(...) >= max_requests: *)
| Append                    (* self.requests[..][..].append(time.time()) *)
| Release (b : bool)        (* end of the with block on return b *)
| Done (b : bool).          (* returned b *)

Record state := mkState {
  shared : RateLimiter;
  threads : list pc
}.

(** Run a primitive and move to the program point it leads to. *)
Definition exec {A} (c : M A) (k : A -> pc) (rl : RateLimiter)
  : option (pc * RateLimiter) :=
  match c rl with
  | Returns a rl' => Some (k a, rl')
  | _ => None
  end.

(** One step of a thread at [p]; [now] is what the clock shows. *)
Definition step_pc (cfg : config) (now : Q) (p : pc) (rl : RateLimiter)
  : option (pc * RateLimiter) :=
  let u := user_id cfg in
  let e := endpoint cfg in
  match p with
  | CleanTime => Some (CleanAcquire now, rl)
  | CleanAcquire t => exec (acquire u) (fun _ => CleanRead t) rl
  | CleanRead t =>
      exec (get_log u e)
        (fun l => CleanWrite (List.filter (active t (window cfg)) l)) rl
  | CleanWrite l => exec (set_log u e l) (fun _ => CleanRelease) rl
  | CleanRelease => exec (release u) (fun _ => CheckAcquire) rl
  | CheckAcquire => exec (acquire u) (fun _ => Check) rl
  | Check =>
      exec (get_log u e)
        (fun l => if max_requests cfg <=? Py.len l then Release true
                  else Append) rl
  | Append => exec (append_log u e now) (fun _ => Release false) rl
  | Release b => exec (release u) (fun _ => Done b) rl
  | Done _ => None
  end.

(** Thread [i] takes a step. *)
Definition step (cfg : config) (now : Q) (i : nat) (s : state)
  : option state :=
  match threads s !! i with
  | Some p =>
      match step_pc cfg now p (shared s) with
      | Some (p', rl') => Some (mkState rl' (<[i := p']> (threads s)))
      | None => None
      end
  | None => None
  end.

(** An interleaving is the list of the threads that step, in order. *)
Fixpoint run (cfg : config) (now : Q) (sched : list nat) (s : state)
  : option state :=
  match sched with
  | [] => Some s
  | i :: r =>
      match step cfg now i s with
      | Some s' => run cfg now r s'
      | None => None
      end
  end.

Definition start (rl : RateLimiter) (n : nat) : state :=
  mkState rl (replicate n CleanTime).

Definition is_done (p : pc) : bool :=
  match p with Done _ => true | _ => false end.

Definition finished (s : state) : bool := forallb is_done (threads s).

(** The thread has appended its timestamp. *)
Definition is_admitted (p : pc) : bool :=
  match p with Release false | Done false => true | _ => false end.

(** The thread has found the log full. *)
Definition is_denied (p : pc) : bool :=
  match p with Release true | Done true => true | _ => false end.

(** The thread is inside one of its two [with] blocks. *)
Definition in_crit (p : pc) : bool :=
  match p with
  | CleanRead _ | CleanWrite _ | CleanRelease | Check | Append | Release _ => true
  | _ => false
  end.

(** The thread has finished [_clean_old_requests]'s assignment. *)
Definition cleaned (p : pc) : bool :=
  match p with
  | CleanRelease | CheckAcquire | Check | Append | Release _ | Done _ => true
  | _ => false
  end.

Definition count (P : pc -> bool) (l : list pc) : nat :=
  length (List.filter P l).

Definition admitted_count (s : state) : nat := count is_admitted (threads s).
Definition denied_count (s : state) : nat := count is_denied (threads s).

(** How far a thread is in its call; a step moves it forward. *)
Definition rank (p : pc) : nat :=
  match p with
  | CleanTime => 0
  | CleanAcquire _ => 1
  | CleanRead _ => 2
  | CleanWrite _ => 3
  | CleanRelease => 4
  | CheckAcquire => 5
  | Check => 6
  | Append => 7
  | Release _ => 8
  | Done _ => 9
  end.

Fixpoint total_rank (l : list pc) : nat :=
  match l with
  | [] => 0
  | p :: r => rank p + total_rank r
  end.

(** The lock of the user is held. *)
Definition held (cfg : config) (rl : RateLimiter) : bool :=
  bool_decide (locks rl !! user_id cfg = Some true).

(** The log of the key the threads work on. *)
Definition log (cfg : config) (rl : RateLimiter) : list Q :=
  log_of (user_id cfg) (endpoint cfg) rl.

(** What a thread at [p] knows of the shared limiter: the time it has read
    is [now]; a list waiting to be assigned is the pruned log; a thread
    about to append has seen a log below the quota. *)
Definition good (cfg : config) (now : Q) (rl : RateLimiter) (p : pc) : Prop :=
  match p with
  | CleanAcquire t | CleanRead t => t = now
  | CleanWrite l => l = List.filter (active now (window cfg)) (log cfg rl)
  | Append => Py.len (log cfg rl) < max_requests cfg
  | _ => True
  end.

(** The invariant of the runs in which every clock reading is [now]. *)
Record invariant (cfg : config) (now : Q) (s : state) : Prop := mkInvariant {
  inv_mutex :
    count in_crit (threads s) = if held cfg (shared s) then 1%nat else 0%nat;
  inv_active :
    List.filter (active now (window cfg)) (log cfg (shared s)) =
    replicate (admitted_count s) now;
  inv_pruned :
    (0 < count cleaned (threads s))%nat ->
    log cfg (shared s) = replicate (admitted_count s) now;
  inv_good : Forall (good cfg now (shared s)) (threads s);
  inv_denied :
    (0 < denied_count s)%nat -> max_requests cfg <= Z.of_nat (admitted_count s);
  inv_quota : Z.of_nat (admitted_count s) <= max_requests cfg
}.

End Conc.

(** ** The identity rule in the words of the design document *)

(** The left-most entry of a comma-separated chain. *)
Fixpoint first_entry (s : string) : string :=
  match s with
  | EmptyString => EmptyString
  | String c r => if Ascii.eqb c "," then EmptyString
                  else String c (first_entry r)
  end.

(** The rule as documented: a forwarding header that is present gives its
    first entry, trimmed; else the peer address; else the sentinel. *)
Definition get_user_id_documented (request : Request) : string :=
  match headers_get request "X-Forwarded-For" with
  | Some fwd => Py.strip (first_entry fwd)
  | None =>
      match client request with
      | Some a => host a
      | None => "unknown"%string
      end
  end.

Fixpoint all_space (s : string) : bool :=
  match s with
  | EmptyString => true
  | String c r => Py.isspace c && all_space r
  end.

Definition starts_with_space (s : string) : bool :=
  match s with
  | EmptyString => false
  | String c _ => Py.isspace c
  end.

Fixpoint ends_with_space (s : string) : bool :=
  match s with
  | EmptyString => false
  | String c EmptyString => Py.isspace c
  | String _ r => ends_with_space r
  end.

Fixpoint has_comma (s : string) : bool :=
  match s with
  | EmptyString => false
  | String c r => Ascii.eqb c "," || has_comma r
  end.

(** The value and the state of an outcome that returns. *)
Definition value {S A} (o : outcome S A) : option A :=
  match o with Returns a _ => Some a | _ => None end.

Definition state_of {S A} (o : outcome S A) : option S :=
  match o with Returns _ s => Some s | _ => None end.

(** ** The worked scenario of the design document *)

(** One request at instant [t] with every clock reading equal to [t]:
    the decision, then the remaining count and the reset time that
    [rate_limit_dependency] would report. *)
Definition observe (t : Q) (user_id endpoint : string)
    (max_requests window : Z) : M (bool * Z * Q) :=
  limited <- is_rate_limited t t user_id endpoint max_requests window ;;
  remaining <- get_remaining_requests t user_id endpoint max_requests window ;;
  reset_time <- get_reset_time t user_id endpoint window ;;
  ret (limited, remaining, reset_time).

(** Requests at t = 0, 1, 2, 3 and 61 with [max_requests = 3] and
    [window = 60]; the observations of each and the stored log at the
    end. *)
Definition scenario (user_id endpoint : string)
  : M (list (bool * Z * Q) * list Q) :=
  o0 <- observe 0 user_id endpoint 3 60 ;;
  o1 <- observe 1 user_id endpoint 3 60 ;;
  o2 <- observe 2 user_id endpoint 3 60 ;;
  o3 <- observe 3 user_id endpoint 3 60 ;;
  o4 <- observe 61 user_id endpoint 3 60 ;;
  l <- get_log user_id endpoint ;;
  ret ([o0; o1; o2; o3; o4], l).

(** What the design document says of the scenario: admitted with
    remaining 2, 1, 0; denied with reset 57; admitted with the log
    {1, 2, 61} and remaining 0. *)
Definition scenario_as_documented (r : list (bool * Z * Q) * list Q) : Prop :=
  exists x0 x1 x2 r3 x4,
    r = ([(false, 2, x0); (false, 1, x1); (false, 0, x2);
          (true, r3, 57%Q); (false, 0, x4)],
         [1%Q; 2%Q; 61%Q]).

(** * The arithmetic of the code *)

Module Double.

(** The lowest set bit of a positive integer. *)
Definition lowest_bit (n : Z) : Z := Z.land n (- n).

(** [x] is a finite binary64 value: [x = n * 2 ^ e] with [|n| < 2 ^ 53]
    and [-1074 <= e <= 971].  On the reduced fraction: the denominator is
    a power of two, at most [2 ^ 1074]; the odd part of the numerator is
    below [2 ^ 53]; and the value is below [2 ^ 1024]. *)
Definition is_double (x : Q) : bool :=
  let r := Qred x in
  let n := Z.abs (Qnum r) in
  let d := Zpos (Qden r) in
  if n =? 0 then true
  else (d =? 2 ^ Z.log2 d) && (Z.log2 d <=? 1074)
       && (n / lowest_bit n <? 2 ^ 53) && (n <? 2 ^ 1024).

(** [a - b] on doubles is exact. *)
Definition sub_exact (a b : Q) : bool :=
  is_double a && is_double b && is_double (a - b).

(** [a + b] on doubles is exact. *)
Definition add_exact (a b : Q) : bool :=
  is_double a && is_double b && is_double (a + b).

(** [a * b] on doubles is exact. *)
Definition mul_exact (a b : Q) : bool :=
  is_double a && is_double b && is_double (a * b).

(** The subtractions [now - req_time] of [_clean_old_requests] over the
    log [l] are exact. *)
Definition prune_exact (now : Q) (l : list Q) : bool :=
  forallb (fun req_time => sub_exact now req_time) l.

(** [oldest_request + window - time.time()] of [get_reset_time] is exact
    whichever entry of [l] is the oldest: [window] converts to a double
    without rounding, and so do the sum and the difference. *)
Definition reset_exact (now : Q) (window : Z) (l : list Q) : bool :=
  forallb (fun oldest_request =>
             add_exact oldest_request (inject_Z window)
             && sub_exact (oldest_request + inject_Z window) now) l.

(** [max_score * relative_threshold] of [select_citation_indices] is
    exact whichever score is the largest. *)
Definition threshold_exact (scores : list Q) (relative_threshold : option Q)
  : bool :=
  match relative_threshold with
  | None => true
  | Some rel => forallb (fun max_score => mul_exact max_score rel) scores
  end.

End Double.

Module Limits.

(** [sys.int_info.default_max_str_digits] *)
Definition MAX_STR_DIGITS : Z := 4300.

(** [str(n)] returns: [n] has at most [MAX_STR_DIGITS] digits. *)
Definition str_defined (n : Z) : bool := Z.abs n <? 10 ^ MAX_STR_DIGITS.

End Limits.

(** * Further code of the backend *)

(** ** More Python primitives *)

Module Seq.

(** [l[:n]] on a list: a negative [n] counts from the end. *)
Definition upto {A} (n : Z) (l : list A) : list A :=
  if 0 <=? n then take (Z.to_nat n) l
  else take (Z.to_nat (Z.of_nat (length l) + n)) l.

(** [s[:n]] on a string. *)
Definition str_upto (n : Z) (s : string) : string :=
  if 0 <=? n then String.substring 0 (Z.to_nat n) s
  else String.substring 0 (Z.to_nat (Z.of_nat (String.length s) + n)) s.

(** [s[a:b]] on a string, for indices that are not negative. *)
Definition slice (a b : nat) (s : string) : string :=
  String.substring a (b - a) s.

(** A [dict] with string keys, in insertion order: [d[k] = v] keeps the
    place of a key that is already there. *)
Fixpoint dict_set {V} (k : string) (v : V) (d : list (string * V))
  : list (string * V) :=
  match d with
  | [] => [(k, v)]
  | (k', v') :: r =>
      if String.eqb k' k then (k', v) :: r else (k', v') :: dict_set k v r
  end.

(** [a >= b] on floats. *)
Definition ge (a b : Q) : bool := Qle_bool b a.

(** The running maximum of [np.max]. *)
Fixpoint max_from (cur : Q) (l : list Q) : Q :=
  match l with
  | [] => cur
  | x :: r => max_from (if Py.lt cur x then x else cur) r
  end.

(** [np.max(l)]; [None] stands for the [ValueError] on an empty
    sequence. *)
Definition np_max (l : list Q) : option Q :=
  match l with
  | [] => None
  | x :: r => Some (max_from x r)
  end.

(** [enumerate(l)] *)
Definition enumerate {A} (l : list A) : list (nat * A) :=
  imap (fun i x => (i, x)) l.

(** [l.sort(key=key, reverse=True)]: descending keys, and elements with
    equal keys in the order they had.  [insert_desc] puts [x], which came
    before every element of [l], behind the elements with a strictly
    greater key only. *)
Fixpoint insert_desc {A} (key : A -> Q) (x : A) (l : list A) : list A :=
  match l with
  | [] => [x]
  | y :: r => if Py.lt (key x) (key y) then y :: insert_desc key x r
              else x :: y :: r
  end.

Fixpoint sort_desc {A} (key : A -> Q) (l : list A) : list A :=
  match l with
  | [] => []
  | x :: r => insert_desc key x (sort_desc key r)
  end.

End Seq.

(** ** [QAAttributionTask] of [backend/src/task.py] *)

Module Task.

Definition nl : string := String "010" EmptyString.

(** [f"Title: {title}\nContent: "] *)
Definition title_part (title : string) : string :=
  ("Title: " ++ title ++ nl ++ "Content: ")%string.

(** [f"{content}\n\n"] *)
Definition content_part (content : string) : string :=
  (content ++ nl ++ nl)%string.

(** The last piece of the prompt. *)
Definition query_part (query : string) : string :=
  ("Query: " ++ query ++ nl ++ nl
     ++ "Answer the question based on just the provided documents.")%string.

(** The body of the [for] loop, on the documents left. *)
Fixpoint loop (docs : list (string * string)) (prompt : string)
    (document_ranges : list (nat * nat)) : string * list (nat * nat) :=
  match docs with
  | [] => (prompt, document_ranges)
  | (title, content) :: r =>
      let prompt1 := (prompt ++ title_part title)%string in
      let document_ranges1 :=
        document_ranges ++
          [(String.length prompt1,
            (String.length prompt1 + String.length content)%nat)] in
      loop r (prompt1 ++ content_part content)%string document_ranges1
  end.

Definition get_prompt_and_document_ranges (query : string)
    (titles contents : list string) : string * list (nat * nat) :=
  let (prompt, document_ranges) :=
    loop (zip titles contents) EmptyString [] in
  ((prompt ++ query_part query)%string, document_ranges).

End Task.

(** ** [backend/src/citation.py] *)

Module Citation.

Definition ABSOLUTE_THRESHOLD : Q := 5 # 10000.
Definition RELATIVE_THRESHOLD : option Q := None.

(** The product [max_score * relative_threshold] is exact here; the code
    rounds it to a double, which is the same value under
    [Double.threshold_exact]. *)
Definition filter_fn (absolute_threshold : Q) (relative_threshold : option Q)
    (max_score : Q) (score : Q) : bool :=
  match relative_threshold with
  | None => Seq.ge score absolute_threshold
  | Some rel =>
      Seq.ge score absolute_threshold && Seq.ge score (max_score * rel)%Q
  end.

(** [np.max(scores)] is computed first, whatever the thresholds. *)
Definition select_citation_indices (scores : list Q) (absolute_threshold : Q)
    (relative_threshold : option Q) : exn + list nat :=
  match Seq.np_max scores with
  | None => inl ValueError
  | Some max_score =>
      inr (omap (fun '(i, score) =>
                   if filter_fn absolute_threshold relative_threshold
                        max_score score
                   then Some i else None)
             (Seq.enumerate scores))
  end.

Record citation := mkCitation {
  title : string;
  text : string;
  score : Q
}.

(** The loop that builds the citations; [titles[document_index]] raises
    [IndexError] out of range. *)
Fixpoint build (titles : list string) (scores : list Q)
    (get_source : nat -> string) (source_to_document : nat -> nat)
    (citation_indices : list nat) : exn + list citation :=
  match citation_indices with
  | [] => inr []
  | source_index :: r =>
      let cited_text := get_source source_index in
      let document_index := source_to_document source_index in
      match titles !! document_index, scores !! source_index with
      | Some t, Some s =>
          match build titles scores get_source source_to_document r with
          | inr cs => inr (mkCitation t (Py.strip cited_text) s :: cs)
          | inl e => inl e
          end
      | _, _ => inl IndexError
      end
  end.

(** [get_at2_citations] from the scores on: [scores] is what the
    attributor returned, [get_source] and [source_to_document] are the
    attribution task's [get_source] and [_source_to_document]. *)
Definition get_at2_citations (titles : list string) (scores : list Q)
    (get_source : nat -> string) (source_to_document : nat -> nat)
    (absolute_threshold : Q) (relative_threshold : option Q)
  : exn + list citation :=
  match select_citation_indices scores absolute_threshold relative_threshold with
  | inl e => inl e
  | inr citation_indices =>
      let key i := default 0%Q (scores !! i) in
      build titles scores get_source source_to_document
        (Seq.sort_desc key citation_indices)
  end.

End Citation.

(** ** [backend/src/search.py] *)

Module Search.

Definition MAX_RESULTS : Z := 3.
Definition TRUNCATE_LENGTH : option Z := Some 20000.

(** What [requests.get] and [BeautifulSoup] give, as far as the code looks
    at them: the status code and the text of each [<p>]; or an exception
    of [requests], which the code does not catch. *)
Inductive fetched :=
| Response (status_code : Z) (paragraphs : list string)
| RequestException.

(** A call that returns or lets the exception through. *)
Inductive res (A : Type) :=
| Val (a : A)
| Exc.
Arguments Val {A} a.
Arguments Exc {A}.

Definition parse_paragraphs (get : string -> fetched) (url : string)
  : res (option string) :=
  match get url with
  | RequestException => Exc
  | Response status_code paragraphs =>
      if negb (status_code =? 200) then Val None
      else Val (Some (String.concat (Task.nl ++ Task.nl)%string
                        (map Py.strip paragraphs)))
  end.

(** An entry of [response["results"]]. *)
Record tavily_result := mkTavily {
  url : string;
  title : string;
  content : string;
  raw_content : option string
}.

Record search_result := mkResult {
  r_title : string;
  r_link : string;
  r_content : string
}.

(** The content of one entry: the raw content, else the paragraphs of the
    page, else the snippet; then the truncation. *)
Definition content_of (get : string -> fetched) (truncate_length : option Z)
    (result : tavily_result) : res string :=
  match
    match raw_content result with
    | Some raw => Val (Some raw)
    | None => parse_paragraphs get (url result)
    end
  with
  | Exc => Exc
  | Val o =>
      let raw := match o with
                 | Some raw => raw
                 | None => content result
                 end in
      Val match truncate_length with
          | Some n => Seq.str_upto n raw
          | None => raw
          end
  end.

(** The [for] loop over the entries, filling the dict [results]. *)
Fixpoint fill (get : string -> fetched) (truncate_length : option Z)
    (entries : list tavily_result) (results : list (string * search_result))
  : res (list (string * search_result)) :=
  match entries with
  | [] => Val results
  | result :: r =>
      match content_of get truncate_length result with
      | Exc => Exc
      | Val c =>
          fill get truncate_length r
            (Seq.dict_set (url result)
               (mkResult (title result) (url result) c) results)
      end
  end.

(** [entries] is [response["results"]] of the Tavily client. *)
Definition tavily_search (get : string -> fetched)
    (entries : list tavily_result) (max_results : Z)
    (truncate_length : option Z) : res (list search_result) :=
  match fill get truncate_length entries [] with
  | Exc => Exc
  | Val results => Val (Seq.upto max_results (map snd results))
  end.

End Search.

(** ** [create_app] of [backend/src/main.py] *)

Module Main.

(** The choice of the GPU: [env] is
    [os.environ.get("CUDA_VISIBLE_DEVICES")] and [pid] is [os.getpid()].
    [inl] is the [AttributeError] of [None.split]; [None] inside [inr]
    would be the [IndexError] of the subscript. *)
Inductive startup_error := AttributeError | IndexError | ZeroDivisionError.

Definition select_device (env : option string) (pid : nat)
  : startup_error + string :=
  match env with
  | None => inl AttributeError
  | Some s =>
      let devices := Py.split "," s in
      if (length devices =? 0)%nat then inl ZeroDivisionError
      else match devices !! (pid mod length devices)%nat with
           | Some device => inr device
           | None => inl IndexError
           end
  end.

End Main.

(** ** Distinct keys *)

(** The distinct elements of [l] in the order in which they first occur:
    what the keys of a [dict] filled from [l] are compared with. *)
Fixpoint first_seen (l : list string) : list string :=
  match l with
  | [] => []
  | x :: r => x :: filter (fun y => y <> x) (first_seen r)
  end.

(** ** Reading a sequence of calls *)

(** The timestamps that the admitted calls of [cs] recorded, [bs] being
    the answers. *)
Definition admitted_times (cs : list call) (bs : list bool) : list Q :=
  omap (fun '(c, b) => if (b : bool) then None else Some (c_append c))
    (zip cs bs).

(** The call is for the key [(u, e)] with quota [m] and window [w]. *)
Definition one_key (u e : string) (m w : Z) (c : call) : Prop :=
  c_user c = u /\ c_endpoint c = e /\ c_max c = m /\ c_window c = w.

(** The clock readings of a run, in the order in which they are taken:
    each call reads the clock in [_clean_old_requests] and again when it
    records the request. *)
Definition reads (cs : list call) : list Q :=
  flat_map (fun c => [c_clean c; c_append c]) cs.

(** Every prune of the run subtracts exactly: the operands are the clock
    reading of a call and the recorded reading of a call. *)
Definition run_exact (cs : list call) : bool :=
  forallb (fun c' =>
             forallb (fun c => Double.sub_exact (c_clean c') (c_append c)) cs)
    cs.

(** * Properties *)

(** ** The Python primitives on small inputs *)

Example split_chain :
  Py.split "," "203.0.113.5, 10.0.0.1,10.0.0.2" =
  ["203.0.113.5"; " 10.0.0.1"; "10.0.0.2"]%string.
Proof. reflexivity. Qed.

Example split_without_separator : Py.split "," "" = [""%string].
Proof. reflexivity. Qed.

Example strip_both_sides :
  Py.strip (String "009" " 203.0.113.5  ") = "203.0.113.5"%string.
Proof. reflexivity. Qed.

Example strip_keeps_inner_space : Py.strip " a b " = "a b"%string.
Proof. reflexivity. Qed.

Example int_truncates :
  Py.int (119 # 2) = 59 /\ Py.ceil (119 # 2) = 60 /\ Py.int (-3 # 2) = -1.
Proof. by vm_compute. Qed.

Example str_of_int :
  Py.str 429 = "429"%string /\ Py.str 0 = "0"%string /\
  Py.str (-5) = "-5"%string.
Proof. by vm_compute. Qed.

Example min_keeps_first_least : Py.min_from 3 [1; 2; 1]%Q = 1%Q.
Proof. reflexivity. Qed.

Example getitem_creates :
  getitem [] "k" (∅ : gmap string (list Q)) = ([], {["k" := []]}).
Proof. reflexivity. Qed.

(** ** The primitives on a state *)

Lemma log_of_upd u e l lks rl : log_of u e (upd u e l lks rl) = l.
Proof.
  unfold log_of, upd. simpl. rewrite lookup_insert_eq. simpl.
  by rewrite lookup_insert_eq.
Qed.

Lemma log_of_upd_ne u e u' e' l lks rl :
  (u', e') ≠ (u, e) -> log_of u' e' (upd u e l lks rl) = log_of u' e' rl.
Proof.
  unfold log_of, upd. simpl. intros Hne.
  destruct (decide (u = u')) as [->|Hu].
  - rewrite lookup_insert_eq. simpl.
    rewrite lookup_insert_ne by congruence.
    by destruct (requests rl !! u').
  - by rewrite lookup_insert_ne.
Qed.

Lemma upd_upd u e l1 l2 lks1 lks2 rl :
  upd u e l2 lks2 (upd u e l1 lks1 rl) = upd u e l2 lks2 rl.
Proof.
  unfold upd. simpl. rewrite lookup_insert_eq. simpl.
  by rewrite !insert_insert_eq.
Qed.

Lemma relock_upd u e l lks lks' rl :
  mkRateLimiter (requests (upd u e l lks rl)) lks' = upd u e l lks' rl.
Proof. done. Qed.

Lemma locks_upd u e l lks rl : locks (upd u e l lks rl) = lks.
Proof. done. Qed.

Lemma upd_relock u e l lks lks' rl :
  upd u e l lks (mkRateLimiter (requests rl) lks') = upd u e l lks rl.
Proof. done. Qed.

Lemma log_of_relock u e lks rl :
  log_of u e (mkRateLimiter (requests rl) lks) = log_of u e rl.
Proof. done. Qed.

Lemma locks_relock lks rl :
  locks (mkRateLimiter (requests rl) lks) = lks.
Proof. done. Qed.

Lemma insert_twice (u : string) (a b : bool) (lks : gmap string bool) :
  <[u := a]> (<[u := b]> lks) = <[u := a]> lks.
Proof. apply insert_insert_eq. Qed.

Create Rewrite HintDb rl.
#[local] Hint Rewrite locks_upd relock_upd upd_relock log_of_relock
  locks_relock log_of_upd upd_upd insert_twice : rl.

Lemma get_log_eq u e rl :
  get_log u e rl =
  Returns (log_of u e rl) (upd u e (log_of u e rl) (locks rl) rl).
Proof.
  unfold get_log, log_of, upd, getitem.
  destruct (requests rl !! u) as [inner|] eqn:Hu; simpl.
  - destruct (inner !! e) as [l|] eqn:He; simpl; [|done].
    by rewrite (insert_id inner e l He).
  - rewrite lookup_empty. simpl. by rewrite insert_insert_eq.
Qed.

Lemma set_log_eq u e l rl :
  set_log u e l rl = Returns tt (upd u e l (locks rl) rl).
Proof.
  unfold set_log, upd, getitem.
  destruct (requests rl !! u) as [inner|] eqn:Hu; simpl; [done|].
  by rewrite insert_insert_eq.
Qed.

Lemma append_log_eq u e x rl :
  append_log u e x rl =
  Returns tt (upd u e (log_of u e rl ++ [x]) (locks rl) rl).
Proof.
  unfold append_log, bind. rewrite get_log_eq, set_log_eq.
  by rewrite locks_upd, upd_upd.
Qed.

Lemma lock_free_relock u rl lks :
  lks !! u ≠ Some true -> lock_free u (mkRateLimiter (requests rl) lks).
Proof. done. Qed.

Lemma acquire_free u rl :
  lock_free u rl ->
  acquire u rl = Returns tt (mkRateLimiter (requests rl) (<[u := true]> (locks rl))).
Proof.
  unfold lock_free, acquire, getitem. intros Hf.
  destruct (locks rl !! u) as [[|]|] eqn:Hl; simpl; try done.
  by rewrite insert_insert_eq.
Qed.

Lemma acquire_held u rl :
  locks rl !! u = Some true -> acquire u rl = Blocked.
Proof. unfold acquire, getitem. by intros ->. Qed.

Lemma log_of_put u e l rl : log_of u e (put u e l rl) = l.
Proof. apply log_of_upd. Qed.

Lemma log_of_put_ne u e u' e' l rl :
  (u', e') ≠ (u, e) -> log_of u' e' (put u e l rl) = log_of u' e' rl.
Proof. apply log_of_upd_ne. Qed.

Lemma lock_free_put u e l u' rl :
  lock_free u' rl -> lock_free u' (put u e l rl).
Proof.
  unfold lock_free, put, upd. simpl. intros Hf.
  destruct (decide (u = u')) as [->|Hu].
  - by rewrite lookup_insert_eq.
  - by rewrite lookup_insert_ne.
Qed.

Lemma lock_free_put_same u e l rl : lock_free u (put u e l rl).
Proof. unfold lock_free, put, upd. simpl. by rewrite lookup_insert_eq. Qed.

Lemma put_put u e l1 l2 rl : put u e l2 (put u e l1 rl) = put u e l2 rl.
Proof. unfold put. by autorewrite with rl. Qed.

(** Running a [with] block on a free lock. *)
Lemma with_lock_free {A} u (body : M A) rl :
  lock_free u rl ->
  with_lock u body rl =
  match body (mkRateLimiter (requests rl) (<[u := true]> (locks rl))) with
  | Returns a rl' =>
      Returns a (mkRateLimiter (requests rl') (<[u := false]> (locks rl')))
  | Blocked => Blocked
  | Raised x rl' =>
      Raised x (mkRateLimiter (requests rl') (<[u := false]> (locks rl')))
  end.
Proof.
  intros Hf. unfold with_lock, bind, finally. rewrite (acquire_free u rl Hf).
  by destruct (body _).
Qed.

Lemma _clean_old_requests_eq now u e w rl :
  lock_free u rl ->
  _clean_old_requests now u e w rl =
  Returns tt (put u e (active_log now w u e rl) rl).
Proof.
  intros Hf. unfold _clean_old_requests. rewrite with_lock_free by done.
  unfold bind. rewrite get_log_eq, set_log_eq. unfold put, active_log.
  by autorewrite with rl.
Qed.

Lemma is_rate_limited_eq t1 t2 u e m w rl :
  lock_free u rl ->
  is_rate_limited t1 t2 u e m w rl =
  let l := active_log t1 w u e rl in
  if m <=? Py.len l then Returns true (put u e l rl)
  else Returns false (put u e (l ++ [t2]) rl).
Proof.
  intros Hf. unfold is_rate_limited, bind at 1.
  rewrite _clean_old_requests_eq by done.
  rewrite with_lock_free by apply lock_free_put_same.
  unfold bind at 1. rewrite get_log_eq.
  set (l := active_log t1 w u e rl). unfold put. cbv zeta.
  autorewrite with rl.
  destruct (m <=? Py.len l) eqn:Hm.
  - unfold ret. by autorewrite with rl.
  - unfold bind. rewrite append_log_eq. unfold ret.
    by autorewrite with rl.
Qed.

Lemma get_remaining_requests_eq t u e m w rl :
  lock_free u rl ->
  get_remaining_requests t u e m w rl =
  let l := active_log t w u e rl in
  Returns (Py.max0_int (m - Py.len l)) (put u e l rl).
Proof.
  intros Hf. unfold get_remaining_requests, bind at 1.
  rewrite _clean_old_requests_eq by done.
  rewrite with_lock_free by apply lock_free_put_same.
  unfold bind at 1. rewrite get_log_eq.
  set (l := active_log t w u e rl). unfold put, ret. cbv zeta.
  by autorewrite with rl.
Qed.

(** [get_reset_time] does not prune: it works on the stored log. *)
Lemma get_reset_time_eq now u e w rl :
  lock_free u rl ->
  get_reset_time now u e w rl =
  Returns
    match log_of u e rl with
    | [] => 0%Q
    | x :: r => Py.max0 (Py.min_from x r + inject_Z w - now)%Q
    end
    (put u e (log_of u e rl) rl).
Proof.
  intros Hf. unfold get_reset_time.
  rewrite with_lock_free by done.
  unfold bind at 1. rewrite get_log_eq. autorewrite with rl.
  destruct (log_of u e rl) as [|x r] eqn:Hl.
  - unfold ret, put. by autorewrite with rl.
  - unfold bind. rewrite get_log_eq. autorewrite with rl.
    unfold ret, put. by autorewrite with rl.
Qed.

(** ** The worked scenario *)

Lemma observe_eq t u e m w rl :
  lock_free u rl ->
  observe t u e m w rl =
  let l := active_log t w u e rl in
  let l' := if m <=? Py.len l then l else l ++ [t] in
  let l'' := List.filter (active t w) l' in
  Returns (m <=? Py.len l, Py.max0_int (m - Py.len l''),
           match l'' with
           | [] => 0%Q
           | x :: r => Py.max0 (Py.min_from x r + inject_Z w - t)%Q
           end)
    (put u e l'' rl).
Proof.
  intros Hf. unfold observe, bind. rewrite is_rate_limited_eq by done.
  cbv zeta. set (l := active_log t w u e rl).
  destruct (m <=? Py.len l);
    rewrite get_remaining_requests_eq by apply lock_free_put_same;
    cbv zeta; unfold active_log at 1 2; rewrite !log_of_put, put_put;
    rewrite get_reset_time_eq by apply lock_free_put_same;
    by rewrite log_of_put, put_put.
Qed.

(** C3 (as amended).  With [max_requests = 3] and [window = 60] on a key
    whose log is empty, the requests at t = 0, 1, 2 are admitted with
    remaining 2, 1, 0; the request at t = 3 is denied with reset time 57;
    at t = 61 both the entries of t = 0 and of t = 1 have left the window
    (61 - 1 = 60 is not below 60), so the request is admitted, the log is
    then {2, 61} and the remaining count is 1. *)
Theorem worked_scenario u e rl :
  lock_free u rl ->
  log_of u e rl = [] ->
  scenario u e rl =
  Returns ([(false, 2, 60%Q); (false, 1, 59%Q); (false, 0, 58%Q);
            (true, 0, 57%Q); (false, 1, 1%Q)],
           [2%Q; 61%Q])
    (put u e [2%Q; 61%Q] rl).
Proof.
  intros Hf Hl. unfold scenario, bind.
  rewrite observe_eq by done. unfold active_log. rewrite Hl. cbn.
  rewrite observe_eq by apply lock_free_put_same.
  unfold active_log. rewrite log_of_put, put_put. cbn.
  rewrite observe_eq by apply lock_free_put_same.
  unfold active_log. rewrite log_of_put, put_put. cbn.
  rewrite observe_eq by apply lock_free_put_same.
  unfold active_log. rewrite log_of_put, put_put. cbn.
  rewrite observe_eq by apply lock_free_put_same.
  unfold active_log. rewrite log_of_put, put_put. cbn.
  rewrite get_log_eq, log_of_put. unfold ret, put.
  by autorewrite with rl.
Qed.

Lemma worked_scenario_witness :
  scenario "10.0.0.7" "search" init =
  Returns ([(false, 2, 60%Q); (false, 1, 59%Q); (false, 0, 58%Q);
            (true, 0, 57%Q); (false, 1, 1%Q)],
           [2%Q; 61%Q])
    (put "10.0.0.7" "search" [2%Q; 61%Q] init).
Proof.
  apply (worked_scenario "10.0.0.7" "search" init).
  - unfold lock_free. simpl. by rewrite lookup_empty.
  - reflexivity.
Defined.

(** C3, the documented run does not happen: from a fresh limiter the
    scenario does not end with the log {1, 2, 61} and remaining 0. *)
Lemma documented_scenario_does_not_run :
  ~ exists r rl', scenario "10.0.0.7" "search" init = Returns r rl'
                  /\ scenario_as_documented r.
Proof.
  intros (r & rl' & Hrun & x0 & x1 & x2 & r3 & x4 & Hdoc).
  subst r. vm_compute in Hrun. inversion Hrun.
Qed.

(** ** The window test and pruning *)

Lemma lt_iff a b : Py.lt a b = true <-> (a < b)%Q.
Proof.
  unfold Py.lt. rewrite negb_true_iff.
  destruct (Qle_bool b a) eqn:Hb.
  - apply Qle_bool_iff in Hb. split; [done|].
    intros Hlt. exfalso. by apply (Qlt_not_le a b).
  - split; [|done]. intros _. apply Qnot_le_lt. intros Hle.
    apply Qle_bool_iff in Hle. congruence.
Qed.

Lemma active_iff now w t :
  active now w t = true <-> (now - t < inject_Z w)%Q.
Proof. apply lt_iff. Qed.

Lemma active_now now w : 0 < w -> active now w now = true.
Proof.
  intros Hw. apply active_iff.
  assert (H0 : (now - now == 0)%Q) by ring. rewrite H0.
  change 0%Q with (inject_Z 0). by rewrite <- Zlt_Qlt.
Qed.

Lemma filter_all {A} (f : A -> bool) l :
  Forall (fun x => f x = true) l -> List.filter f l = l.
Proof.
  induction 1 as [|x l Hx _ IH]; simpl; [done|]. by rewrite Hx, IH.
Qed.

Lemma filter_Forall {A} (f : A -> bool) l :
  Forall (fun x => f x = true) (List.filter f l).
Proof.
  induction l as [|x l IH]; simpl; [constructor|].
  destruct (f x) eqn:Hx; [by constructor|done].
Qed.

Lemma filter_twice {A} (f : A -> bool) l :
  List.filter f (List.filter f l) = List.filter f l.
Proof. apply filter_all, filter_Forall. Qed.

Lemma filter_replicate_now now w k :
  0 < w -> List.filter (active now w) (replicate k now) = replicate k now.
Proof.
  intros Hw. apply filter_all, Forall_replicate. by apply active_now.
Qed.

Lemma active_log_put now w u e l rl :
  active_log now w u e (put u e l rl) = List.filter (active now w) l.
Proof. unfold active_log. by rewrite log_of_put. Qed.

Lemma len_replicate {A} k (x : A) : Py.len (replicate k x) = Z.of_nat k.
Proof. unfold Py.len. by rewrite length_replicate. Qed.

Lemma len_app {A} (l1 l2 : list A) : Py.len (l1 ++ l2) = Py.len l1 + Py.len l2.
Proof. unfold Py.len. rewrite length_app. lia. Qed.

Lemma len_nonneg {A} (l : list A) : 0 <= Py.len l.
Proof. unfold Py.len. lia. Qed.

(** ** Sequences of calls *)

Lemma run_calls_snoc cs c rl :
  run_calls (cs ++ [c]) rl =
  match run_calls cs rl with
  | Returns bs s =>
      match do_call c s with
      | Returns b s' => Returns (bs ++ [b]) s'
      | Blocked => Blocked
      | Raised x s' => Raised x s'
      end
  | Blocked => Blocked
  | Raised x s => Raised x s
  end.
Proof.
  revert rl. induction cs as [|c0 cs IH]; intros rl; simpl.
  - unfold bind, ret. by destruct (do_call c rl).
  - unfold bind at 1 3. destruct (do_call c0 rl) as [b0 s0| |x s0]; [|done..].
    unfold bind at 1 2. rewrite IH.
    destruct (run_calls cs s0) as [bs s1| |x s1]; [|done..].
    unfold ret. by destruct (do_call c s1).
Qed.

Section Burst.

Variables (m w : Z) (now : Q) (u e : string) (rl : RateLimiter).
Hypothesis Hm : 1 <= m.
Hypothesis Hw : 0 < w.
Hypothesis Hfree : lock_free u rl.
Hypothesis Hfresh : active_log now w u e rl = [].

Lemma after_free k : lock_free u (after_burst k now u e m rl).
Proof. destruct k; [done|]. apply lock_free_put_same. Qed.

Lemma after_active k :
  active_log now w u e (after_burst k now u e m rl) =
  replicate (Nat.min (Z.to_nat m) k) now.
Proof.
  destruct k; [by rewrite Nat.min_0_r|]. unfold after_burst.
  rewrite active_log_put. by apply filter_replicate_now.
Qed.

Lemma after_put k l : put u e l (after_burst k now u e m rl) = put u e l rl.
Proof. destruct k; [done|]. apply put_put. Qed.

(** The call that follows [k] earlier ones. *)
Lemma burst_call k :
  do_call (at_instant now u e m w) (after_burst k now u e m rl) =
  Returns (bool_decide (Z.to_nat m <= k)%nat) (after_burst (S k) now u e m rl).
Proof.
  unfold do_call, at_instant. simpl.
  rewrite is_rate_limited_eq by apply after_free. cbv zeta.
  rewrite after_active, len_replicate, !after_put.
  destruct (m <=? Z.of_nat (Nat.min (Z.to_nat m) k)) eqn:Hc.
  - apply Z.leb_le in Hc.
    rewrite bool_decide_eq_true_2 by lia.
    unfold after_burst.
    replace (Nat.min (Z.to_nat m) (S k)) with (Nat.min (Z.to_nat m) k) by lia.
    done.
  - apply Z.leb_gt in Hc.
    rewrite bool_decide_eq_false_2 by lia.
    unfold after_burst.
    replace (Nat.min (Z.to_nat m) (S k)) with (S (Nat.min (Z.to_nat m) k))
      by lia.
    by rewrite replicate_S_end.
Qed.

Lemma burst_prefix k :
  run_calls (replicate k (at_instant now u e m w)) rl =
  Returns (replicate (Nat.min (Z.to_nat m) k) false
             ++ replicate (k - Z.to_nat m) true)
    (after_burst k now u e m rl).
Proof.
  induction k as [|k IH]; [by rewrite Nat.min_0_r|].
  rewrite replicate_S_end, run_calls_snoc, IH, burst_call.
  f_equal. case_bool_decide as Hq.
  - replace (S k - Z.to_nat m)%nat with (S (k - Z.to_nat m)) by lia.
    rewrite replicate_S_end, app_assoc.
    do 2 f_equal. f_equal. lia.
  - replace (S k - Z.to_nat m)%nat with O by lia.
    replace (k - Z.to_nat m)%nat with O by lia. simpl. rewrite !app_nil_r.
    replace (Nat.min (Z.to_nat m) (S k)) with (S (Nat.min (Z.to_nat m) k))
      by lia.
    by rewrite replicate_S_end.
Qed.

End Burst.

(** C1.  [n > m] calls for one key at one instant, from a log with no
    active entry: the answers are [m] times admitted and then [n - m] times
    denied; each of the first [m] calls appends the current timestamp to the
    active log; each later call leaves the state as it found it, and with it
    the remaining count. *)
Theorem burst_at_one_instant (m w : Z) (n : nat) (now : Q) (u e : string)
    (rl : RateLimiter) :
  1 <= m -> 0 < w -> m < Z.of_nat n ->
  lock_free u rl -> active_log now w u e rl = [] ->
  let c := at_instant now u e m w in
  (exists rl',
      run_calls (replicate n c) rl =
      Returns (replicate (Z.to_nat m) false ++ replicate (n - Z.to_nat m) true)
        rl') /\
  forall k, (k < n)%nat ->
    exists s s',
      state_of (run_calls (replicate k c) rl) = Some s /\
      do_call c s = Returns (bool_decide (m <= Z.of_nat k)) s' /\
      state_of (run_calls (replicate (S k) c) rl) = Some s' /\
      (Z.of_nat k < m ->
         log_of u e s' = active_log now w u e s ++ [now] /\
         log_of u e s' = replicate (S k) now) /\
      (m <= Z.of_nat k ->
         s' = s /\
         log_of u e s' = replicate (Z.to_nat m) now /\
         value (get_remaining_requests now u e m w s') =
         value (get_remaining_requests now u e m w s)).
Proof.
  intros Hm Hw Hn Hfree Hfresh c. split.
  - eexists. unfold c. rewrite burst_prefix by done.
    by replace (Nat.min (Z.to_nat m) n) with (Z.to_nat m) by lia.
  - intros k Hk.
    pose proof (burst_prefix m w now u e rl Hm Hw Hfree Hfresh k) as Hpre.
    pose proof (burst_prefix m w now u e rl Hm Hw Hfree Hfresh (S k)) as Hpre'.
    pose proof (burst_call m w now u e rl Hm Hw Hfree Hfresh k) as Hcall.
    pose proof (after_active m w now u e rl Hw Hfresh k) as Hact.
    fold c in Hpre, Hpre', Hcall. unfold after_burst in *.
    eexists _, _. rewrite Hpre, Hpre'. simpl state_of.
    split; [done|]. split.
    { rewrite Hcall. f_equal. apply bool_decide_ext. lia. }
    split; [done|]. split.
    + intros Hlt. rewrite Hact, log_of_put.
      replace (Nat.min (Z.to_nat m) (S k)) with (S k) by lia.
      replace (Nat.min (Z.to_nat m) k) with k by lia.
      by rewrite replicate_S_end.
    + intros Hge. rewrite log_of_put.
      replace (Nat.min (Z.to_nat m) (S k)) with (Z.to_nat m) by lia.
      assert (Heq : put u e (replicate (Z.to_nat m) now) rl =
                    match k with
                    | O => rl
                    | S _ => put u e (replicate (Nat.min (Z.to_nat m) k) now) rl
                    end).
      { destruct k as [|k']; [lia|].
        by replace (Nat.min (Z.to_nat m) (S k')) with (Z.to_nat m) by lia. }
      by rewrite <- Heq.
Qed.

Lemma burst_at_one_instant_witness :
  let c := at_instant 5 "10.0.0.7" "search" 2 60 in
  (exists rl',
      run_calls (replicate 4 c) init =
      Returns (replicate (Z.to_nat 2) false ++ replicate (4 - Z.to_nat 2) true)
        rl') /\
  forall k, (k < 4)%nat ->
    exists s s',
      state_of (run_calls (replicate k c) init) = Some s /\
      do_call c s = Returns (bool_decide (2 <= Z.of_nat k)) s' /\
      state_of (run_calls (replicate (S k) c) init) = Some s' /\
      (Z.of_nat k < 2 ->
         log_of "10.0.0.7" "search" s' =
           active_log 5 60 "10.0.0.7" "search" s ++ [5%Q] /\
         log_of "10.0.0.7" "search" s' = replicate (S k) 5%Q) /\
      (2 <= Z.of_nat k ->
         s' = s /\
         log_of "10.0.0.7" "search" s' = replicate (Z.to_nat 2) 5%Q /\
         value (get_remaining_requests 5 "10.0.0.7" "search" 2 60 s') =
         value (get_remaining_requests 5 "10.0.0.7" "search" 2 60 s)).
Proof.
  apply (burst_at_one_instant 2 60 4 5 "10.0.0.7" "search" init).
  - lia.
  - lia.
  - lia.
  - unfold lock_free. simpl. by rewrite lookup_empty.
  - reflexivity.
Defined.

(** ** The remaining count *)

Lemma max0_int_range m k : 0 <= m -> 0 <= k -> 0 <= Py.max0_int (m - k) <= m.
Proof. unfold Py.max0_int. intros Hm Hk. destruct (0 <? m - k) eqn:H; lia. Qed.

Lemma init_lock_free u : lock_free u init.
Proof. unfold lock_free. simpl. by rewrite lookup_empty. Qed.

(** C5.  For a quota [m >= 0] and a window [w > 0]: the remaining count is
    between 0 and [m]; measured at one instant before and after a call of
    [is_rate_limited], it is one less after an admitted call and the same
    after a denied one.  Measuring beforehand does not change the
    answer of the call. *)
Theorem remaining_count_steps (now : Q) (u e : string) (m w : Z)
    (rl : RateLimiter) :
  0 <= m -> 0 < w -> lock_free u rl ->
  exists r0 s0 b s1 r1 s2,
    get_remaining_requests now u e m w rl = Returns r0 s0 /\
    is_rate_limited now now u e m w s0 = Returns b s1 /\
    value (is_rate_limited now now u e m w rl) = Some b /\
    get_remaining_requests now u e m w s1 = Returns r1 s2 /\
    0 <= r0 <= m /\ 0 <= r1 <= m /\
    (b = false -> r1 = r0 - 1) /\
    (b = true -> r1 = r0).
Proof.
  intros Hm Hw Hf.
  set (l := active_log now w u e rl).
  assert (Hl : List.filter (active now w) l = l) by apply filter_twice.
  assert (Hr0 : get_remaining_requests now u e m w rl =
                Returns (Py.max0_int (m - Py.len l)) (put u e l rl))
    by by rewrite get_remaining_requests_eq.
  pose proof (len_nonneg l) as Hlen.
  pose proof (is_rate_limited_eq now now u e m w rl Hf) as Hdirect.
  pose proof (is_rate_limited_eq now now u e m w (put u e l rl)
                (lock_free_put_same u e l rl)) as Hcall.
  cbv zeta in Hdirect, Hcall. rewrite active_log_put, Hl, !put_put in Hcall.
  fold l in Hdirect.
  destruct (m <=? Py.len l) eqn:Hc.
  - apply Z.leb_le in Hc.
    exists (Py.max0_int (m - Py.len l)), (put u e l rl), true,
      (put u e l rl), (Py.max0_int (m - Py.len l)), (put u e l rl).
    split; [done|]. split; [done|]. split; [by rewrite Hdirect|].
    split.
    { rewrite get_remaining_requests_eq by apply lock_free_put_same.
      cbv zeta. by rewrite active_log_put, Hl, put_put. }
    split; [by apply max0_int_range|]. split; [by apply max0_int_range|].
    done.
  - apply Z.leb_gt in Hc.
    assert (Hl' : List.filter (active now w) (l ++ [now]) = l ++ [now]).
    { rewrite List.filter_app, Hl. simpl. by rewrite (active_now now w Hw). }
    exists (Py.max0_int (m - Py.len l)), (put u e l rl), false,
      (put u e (l ++ [now]) rl), (Py.max0_int (m - Py.len (l ++ [now]))),
      (put u e (l ++ [now]) rl).
    split; [done|]. split; [done|]. split; [by rewrite Hdirect|].
    split.
    { rewrite get_remaining_requests_eq by apply lock_free_put_same.
      cbv zeta. by rewrite active_log_put, Hl', put_put. }
    split; [by apply max0_int_range|].
    split; [apply max0_int_range; [done|apply len_nonneg]|].
    split; [|done]. intros _. rewrite len_app. unfold Py.max0_int.
    change (Py.len [now]) with 1.
    destruct (0 <? m - (Py.len l + 1)) eqn:H1;
      destruct (0 <? m - Py.len l) eqn:H2; lia.
Qed.

Lemma remaining_count_steps_witness :
  exists r0 s0 b s1 r1 s2,
    get_remaining_requests 7 "10.0.0.7" "answer" 2 60 init = Returns r0 s0 /\
    is_rate_limited 7 7 "10.0.0.7" "answer" 2 60 s0 = Returns b s1 /\
    value (is_rate_limited 7 7 "10.0.0.7" "answer" 2 60 init) = Some b /\
    get_remaining_requests 7 "10.0.0.7" "answer" 2 60 s1 = Returns r1 s2 /\
    0 <= r0 <= 2 /\ 0 <= r1 <= 2 /\
    (b = false -> r1 = r0 - 1) /\
    (b = true -> r1 = r0).
Proof.
  apply (remaining_count_steps 7 "10.0.0.7" "answer" 2 60 init).
  - lia.
  - lia.
  - apply init_lock_free.
Defined.

(** ** A quota that is not positive *)

Lemma filter_sublist {A} (f : A -> bool) (l : list A) :
  sublist (List.filter f l) l.
Proof.
  induction l as [|x l IH]; simpl; [constructor|].
  destruct (f x); by constructor.
Qed.

Lemma is_rate_limited_nonpos t1 t2 u e m w rl :
  m <= 0 -> lock_free u rl ->
  is_rate_limited t1 t2 u e m w rl =
  Returns true (put u e (active_log t1 w u e rl) rl).
Proof.
  intros Hm Hf. rewrite is_rate_limited_eq by done. cbv zeta.
  pose proof (len_nonneg (active_log t1 w u e rl)).
  by rewrite (proj2 (Z.leb_le _ _)) by lia.
Qed.

Lemma run_calls_nonpos cs : forall rl,
  Forall (fun c => c_max c <= 0) cs ->
  (forall u, lock_free u rl) ->
  exists rl',
    run_calls cs rl = Returns (replicate (length cs) true) rl' /\
    (forall u, lock_free u rl') /\
    (forall u e, sublist (log_of u e rl') (log_of u e rl)).
Proof.
  induction cs as [|c cs IH]; intros rl Hcs Hf.
  - exists rl. by repeat split.
  - inversion Hcs as [|? ? Hc Hcs']; subst. simpl. unfold bind at 1, do_call.
    rewrite is_rate_limited_nonpos by done.
    set (s := put _ _ _ rl).
    destruct (IH s Hcs') as (rl' & Hrun & Hf' & Hsub).
    { intros u. by apply lock_free_put. }
    exists rl'. unfold bind, ret. rewrite Hrun. split; [done|]. split; [done|].
    intros u e. etrans; [apply Hsub|]. unfold s.
    destruct (decide ((u, e) = (c_user c, c_endpoint c))) as [[= -> ->]|Hne].
    + rewrite log_of_put. apply filter_sublist.
    + by rewrite log_of_put_ne.
Qed.

(** The same for the limiter of [backend/rate_limiter.py]. *)

Lemma legacy_get_log_eq u rl :
  Legacy.get_log u rl =
  Returns (Legacy.log_of u rl)
    (Legacy.mkRateLimiter (<[u := Legacy.log_of u rl]> (Legacy.requests rl))
       (Legacy.locks rl)).
Proof.
  unfold Legacy.get_log, Legacy.log_of, getitem.
  destruct (Legacy.requests rl !! u) as [l|] eqn:Hu; simpl; [|done].
  by rewrite (insert_id _ u l Hu).
Qed.

Lemma legacy_acquire_free u rl :
  Legacy.lock_free u rl ->
  Legacy.acquire u rl =
  Returns tt (Legacy.mkRateLimiter (Legacy.requests rl)
                (<[u := true]> (Legacy.locks rl))).
Proof.
  unfold Legacy.lock_free, Legacy.acquire, getitem. intros Hf.
  destruct (Legacy.locks rl !! u) as [[|]|] eqn:Hl; simpl; try done.
  by rewrite insert_insert_eq.
Qed.

Lemma legacy_is_rate_limited_eq t1 t2 u m w rl :
  Legacy.lock_free u rl ->
  Legacy.is_rate_limited t1 t2 u m w rl =
  let l := List.filter (active t1 w) (Legacy.log_of u rl) in
  if m <=? Py.len l then Returns true (Legacy.put u l rl)
  else Returns false (Legacy.put u (l ++ [t2]) rl).
Proof.
  intros Hf.
  unfold Legacy.is_rate_limited, Legacy._clean_old_requests,
    Legacy.with_lock, finally, bind at 1 2.
  rewrite legacy_acquire_free by done.
  unfold bind at 1. rewrite legacy_get_log_eq.
  unfold Legacy.set_log, Legacy.release at 1. simpl.
  rewrite !insert_insert_eq.
  unfold bind at 1.
  rewrite legacy_acquire_free
    by (unfold Legacy.lock_free; simpl; by rewrite lookup_insert_eq).
  simpl. unfold bind at 1. rewrite legacy_get_log_eq.
  unfold Legacy.log_of at 1 2 3. simpl. rewrite !lookup_insert_eq. simpl.
  change (default [] (Legacy.requests rl !! u)) with (Legacy.log_of u rl).
  set (l := List.filter (active t1 w) (Legacy.log_of u rl)).
  rewrite !insert_insert_eq.
  destruct (m <=? Py.len l).
  - unfold ret, Legacy.release, Legacy.put. simpl.
    by rewrite !insert_insert_eq.
  - unfold bind, Legacy.append_log, bind. rewrite legacy_get_log_eq.
    unfold Legacy.set_log, ret, Legacy.release, Legacy.put,
      Legacy.log_of. simpl.
    rewrite !lookup_insert_eq. simpl. by rewrite !insert_insert_eq.
Qed.

Lemma legacy_log_of_put_eq u l rl : Legacy.log_of u (Legacy.put u l rl) = l.
Proof. unfold Legacy.log_of, Legacy.put. simpl. by rewrite lookup_insert_eq. Qed.

Lemma legacy_log_of_put_ne u u' l rl :
  u' ≠ u -> Legacy.log_of u' (Legacy.put u l rl) = Legacy.log_of u' rl.
Proof.
  intros Hne. unfold Legacy.log_of, Legacy.put. simpl.
  by rewrite lookup_insert_ne.
Qed.

Lemma legacy_lock_free_put u u' l rl :
  Legacy.lock_free u' rl -> Legacy.lock_free u' (Legacy.put u l rl).
Proof.
  unfold Legacy.lock_free, Legacy.put. simpl. intros Hf.
  destruct (decide (u = u')) as [->|Hu].
  - by rewrite lookup_insert_eq.
  - by rewrite lookup_insert_ne.
Qed.

Lemma legacy_run_calls_nonpos cs : forall rl,
  Forall (fun c => Legacy.c_max c <= 0) cs ->
  (forall u, Legacy.lock_free u rl) ->
  exists rl',
    Legacy.run_calls cs rl = Returns (replicate (length cs) true) rl' /\
    (forall u, Legacy.lock_free u rl') /\
    (forall u, sublist (Legacy.log_of u rl') (Legacy.log_of u rl)).
Proof.
  induction cs as [|c cs IH]; intros rl Hcs Hf.
  - exists rl. by repeat split.
  - inversion Hcs as [|? ? Hc Hcs']; subst. simpl. unfold bind at 1.
    rewrite legacy_is_rate_limited_eq by done. cbv zeta.
    set (l := List.filter _ _).
    pose proof (len_nonneg l).
    rewrite (proj2 (Z.leb_le _ _)) by lia.
    destruct (IH (Legacy.put (Legacy.c_user c) l rl) Hcs')
      as (rl' & Hrun & Hf' & Hsub).
    { intros u. by apply legacy_lock_free_put. }
    exists rl'. unfold bind, ret. rewrite Hrun. split; [done|]. split; [done|].
    intros u. etrans; [apply Hsub|].
    destruct (decide (u = Legacy.c_user c)) as [->|Hne].
    + rewrite legacy_log_of_put_eq. apply filter_sublist.
    + by rewrite legacy_log_of_put_ne.
Qed.

Lemma legacy_init_lock_free u : Legacy.lock_free u Legacy.init.
Proof. unfold Legacy.lock_free. simpl. by rewrite lookup_empty. Qed.

(** C10.  With [max_requests <= 0], in both limiters: every call of
    [is_rate_limited] returns [True], whatever the user, the endpoint, the
    window and the clock, without raising; a call leaves the pruned log and
    appends nothing, so that after any sequence of such calls every log is a
    sublist of what it was, and an empty log is still empty. *)
Theorem non_positive_quota (cs : list call) (lcs : list Legacy.call)
    (rl : RateLimiter) (lrl : Legacy.RateLimiter) :
  Forall (fun c => c_max c <= 0) cs ->
  Forall (fun c => Legacy.c_max c <= 0) lcs ->
  (forall u, lock_free u rl) ->
  (forall u, Legacy.lock_free u lrl) ->
  (forall t1 t2 u e m w, m <= 0 ->
     is_rate_limited t1 t2 u e m w rl =
     Returns true (put u e (active_log t1 w u e rl) rl)) /\
  (forall t1 t2 u m w, m <= 0 ->
     Legacy.is_rate_limited t1 t2 u m w lrl =
     Returns true
       (Legacy.put u (List.filter (active t1 w) (Legacy.log_of u lrl)) lrl)) /\
  (exists rl',
     run_calls cs rl = Returns (replicate (length cs) true) rl' /\
     (forall u e, sublist (log_of u e rl') (log_of u e rl)) /\
     (forall u e, log_of u e rl = [] -> log_of u e rl' = [])) /\
  (exists lrl',
     Legacy.run_calls lcs lrl = Returns (replicate (length lcs) true) lrl' /\
     (forall u, sublist (Legacy.log_of u lrl') (Legacy.log_of u lrl)) /\
     (forall u, Legacy.log_of u lrl = [] -> Legacy.log_of u lrl' = [])).
Proof.
  intros Hcs Hlcs Hf Hlf. split; [|split; [|split]].
  - intros t1 t2 u e m w Hm. by apply is_rate_limited_nonpos.
  - intros t1 t2 u m w Hm. rewrite legacy_is_rate_limited_eq by done.
    cbv zeta. set (l := List.filter _ _). pose proof (len_nonneg l).
    by rewrite (proj2 (Z.leb_le _ _)) by lia.
  - destruct (run_calls_nonpos cs rl Hcs Hf) as (rl' & Hrun & _ & Hsub).
    exists rl'. split; [done|]. split; [done|].
    intros u e He. specialize (Hsub u e). rewrite He in Hsub.
    by apply sublist_nil_r.
  - destruct (legacy_run_calls_nonpos lcs lrl Hlcs Hlf)
      as (lrl' & Hrun & _ & Hsub).
    exists lrl'. split; [done|]. split; [done|].
    intros u He. specialize (Hsub u). rewrite He in Hsub.
    by apply sublist_nil_r.
Qed.

Lemma non_positive_quota_witness :
  let cs := [mkCall 1 1 "10.0.0.7" "search" 0 3600;
             mkCall 2 2 "10.0.0.7" "search" (-1) 60;
             mkCall 2 3 "10.0.0.9" "answer" 0 0] in
  let lcs := [Legacy.mkCall 1 1 "10.0.0.7" 0 3600;
              Legacy.mkCall 5 6 "10.0.0.9" (-2) 60] in
  (forall t1 t2 u e m w, m <= 0 ->
     is_rate_limited t1 t2 u e m w init =
     Returns true (put u e (active_log t1 w u e init) init)) /\
  (forall t1 t2 u m w, m <= 0 ->
     Legacy.is_rate_limited t1 t2 u m w Legacy.init =
     Returns true
       (Legacy.put u
          (List.filter (active t1 w) (Legacy.log_of u Legacy.init))
          Legacy.init)) /\
  (exists rl',
     run_calls cs init = Returns (replicate (length cs) true) rl' /\
     (forall u e, sublist (log_of u e rl') (log_of u e init)) /\
     (forall u e, log_of u e init = [] -> log_of u e rl' = [])) /\
  (exists lrl',
     Legacy.run_calls lcs Legacy.init =
       Returns (replicate (length lcs) true) lrl' /\
     (forall u, sublist (Legacy.log_of u lrl') (Legacy.log_of u Legacy.init)) /\
     (forall u, Legacy.log_of u Legacy.init = [] -> Legacy.log_of u lrl' = [])).
Proof.
  apply non_positive_quota.
  - repeat constructor; simpl; lia.
  - repeat constructor; simpl; lia.
  - apply init_lock_free.
  - apply legacy_init_lock_free.
Defined.

(** ** Independence of the endpoints *)

Lemma stored_put_ne u e e' l rl :
  e ≠ e' ->
  requests (put u e l rl) !! u ≫= (.!! e') = requests rl !! u ≫= (.!! e').
Proof.
  intros Hne. unfold put, upd. simpl. rewrite lookup_insert_eq. simpl.
  rewrite lookup_insert_ne by done. by destruct (requests rl !! u).
Qed.

(** The answers for a key are a function of the log of that key. *)
Lemma answers_from_own_log u e rl1 rl2 :
  lock_free u rl1 -> lock_free u rl2 ->
  log_of u e rl1 = log_of u e rl2 ->
  (forall t1 t2 m w,
     value (is_rate_limited t1 t2 u e m w rl1) =
     value (is_rate_limited t1 t2 u e m w rl2)) /\
  (forall t m w,
     value (get_remaining_requests t u e m w rl1) =
     value (get_remaining_requests t u e m w rl2)).
Proof.
  intros H1 H2 Hlog. split.
  - intros t1 t2 m w. rewrite !is_rate_limited_eq by done. cbv zeta.
    unfold active_log. rewrite Hlog. by destruct (m <=? _).
  - intros t m w. rewrite !get_remaining_requests_eq by done. cbv zeta.
    unfold active_log. by rewrite Hlog.
Qed.

Lemma run_calls_frame u e e' cs : forall rl,
  e ≠ e' -> lock_free u rl ->
  Forall (fun c => c_user c = u /\ c_endpoint c = e) cs ->
  exists bs rl',
    run_calls cs rl = Returns bs rl' /\
    lock_free u rl' /\
    requests rl' !! u ≫= (.!! e') = requests rl !! u ≫= (.!! e').
Proof.
  induction cs as [|c cs IH]; intros rl Hne Hf Hcs.
  - by exists [], rl.
  - apply Forall_cons in Hcs as [[Hu He] Hcs']. simpl.
    unfold bind at 1, do_call. rewrite Hu, He.
    rewrite is_rate_limited_eq by done. cbv zeta.
    destruct (c_max c <=? _);
      match goal with |- context [put u e ?l rl] => set (s := put u e l rl) end;
      destruct (IH s Hne (lock_free_put_same _ _ _ _) Hcs')
        as (bs & rl' & Hrun & Hf' & Hst);
      eexists (_ :: bs), rl'; unfold bind, ret; rewrite Hrun;
      (split; [done|]); (split; [done|]);
      by rewrite Hst; apply stored_put_ne.
Qed.

(** C7.  For one user and two different endpoints [e] and [e']: a call of
    [is_rate_limited] or of [get_remaining_requests] for [e] leaves what is
    stored for [e'] as it was; any sequence of calls for [e], long enough
    to exhaust its quota or not, leaves the log of [e'] and every answer
    for [e'] as they were; and the answers for [e'] depend on no other part
    of the state than the log of [e']. *)
Theorem endpoints_independent (u e e' : string) (cs : list call)
    (rl : RateLimiter) :
  e ≠ e' -> lock_free u rl ->
  Forall (fun c => c_user c = u /\ c_endpoint c = e) cs ->
  (forall t1 t2 m w, exists b s,
      is_rate_limited t1 t2 u e m w rl = Returns b s /\
      requests s !! u ≫= (.!! e') = requests rl !! u ≫= (.!! e')) /\
  (forall t m w, exists r s,
      get_remaining_requests t u e m w rl = Returns r s /\
      requests s !! u ≫= (.!! e') = requests rl !! u ≫= (.!! e')) /\
  (exists bs rl',
      run_calls cs rl = Returns bs rl' /\
      requests rl' !! u ≫= (.!! e') = requests rl !! u ≫= (.!! e') /\
      log_of u e' rl' = log_of u e' rl /\
      (forall t1 t2 m w,
         value (is_rate_limited t1 t2 u e' m w rl') =
         value (is_rate_limited t1 t2 u e' m w rl)) /\
      (forall t m w,
         value (get_remaining_requests t u e' m w rl') =
         value (get_remaining_requests t u e' m w rl))) /\
  (forall rl2, lock_free u rl2 -> log_of u e' rl2 = log_of u e' rl ->
     (forall t1 t2 m w,
        value (is_rate_limited t1 t2 u e' m w rl2) =
        value (is_rate_limited t1 t2 u e' m w rl)) /\
     (forall t m w,
        value (get_remaining_requests t u e' m w rl2) =
        value (get_remaining_requests t u e' m w rl))).
Proof.
  intros Hne Hf Hcs. split; [|split; [|split]].
  - intros t1 t2 m w. rewrite is_rate_limited_eq by done. cbv zeta.
    destruct (m <=? _); eexists _, _; (split; [done|]);
      by apply stored_put_ne.
  - intros t m w. rewrite get_remaining_requests_eq by done. cbv zeta.
    eexists _, _. split; [done|]. by apply stored_put_ne.
  - destruct (run_calls_frame u e e' cs rl Hne Hf Hcs)
      as (bs & rl' & Hrun & Hf' & Hst).
    assert (Hlog : log_of u e' rl' = log_of u e' rl)
      by (unfold log_of; by rewrite Hst).
    exists bs, rl'. split; [done|]. split; [done|]. split; [done|].
    by apply answers_from_own_log.
  - intros rl2 Hf2 Hlog. by apply answers_from_own_log.
Qed.

Lemma endpoints_independent_witness :
  let cs := replicate 25 (at_instant 9 "10.0.0.7" "search" RATE_LIMIT_SEARCH
                            default_window) in
  let u := "10.0.0.7"%string in
  let e := "search"%string in
  let e' := "answer"%string in
  (forall t1 t2 m w, exists b s,
      is_rate_limited t1 t2 u e m w init = Returns b s /\
      requests s !! u ≫= (.!! e') = requests init !! u ≫= (.!! e')) /\
  (forall t m w, exists r s,
      get_remaining_requests t u e m w init = Returns r s /\
      requests s !! u ≫= (.!! e') = requests init !! u ≫= (.!! e')) /\
  (exists bs rl',
      run_calls cs init = Returns bs rl' /\
      requests rl' !! u ≫= (.!! e') = requests init !! u ≫= (.!! e') /\
      log_of u e' rl' = log_of u e' init /\
      (forall t1 t2 m w,
         value (is_rate_limited t1 t2 u e' m w rl') =
         value (is_rate_limited t1 t2 u e' m w init)) /\
      (forall t m w,
         value (get_remaining_requests t u e' m w rl') =
         value (get_remaining_requests t u e' m w init))) /\
  (forall rl2, lock_free u rl2 -> log_of u e' rl2 = log_of u e' init ->
     (forall t1 t2 m w,
        value (is_rate_limited t1 t2 u e' m w rl2) =
        value (is_rate_limited t1 t2 u e' m w init)) /\
     (forall t m w,
        value (get_remaining_requests t u e' m w rl2) =
        value (get_remaining_requests t u e' m w init))).
Proof.
  apply (endpoints_independent "10.0.0.7" "search" "answer").
  - discriminate.
  - apply init_lock_free.
  - apply Forall_replicate. split; reflexivity.
Defined.

(** ** The reset time *)

Lemma pick_le x cur : ((if Py.lt x cur then x else cur) <= cur)%Q.
Proof.
  destruct (Py.lt x cur) eqn:H; [|apply Qle_refl].
  apply lt_iff in H. by apply Qlt_le_weak.
Qed.

Lemma pick_le_new x cur : ((if Py.lt x cur then x else cur) <= x)%Q.
Proof.
  destruct (Py.lt x cur) eqn:H; [apply Qle_refl|].
  apply Qnot_lt_le. intros Hlt. apply lt_iff in Hlt. congruence.
Qed.

Lemma min_from_le_cur l : forall cur, (Py.min_from cur l <= cur)%Q.
Proof.
  induction l as [|x l IH]; intros cur; simpl; [apply Qle_refl|].
  eapply Qle_trans; [apply IH|apply pick_le].
Qed.

Lemma min_from_le_all l : forall cur,
  Forall (fun x => (Py.min_from cur l <= x)%Q) l.
Proof.
  induction l as [|x l IH]; intros cur; simpl; constructor.
  - eapply Qle_trans; [apply min_from_le_cur|apply pick_le_new].
  - apply IH.
Qed.

Lemma min_from_in l : forall cur,
  Py.min_from cur l = cur \/ In (Py.min_from cur l) l.
Proof.
  induction l as [|x l IH]; intros cur; simpl; [by left|].
  destruct (IH (if Py.lt x cur then x else cur)) as [H|H]; [|by right; right].
  rewrite H. destruct (Py.lt x cur); [right; by left|by left].
Qed.

Lemma max0_nonneg y : (0 <= Py.max0 y)%Q.
Proof.
  unfold Py.max0. destruct (Py.lt 0 y) eqn:H; [|apply Qle_refl].
  apply lt_iff in H. by apply Qlt_le_weak.
Qed.

Lemma max0_pos y : (0 < y)%Q -> Py.max0 y = y.
Proof. intros H. unfold Py.max0. apply lt_iff in H. by rewrite H. Qed.

Lemma active_time_left now w t :
  active now w t = true <-> (0 < t + inject_Z w - now)%Q.
Proof.
  rewrite active_iff. split; intros H.
  - apply (Qplus_lt_l _ _ (now - t)). ring_simplify. exact H.
  - apply (Qplus_lt_l _ _ (now - t)) in H. ring_simplify in H. exact H.
Qed.

(** The oldest entry of a log in which every entry is active is active. *)
Lemma oldest_active now w y r :
  Forall (fun t => active now w t = true) (y :: r) ->
  active now w (Py.min_from y r) = true.
Proof.
  intros Hall. apply Forall_forall with (x := Py.min_from y r) in Hall;
    [done|].
  destruct (min_from_in r y) as [->|Hin].
  - by left.
  - right. by apply list_elem_of_In.
Qed.

Lemma get_reset_time_nonneg now u e w rl :
  lock_free u rl ->
  exists x,
    get_reset_time now u e w rl = Returns x (put u e (log_of u e rl) rl) /\
    (0 <= x)%Q.
Proof.
  intros Hf. rewrite get_reset_time_eq by done. eexists. split; [done|].
  destruct (log_of u e rl); [apply Qle_refl|apply max0_nonneg].
Qed.

(** C6 (as amended).  [get_reset_time] reads the stored log without
    pruning it.  It never returns a negative value; it returns 0 on an
    empty stored log and [max(0, oldest + window - now)] otherwise, where
    [oldest] is the least stored entry.  When every stored entry is active
    at [now], as after a call of [is_rate_limited] or of
    [get_remaining_requests] at the same instant with a positive window,
    it returns 0 exactly when the log is empty and otherwise
    [oldest + window - now], which is then positive.  The values are those
    of the code when its sum and difference, and the subtractions of the
    prune, are exact doubles, which the theorem takes as hypotheses. *)
Theorem reset_time_on_stored_log (now : Q) (u e : string) (w : Z)
    (rl : RateLimiter) :
  lock_free u rl ->
  Double.reset_exact now w (log_of u e rl) = true ->
  Double.prune_exact now (log_of u e rl) = true ->
  exists x,
    get_reset_time now u e w rl = Returns x (put u e (log_of u e rl) rl) /\
    (0 <= x)%Q /\
    (log_of u e rl = [] -> x = 0%Q) /\
    (forall y r, log_of u e rl = y :: r ->
       let oldest := Py.min_from y r in
       x = Py.max0 (oldest + inject_Z w - now)%Q /\
       In oldest (y :: r) /\
       Forall (fun t => (oldest <= t)%Q) (y :: r)) /\
    (Forall (fun t => active now w t = true) (log_of u e rl) ->
       ((x == 0)%Q <-> log_of u e rl = []) /\
       forall y r, log_of u e rl = y :: r ->
         x = (Py.min_from y r + inject_Z w - now)%Q /\ (0 < x)%Q) /\
    (forall m b s, 0 < w ->
       is_rate_limited now now u e m w rl = Returns b s ->
       Forall (fun t => active now w t = true) (log_of u e s)) /\
    (forall m n s, 0 < w ->
       get_remaining_requests now u e m w rl = Returns n s ->
       Forall (fun t => active now w t = true) (log_of u e s)).
Proof.
  intros Hf _ _. rewrite get_reset_time_eq by done.
  eexists. split; [done|].
  assert (Hlimited : forall m b s, 0 < w ->
            is_rate_limited now now u e m w rl = Returns b s ->
            Forall (fun t => active now w t = true) (log_of u e s)).
  { intros m b s Hw Hcall.
    rewrite is_rate_limited_eq in Hcall by done. cbv zeta in Hcall.
    destruct (m <=? _); inversion Hcall; subst; rewrite log_of_put.
    - apply filter_Forall.
    - apply Forall_app. split; [apply filter_Forall|].
      constructor; [by apply active_now|constructor]. }
  assert (Hremaining : forall m n s, 0 < w ->
            get_remaining_requests now u e m w rl = Returns n s ->
            Forall (fun t => active now w t = true) (log_of u e s)).
  { intros m n s Hw Hcall.
    rewrite get_remaining_requests_eq in Hcall by done.
    cbv zeta in Hcall. inversion Hcall; subst. rewrite log_of_put.
    apply filter_Forall. }
  destruct (log_of u e rl) as [|y r] eqn:Hlog.
  - split; [apply Qle_refl|]. split; [done|]. split; [done|].
    split; [|by split].
    intros _. split; [done|]. done.
  - split; [apply max0_nonneg|]. split; [done|]. split.
    { intros y' r' [= <- <-]. cbv zeta. split; [done|]. split.
      - destruct (min_from_in r y) as [->|Hin]; [by left|by right].
      - constructor; [apply min_from_le_cur|apply min_from_le_all]. }
    split; [|by split].
    intros Hall.
    assert (Hpos : (0 < Py.min_from y r + inject_Z w - now)%Q)
      by by apply active_time_left, oldest_active.
    rewrite (max0_pos _ Hpos). split.
    + split; [|done]. intros H0. rewrite H0 in Hpos.
      by apply Qlt_irrefl in Hpos.
    + by intros y' r' [= <- <-].
Qed.

Lemma reset_time_on_stored_log_witness :
  let rl := put "10.0.0.7" "search" [0%Q; 1%Q; 2%Q] init in
  let u := "10.0.0.7"%string in
  let e := "search"%string in
  exists x,
    get_reset_time 3 u e 60 rl = Returns x (put u e (log_of u e rl) rl) /\
    (0 <= x)%Q /\
    (log_of u e rl = [] -> x = 0%Q) /\
    (forall y r, log_of u e rl = y :: r ->
       let oldest := Py.min_from y r in
       x = Py.max0 (oldest + inject_Z 60 - 3)%Q /\
       In oldest (y :: r) /\
       Forall (fun t => (oldest <= t)%Q) (y :: r)) /\
    (Forall (fun t => active 3 60 t = true) (log_of u e rl) ->
       ((x == 0)%Q <-> log_of u e rl = []) /\
       forall y r, log_of u e rl = y :: r ->
         x = (Py.min_from y r + inject_Z 60 - 3)%Q /\ (0 < x)%Q) /\
    (forall m b s, 0 < 60 ->
       is_rate_limited 3 3 u e m 60 rl = Returns b s ->
       Forall (fun t => active 3 60 t = true) (log_of u e s)) /\
    (forall m n s, 0 < 60 ->
       get_remaining_requests 3 u e m 60 rl = Returns n s ->
       Forall (fun t => active 3 60 t = true) (log_of u e s)).
Proof.
  apply (reset_time_on_stored_log 3 "10.0.0.7" "search" 60).
  - apply lock_free_put_same.
  - by vm_compute.
  - by vm_compute.
Defined.

(** C6, the stored log is not the active log: after requests at t = 0 and
    t = 50 with a window of 60, the active log at t = 70 is {50}, the
    claim asks for 50 + 60 - 70 = 40, and [get_reset_time] returns 0. *)
Lemma reset_time_zero_on_active_log :
  exists rl x s,
    run_calls [at_instant 0 "10.0.0.7" "search" 5 60;
               at_instant 50 "10.0.0.7" "search" 5 60] init =
      Returns [false; false] rl /\
    get_reset_time 70 "10.0.0.7" "search" 60 rl = Returns x s /\
    x = 0%Q /\
    active_log 70 60 "10.0.0.7" "search" rl = [50%Q] /\
    ~ (x == 50 + inject_Z 60 - 70)%Q.
Proof.
  exists (put "10.0.0.7" "search" [0%Q; 50%Q] init), 0%Q,
    (put "10.0.0.7" "search" [0%Q; 50%Q] init).
  split; [by vm_compute|]. split; [by vm_compute|]. split; [done|].
  split; [by vm_compute|]. by vm_compute.
Qed.

(** ** The response to a denied request *)

Lemma int_floor x : (0 <= x)%Q -> Py.int x = Qfloor x.
Proof.
  destruct x as [n d]. unfold Qle, Py.int, Qfloor. simpl. intros H.
  apply Z.quot_div_nonneg; lia.
Qed.

Lemma floor_le_ceil x : Qfloor x <= Qceiling x.
Proof.
  rewrite Zle_Qle. eapply Qle_trans; [apply Qfloor_le|apply Qle_ceiling].
Qed.

Lemma floor_eq_ceil x :
  Qfloor x = Qceiling x <-> (inject_Z (Qfloor x) == x)%Q.
Proof.
  split.
  - intros Heq. apply Qle_antisym; [apply Qfloor_le|].
    rewrite Heq. apply Qle_ceiling.
  - intros Heq. rewrite <- Heq at 2. by rewrite Qceiling_Z.
Qed.

(** C4 (as amended).  A denied request is answered by an [HTTPException]
    with status 429; its headers are X-RateLimit-Limit, the limit,
    X-RateLimit-Remaining, 0, and X-RateLimit-Reset and Retry-After, both
    [int(reset_time)]; its body names the same integer.  [int] truncates:
    the integer is the reset time rounded down, which is the rounded-up
    value only when the reset time is a whole number of seconds.  This is
    for a limit that [str] can print (at most 4300 digits) and for a
    window and timestamps on which the subtractions of the prune and the
    sum and difference of [get_reset_time] are exact doubles; outside of
    these, [str(limit)] or the conversion of the window to a float can
    fail before the response is built. *)
Theorem denied_response (limit : Z) (endpoint : string) (window : Z)
    (clk : clock) (request : Request) (rl : RateLimiter) (u : string)
    (s : RateLimiter) :
  get_user_id request = Some u ->
  lock_free u rl ->
  is_rate_limited (t_limited_clean clk) (t_limited_append clk) u endpoint
    limit window rl = Returns true s ->
  Limits.str_defined limit = true ->
  Double.prune_exact (t_limited_clean clk) (log_of u endpoint rl) = true ->
  Double.reset_exact (t_reset clk) window (log_of u endpoint s) = true ->
  exists reset_time s',
    get_reset_time (t_reset clk) u endpoint window s =
      Returns reset_time s' /\
    rate_limit_dependency limit endpoint window clk request rl =
      Raised
        (HTTPException 429
           ("Rate limit exceeded. Try again in "
              ++ Py.str (Py.int reset_time) ++ " seconds.")
           [("X-RateLimit-Limit", Py.str limit);
            ("X-RateLimit-Remaining", "0");
            ("X-RateLimit-Reset", Py.str (Py.int reset_time));
            ("Retry-After", Py.str (Py.int reset_time))]%string)
        s' /\
    (0 <= reset_time)%Q /\
    Py.int reset_time = Qfloor reset_time /\
    Py.int reset_time <= Py.ceil reset_time /\
    (Py.int reset_time = Py.ceil reset_time <->
     (inject_Z (Py.int reset_time) == reset_time)%Q).
Proof.
  intros Hid Hf Hden _ _ _.
  assert (Hfs : lock_free u s).
  { rewrite is_rate_limited_eq in Hden by done. cbv zeta in Hden.
    destruct (limit <=? _); inversion Hden. apply lock_free_put_same. }
  destruct (get_reset_time_nonneg (t_reset clk) u endpoint window s Hfs)
    as (x & Hreset & Hnonneg).
  exists x, (put u endpoint (log_of u endpoint s) s).
  split; [done|]. split.
  { unfold rate_limit_dependency, bind. rewrite Hid. unfold ret at 1.
    rewrite Hden, Hreset. done. }
  split; [done|]. rewrite (int_floor x Hnonneg).
  split; [done|]. split; [apply floor_le_ceil|apply floor_eq_ceil].
Qed.

Lemma denied_response_witness :
  let request := mkRequest (fun _ => None) (Some (mkAddress "10.0.0.7" 51234)) in
  let rl := put "10.0.0.7" "search" [0%Q] init in
  let clk := frozen (1 # 2) in
  exists reset_time s',
    get_reset_time (t_reset clk) "10.0.0.7" "search" 60 rl =
      Returns reset_time s' /\
    rate_limit_dependency 1 "search" 60 clk request rl =
      Raised
        (HTTPException 429
           ("Rate limit exceeded. Try again in "
              ++ Py.str (Py.int reset_time) ++ " seconds.")
           [("X-RateLimit-Limit", Py.str 1);
            ("X-RateLimit-Remaining", "0");
            ("X-RateLimit-Reset", Py.str (Py.int reset_time));
            ("Retry-After", Py.str (Py.int reset_time))]%string)
        s' /\
    (0 <= reset_time)%Q /\
    Py.int reset_time = Qfloor reset_time /\
    Py.int reset_time <= Py.ceil reset_time /\
    (Py.int reset_time = Py.ceil reset_time <->
     (inject_Z (Py.int reset_time) == reset_time)%Q).
Proof.
  apply (denied_response 1 "search" 60 (frozen (1 # 2))
           (mkRequest (fun _ => None) (Some (mkAddress "10.0.0.7" 51234)))
           (put "10.0.0.7" "search" [0%Q] init) "10.0.0.7").
  - reflexivity.
  - apply lock_free_put_same.
  - vm_compute. reflexivity.
  - by vm_compute.
  - by vm_compute.
  - by vm_compute.
Defined.

(** C4, the integer is not the rounded-up one: a client admitted at t = 0
    with a quota of 1 and a window of 60 and denied at t = 1/2 has 59.5
    seconds to wait; the headers and the body say 59, the rounded-up value
    is 60. *)
Lemma retry_after_rounds_down :
  let request := mkRequest (fun _ => None) (Some (mkAddress "10.0.0.7" 51234)) in
  exists rl reset_time s s',
    is_rate_limited 0 0 "10.0.0.7" "search" 1 60 init = Returns false rl /\
    is_rate_limited (1 # 2) (1 # 2) "10.0.0.7" "search" 1 60 rl =
      Returns true s /\
    get_reset_time (1 # 2) "10.0.0.7" "search" 60 s = Returns reset_time s' /\
    reset_time = (119 # 2)%Q /\
    Py.str (Py.ceil reset_time) = "60"%string /\
    rate_limit_dependency 1 "search" 60 (frozen (1 # 2)) request rl =
      Raised
        (HTTPException 429 "Rate limit exceeded. Try again in 59 seconds."
           [("X-RateLimit-Limit", "1"); ("X-RateLimit-Remaining", "0");
            ("X-RateLimit-Reset", "59"); ("Retry-After", "59")]%string)
        s' /\
    Limits.str_defined 1 = true /\
    Double.prune_exact (1 # 2) (log_of "10.0.0.7" "search" rl) = true /\
    Double.reset_exact (1 # 2) 60 (log_of "10.0.0.7" "search" s) = true.
Proof.
  exists (put "10.0.0.7" "search" [0%Q] init), (119 # 2)%Q,
    (put "10.0.0.7" "search" [0%Q] init),
    (put "10.0.0.7" "search" [0%Q] init).
  repeat split; vm_compute; reflexivity.
Qed.

(** ** Identity resolution *)

Lemma append_cons c (a b : string) :
  (String c a ++ b)%string = String c (a ++ b)%string.
Proof. done. Qed.

Lemma append_nil (b : string) : (EmptyString ++ b)%string = b.
Proof. done. Qed.

Lemma split_first s : Py.item0 (Py.split "," s) = Some (first_entry s).
Proof.
  induction s as [|c r IH]; simpl; [done|].
  destruct (Ascii.eqb c ","); [done|].
  destruct (Py.split "," r) as [|h t]; [done|].
  simpl in *. by inversion IH.
Qed.

Lemma first_entry_spec s :
  has_comma (first_entry s) = false /\
  (s = first_entry s \/
   exists rest, s = (first_entry s ++ String "," rest)%string).
Proof.
  induction s as [|c r [IHc IHs]]; simpl; [by split; [|left]|].
  destruct (Ascii.eqb c ",") eqn:Hc; simpl.
  - split; [done|]. right. exists r. apply Ascii.eqb_eq in Hc. by subst.
  - rewrite Hc. split; [done|].
    destruct IHs as [IHs|[rest IHs]].
    + left. by f_equal.
    + right. exists rest.
      change (String c r = String c (first_entry r ++ String "," rest)%string).
      by f_equal.
Qed.

Lemma lstrip_spec s :
  exists pre, s = (pre ++ Py.lstrip s)%string /\ all_space pre = true /\
              starts_with_space (Py.lstrip s) = false.
Proof.
  induction s as [|c r (pre & Hs & Hpre & Hst)]; simpl.
  - by exists EmptyString.
  - destruct (Py.isspace c) eqn:Hc.
    + exists (String c pre). rewrite append_cons, <- Hs. simpl.
      by rewrite Hc, Hpre.
    + exists EmptyString. rewrite append_nil. simpl. by rewrite Hc.
Qed.

Lemma rstrip_spec s :
  exists post, s = (Py.rstrip s ++ post)%string /\ all_space post = true /\
               ends_with_space (Py.rstrip s) = false.
Proof.
  induction s as [|c r (post & Hs & Hpost & Hend)]; simpl.
  - by exists EmptyString.
  - destruct (Py.rstrip r) as [|c' r'] eqn:Hr.
    + rewrite append_nil in Hs. subst r. destruct (Py.isspace c) eqn:Hc.
      * exists (String c post). rewrite append_nil. simpl.
        by rewrite Hc, Hpost.
      * exists post. rewrite append_cons, append_nil. simpl. by rewrite Hc.
    + exists post. rewrite append_cons, <- Hs. split; [done|].
      split; [done|]. exact Hend.
Qed.

Lemma rstrip_start s :
  starts_with_space s = false -> starts_with_space (Py.rstrip s) = false.
Proof.
  destruct s as [|c r]; simpl; [done|]. intros Hc.
  destruct (Py.rstrip r); simpl; by rewrite ?Hc.
Qed.

Lemma strip_spec s :
  exists pre post,
    s = (pre ++ Py.strip s ++ post)%string /\
    all_space pre = true /\ all_space post = true /\
    starts_with_space (Py.strip s) = false /\
    ends_with_space (Py.strip s) = false.
Proof.
  destruct (lstrip_spec s) as (pre & Hs & Hpre & Hst).
  destruct (rstrip_spec (Py.lstrip s)) as (post & Hl & Hpost & Hend).
  exists pre, post. unfold Py.strip. rewrite <- Hl.
  split; [done|]. split; [done|]. split; [done|].
  split; [by apply rstrip_start|done].
Qed.

Lemma get_user_id_total request :
  exists id, get_user_id request = Some id.
Proof.
  unfold get_user_id.
  destruct (headers_get request "X-Forwarded-For") as [[|c r]|];
    [by eexists| |by eexists].
  cbv beta iota zeta delta [Py.truthy mbind option_bind].
  rewrite split_first. by eexists.
Qed.

(** C8 (as amended).  [get_user_id] always yields a value.  A forwarding
    header that is present and not empty gives its first comma-separated
    entry with the surrounding whitespace removed; a header that is absent
    or empty gives the peer address when there is one and the sentinel
    "unknown" otherwise.  So the documented rule is followed whenever the
    header is not the empty string. *)
Theorem identity_resolution (request : Request) :
  (exists id, get_user_id request = Some id) /\
  (forall c r, headers_get request "X-Forwarded-For" = Some (String c r) ->
     let entry := first_entry (String c r) in
     get_user_id request = Some (Py.strip entry) /\
     has_comma entry = false /\
     (String c r = entry \/
      exists rest, String c r = (entry ++ String "," rest)%string) /\
     exists pre post,
       entry = (pre ++ Py.strip entry ++ post)%string /\
       all_space pre = true /\ all_space post = true /\
       starts_with_space (Py.strip entry) = false /\
       ends_with_space (Py.strip entry) = false) /\
  (Py.truthy (headers_get request "X-Forwarded-For") = false ->
     (forall a, client request = Some a ->
                get_user_id request = Some (host a)) /\
     (client request = None ->
      get_user_id request = Some "unknown"%string)) /\
  (headers_get request "X-Forwarded-For" <> Some EmptyString ->
   get_user_id request = Some (get_user_id_documented request)).
Proof.
  unfold get_user_id, get_user_id_documented.
  destruct (headers_get request "X-Forwarded-For") as [[|c r]|] eqn:Hh.
  - split; [by eexists|]. split; [done|]. split; [|done].
    intros _. split; [by intros a ->|by intros ->].
  - cbv beta iota zeta delta [Py.truthy mbind option_bind].
    rewrite split_first. split; [by eexists|]. split.
    + intros c' r' [= <- <-]. cbv zeta. split; [done|].
      destruct (first_entry_spec (String c r)) as [Hc Hs].
      split; [done|]. split; [done|]. apply strip_spec.
    + split; [done|]. done.
  - split; [by eexists|]. split; [done|]. split; [|done].
    intros _. split; [by intros a ->|by intros ->].
Qed.

Lemma identity_resolution_witness :
  let request :=
    mkRequest
      (fun name => if String.eqb name "X-Forwarded-For"
                   then Some " 203.0.113.5 , 10.0.0.1"%string else None)
      (Some (mkAddress "10.0.0.7" 51234)) in
  get_user_id request = Some "203.0.113.5"%string /\
  get_user_id request = Some (get_user_id_documented request).
Proof.
  intros request. split.
  - apply (proj1 (proj2 (identity_resolution request)) " "%char
             "203.0.113.5 , 10.0.0.1"%string). reflexivity.
  - apply (proj2 (proj2 (proj2 (identity_resolution request)))).
    discriminate.
Defined.

(** C8, a forwarding header that is present and empty is passed over:
    the documented rule gives the empty first entry, the code gives the
    peer address. *)
Lemma empty_forwarding_header_passed_over :
  let request :=
    mkRequest
      (fun name => if String.eqb name "X-Forwarded-For"
                   then Some EmptyString else None)
      (Some (mkAddress "10.0.0.7" 51234)) in
  headers_get request "X-Forwarded-For" = Some EmptyString /\
  get_user_id_documented request = EmptyString /\
  get_user_id request = Some "10.0.0.7"%string /\
  get_user_id request <> Some (get_user_id_documented request).
Proof. repeat split; vm_compute; congruence. Qed.

(** ** Configuration *)

Lemma rate_limit_dependency_outcome limit endpoint window clk request rl :
  (forall u, lock_free u rl) ->
  (exists a s,
      rate_limit_dependency limit endpoint window clk request rl =
      Returns a s) \/
  (exists detail hs s,
      rate_limit_dependency limit endpoint window clk request rl =
      Raised (HTTPException 429 detail hs) s /\
      is_rate_limited (t_limited_clean clk) (t_limited_append clk)
        (default EmptyString (get_user_id request)) endpoint limit window rl
      = Returns true s).
Proof.
  intros Hf. unfold rate_limit_dependency, bind.
  destruct (get_user_id_total request) as [u Hu]. rewrite Hu.
  change (ret u rl) with (Returns u rl). cbv beta iota. simpl default.
  rewrite is_rate_limited_eq by done. cbv zeta.
  destruct (limit <=? _).
  - right.
    rewrite get_reset_time_eq by apply lock_free_put_same.
    rewrite log_of_put, put_put. unfold raise. by eexists _, _, _.
  - left.
    rewrite get_remaining_requests_eq by apply lock_free_put_same.
    cbv zeta. cbv beta iota.
    rewrite get_reset_time_eq by apply lock_free_put_same.
    unfold ret. by eexists _, _.
Qed.

(** C9 (as amended).  No configuration is rejected: [create_rate_limiter]
    returns the dependency for every limit and window, positive or not,
    and [RateLimiter()] takes no configuration at all.  At request time,
    for a limit that [str] can print (at most 4300 digits) and a window
    and timestamps on which the sum and difference of [get_reset_time]
    are exact doubles, the dependency either returns or raises the
    status-429 exception of a denied request, and nothing else; with
    [limit <= 0] it denies every request. *)
Theorem configuration_not_checked (limit : Z) (endpoint : string)
    (window : Z) :
  create_rate_limiter limit endpoint window =
    inr (rate_limit_dependency limit endpoint window) /\
  (forall clk request rl u, (forall u', lock_free u' rl) ->
     get_user_id request = Some u ->
     Limits.str_defined limit = true ->
     Double.reset_exact (t_reset clk) window
       (log_of u endpoint rl ++ [t_limited_append clk]) = true ->
     (exists a s,
         rate_limit_dependency limit endpoint window clk request rl =
         Returns a s) \/
     (exists detail hs s,
         rate_limit_dependency limit endpoint window clk request rl =
         Raised (HTTPException 429 detail hs) s)) /\
  (limit <= 0 ->
   forall clk request rl u, (forall u', lock_free u' rl) ->
     get_user_id request = Some u ->
     Limits.str_defined limit = true ->
     Double.reset_exact (t_reset clk) window (log_of u endpoint rl) = true ->
     exists detail hs s,
       rate_limit_dependency limit endpoint window clk request rl =
       Raised (HTTPException 429 detail hs) s).
Proof.
  split; [done|]. split.
  - intros clk request rl u Hf _ _ _.
    destruct (rate_limit_dependency_outcome limit endpoint window clk
                request rl Hf) as [H|(d & hs & s & H & _)];
      [by left|right; by eexists _, _, _].
  - intros Hl clk request rl u Hf _ _ _.
    destruct (rate_limit_dependency_outcome limit endpoint window clk
                request rl Hf) as [(a & s & H)|(d & hs & s & H & _)];
      [|by eexists _, _, _].
    exfalso. revert H. unfold rate_limit_dependency, bind.
    destruct (get_user_id_total request) as [u0 Hu]. rewrite Hu.
    change (ret u0 rl) with (Returns u0 rl). cbv beta iota.
    rewrite is_rate_limited_nonpos by done.
    rewrite get_reset_time_eq by apply lock_free_put_same. done.
Qed.

Lemma configuration_not_checked_witness :
  let request := mkRequest (fun _ => None) None in
  exists detail hs s,
    rate_limit_dependency 0 "search" 0 (frozen 1) request init =
    Raised (HTTPException 429 detail hs) s.
Proof.
  apply (proj2 (proj2 (configuration_not_checked 0 "search" 0))
           (Z.le_refl 0) (frozen 1) (mkRequest (fun _ => None) None) init
           "unknown").
  - apply init_lock_free.
  - reflexivity.
  - by vm_compute.
  - by vm_compute.
Defined.

(** C9, a configuration with a quota and a window of 0 is not rejected
    when the dependency is built. *)
Lemma non_positive_configuration_accepted :
  ~ exists e, create_rate_limiter 0 "search" 0 = inl e.
Proof. intros [e He]. discriminate He. Qed.

(** ** Concurrent callers *)

Lemma count_insert (P : Conc.pc -> bool) l : forall i p p',
  l !! i = Some p ->
  (Conc.count P (<[i := p']> l) + Nat.b2n (P p) =
   Conc.count P l + Nat.b2n (P p'))%nat.
Proof.
  unfold Conc.count.
  induction l as [|q l IH]; intros i p p' Hi; [done|].
  destruct i as [|i]; simpl in *.
  - inversion Hi; subst. destruct (P p), (P p'); simpl; lia.
  - specialize (IH i p p' Hi). destruct (P q); simpl; lia.
Qed.

Lemma count_pos_lookup (P : Conc.pc -> bool) l :
  (0 < Conc.count P l)%nat -> exists i p, l !! i = Some p /\ P p = true.
Proof.
  unfold Conc.count. induction l as [|q l IH]; simpl; [lia|].
  destruct (P q) eqn:Hq.
  - intros _. by exists O, q.
  - intros H. destruct (IH H) as (i & p & Hi & Hp). by exists (S i), p.
Qed.

Lemma count_lookup_pos (P : Conc.pc -> bool) l i p :
  l !! i = Some p -> P p = true -> (0 < Conc.count P l)%nat.
Proof.
  unfold Conc.count. revert i.
  induction l as [|q l IH]; intros i Hi Hp; [done|].
  destruct i as [|i]; simpl in *.
  - inversion Hi; subst. rewrite Hp. simpl. lia.
  - specialize (IH i Hi Hp). destruct (P q); simpl; lia.
Qed.

(** At most one thread satisfies [P]: two of them are the same thread. *)
Lemma count_unique (P : Conc.pc -> bool) l : forall i j p q,
  (Conc.count P l <= 1)%nat ->
  l !! i = Some p -> P p = true ->
  l !! j = Some q -> i ≠ j -> P q = false.
Proof.
  unfold Conc.count.
  induction l as [|x l IH]; intros i j p q Hc Hi Hp Hj Hne; [done|].
  destruct i as [|i], j as [|j]; simpl in *; try done.
  - inversion Hi; subst. rewrite Hp in Hc. simpl in Hc.
    destruct (P q) eqn:Hq; [|done].
    pose proof (count_lookup_pos P l j q Hj Hq) as Hpos.
    unfold Conc.count in Hpos. lia.
  - inversion Hj; subst. destruct (P q) eqn:Hq; [|done]. simpl in Hc.
    pose proof (count_lookup_pos P l i p Hi Hp) as Hpos.
    unfold Conc.count in Hpos. lia.
  - apply (IH i j p q); try done; [|congruence].
    destruct (P x); simpl in Hc; lia.
Qed.

Lemma count_replicate (P : Conc.pc -> bool) n p :
  Conc.count P (replicate n p) = if P p then n else O.
Proof.
  unfold Conc.count. induction n as [|n IH]; simpl; [by destruct (P p)|].
  destruct (P p); simpl; [by rewrite IH|done].
Qed.

Lemma count_finished l :
  forallb Conc.is_done l = true ->
  (Conc.count Conc.is_admitted l + Conc.count Conc.is_denied l = length l)%nat.
Proof.
  unfold Conc.count. induction l as [|p l IH]; simpl; [done|].
  intros H. apply andb_true_iff in H as [Hp Hl]. specialize (IH Hl).
  destruct p as [| | | | | | | |b|[|]]; simpl in *; try done; lia.
Qed.

Lemma step_inv cfg now i s s' :
  Conc.step cfg now i s = Some s' ->
  exists p p' rl',
    Conc.threads s !! i = Some p /\
    Conc.step_pc cfg now p (Conc.shared s) = Some (p', rl') /\
    s' = Conc.mkState rl' (<[i := p']> (Conc.threads s)).
Proof.
  unfold Conc.step. intros H.
  destruct (Conc.threads s !! i) as [p|] eqn:Hi; [|done].
  destruct (Conc.step_pc cfg now p (Conc.shared s)) as [[p' rl']|] eqn:Hs;
    [|done].
  inversion H. by exists p, p', rl'.
Qed.

Lemma held_relock cfg rl b :
  Conc.held cfg
    (mkRateLimiter (requests rl) (<[Conc.user_id cfg := b]> (locks rl))) = b.
Proof.
  unfold Conc.held. simpl. rewrite lookup_insert_eq.
  destruct b; [by apply bool_decide_eq_true_2|by apply bool_decide_eq_false_2].
Qed.

Lemma held_upd cfg l rl :
  Conc.held cfg (upd (Conc.user_id cfg) (Conc.endpoint cfg) l (locks rl) rl) =
  Conc.held cfg rl.
Proof. done. Qed.

Lemma log_relock cfg rl lks :
  Conc.log cfg (mkRateLimiter (requests rl) lks) = Conc.log cfg rl.
Proof. done. Qed.

Lemma log_upd cfg l lks rl :
  Conc.log cfg (upd (Conc.user_id cfg) (Conc.endpoint cfg) l lks rl) = l.
Proof. apply log_of_upd. Qed.

Lemma held_free cfg rl : Conc.held cfg rl = false -> lock_free (Conc.user_id cfg) rl.
Proof.
  unfold Conc.held, lock_free. intros H.
  by apply bool_decide_eq_false in H.
Qed.

Lemma good_same_log cfg now rl rl' p :
  Conc.log cfg rl' = Conc.log cfg rl ->
  Conc.good cfg now rl p -> Conc.good cfg now rl' p.
Proof. intros Hl. destruct p; simpl; by rewrite ?Hl. Qed.

Lemma good_outside cfg now rl rl' p :
  Conc.in_crit p = false ->
  Conc.good cfg now rl p -> Conc.good cfg now rl' p.
Proof. by destruct p. Qed.

(** The threads stay good when thread [i] moves, provided the log is the
    same or thread [i] was the one inside a [with] block. *)
Lemma good_insert cfg now rl rl' l i p p' :
  l !! i = Some p ->
  Forall (Conc.good cfg now rl) l ->
  Conc.good cfg now rl' p' ->
  Conc.log cfg rl' = Conc.log cfg rl \/
  ((Conc.count Conc.in_crit l <= 1)%nat /\ Conc.in_crit p = true) ->
  Forall (Conc.good cfg now rl') (<[i := p']> l).
Proof.
  intros Hi Hall Hp' Hside. apply Forall_lookup. intros j q Hj.
  destruct (decide (i = j)) as [->|Hne].
  - rewrite list_lookup_insert_eq in Hj by (by eapply lookup_lt_Some).
    by inversion Hj; subst.
  - rewrite list_lookup_insert_ne in Hj by done.
    pose proof (proj1 (Forall_lookup _ _) Hall j q Hj) as Hq.
    destruct Hside as [Hlog|[Hc Hp]].
    + by eapply good_same_log.
    + eapply good_outside; [|exact Hq].
      by eapply (count_unique Conc.in_crit l i j p q).
Qed.

Lemma held_true cfg rl :
  Conc.held cfg rl = true -> locks rl !! Conc.user_id cfg = Some true.
Proof. unfold Conc.held. intros H. by apply bool_decide_eq_true in H. Qed.

Lemma exec_acquire cfg rl (k : unit -> Conc.pc) p' rl' :
  Conc.exec (acquire (Conc.user_id cfg)) k rl = Some (p', rl') ->
  Conc.held cfg rl = false /\ p' = k tt /\
  rl' = mkRateLimiter (requests rl) (<[Conc.user_id cfg := true]> (locks rl)).
Proof.
  unfold Conc.exec. destruct (Conc.held cfg rl) eqn:Hh.
  - by rewrite (acquire_held _ _ (held_true _ _ Hh)).
  - rewrite (acquire_free _ _ (held_free _ _ Hh)). by intros [= <- <-].
Qed.

Lemma exec_release cfg rl (k : unit -> Conc.pc) p' rl' :
  Conc.exec (release (Conc.user_id cfg)) k rl = Some (p', rl') ->
  p' = k tt /\
  rl' = mkRateLimiter (requests rl) (<[Conc.user_id cfg := false]> (locks rl)).
Proof. unfold Conc.exec, release. by intros [= <- <-]. Qed.

Lemma exec_get_log cfg rl (k : list Q -> Conc.pc) p' rl' :
  Conc.exec (get_log (Conc.user_id cfg) (Conc.endpoint cfg)) k rl =
    Some (p', rl') ->
  p' = k (Conc.log cfg rl) /\
  rl' = upd (Conc.user_id cfg) (Conc.endpoint cfg) (Conc.log cfg rl)
          (locks rl) rl.
Proof. unfold Conc.exec. rewrite get_log_eq. by intros [= <- <-]. Qed.

Lemma exec_set_log cfg l rl (k : unit -> Conc.pc) p' rl' :
  Conc.exec (set_log (Conc.user_id cfg) (Conc.endpoint cfg) l) k rl =
    Some (p', rl') ->
  p' = k tt /\
  rl' = upd (Conc.user_id cfg) (Conc.endpoint cfg) l (locks rl) rl.
Proof. unfold Conc.exec. rewrite set_log_eq. by intros [= <- <-]. Qed.

Lemma exec_append_log cfg x rl (k : unit -> Conc.pc) p' rl' :
  Conc.exec (append_log (Conc.user_id cfg) (Conc.endpoint cfg) x) k rl =
    Some (p', rl') ->
  p' = k tt /\
  rl' = upd (Conc.user_id cfg) (Conc.endpoint cfg) (Conc.log cfg rl ++ [x])
          (locks rl) rl.
Proof. unfold Conc.exec. rewrite append_log_eq. by intros [= <- <-]. Qed.

(** A step that leaves the log and the counts of admitted, denied and
    cleaned threads as they are. *)
Lemma invariant_quiet cfg now rl rl' ts ts' :
  Conc.invariant cfg now (Conc.mkState rl ts) ->
  Conc.log cfg rl' = Conc.log cfg rl ->
  Conc.count Conc.is_admitted ts' = Conc.count Conc.is_admitted ts ->
  Conc.count Conc.is_denied ts' = Conc.count Conc.is_denied ts ->
  Conc.count Conc.cleaned ts' = Conc.count Conc.cleaned ts ->
  Conc.count Conc.in_crit ts' =
    (if Conc.held cfg rl' then 1%nat else 0%nat) ->
  Forall (Conc.good cfg now rl') ts' ->
  Conc.invariant cfg now (Conc.mkState rl' ts').
Proof.
  intros [Hmx Hact Hpr Hgood Hden Hq] Hlog Ha Hd Hc Hmx' Hgood'.
  unfold Conc.admitted_count, Conc.denied_count in *. simpl in *.
  constructor; unfold Conc.admitted_count, Conc.denied_count; simpl;
    rewrite ?Hlog, ?Ha, ?Hd, ?Hc; done.
Qed.

Ltac good_step H :=
  eapply good_insert; eauto;
  first [ done
        | left; by rewrite ?log_upd
        | simpl; by rewrite ?log_upd, ?H ].

Lemma step_preserves cfg now i s s' :
  0 < Conc.window cfg ->
  Conc.invariant cfg now s ->
  Conc.step cfg now i s = Some s' ->
  Conc.invariant cfg now s'.
Proof.
  intros Hw Hinv Hstep.
  destruct (step_inv _ _ _ _ _ Hstep) as (p & p' & rl' & Hi & Hpc & ->).
  destruct s as [rl ts]. simpl in Hi, Hpc. clear Hstep.
  pose proof (count_insert Conc.in_crit ts i p p' Hi) as Ccrit.
  pose proof (count_insert Conc.is_admitted ts i p p' Hi) as Cadm.
  pose proof (count_insert Conc.is_denied ts i p p' Hi) as Cden.
  pose proof (count_insert Conc.cleaned ts i p p' Hi) as Ccl.
  pose proof (count_lookup_pos Conc.in_crit ts i p Hi) as Hcrit_pos.
  pose proof (count_lookup_pos Conc.cleaned ts i p Hi) as Hcl_pos.
  pose proof Hinv as [Hmx Hact Hpr Hgood Hden Hq].
  pose proof (proj1 (Forall_lookup _ _) Hgood i p Hi) as Hgp.
  unfold Conc.admitted_count, Conc.denied_count in *. simpl in *.
  destruct p; simpl in Hpc.
  - (* now = time.time() *)
    injection Hpc as <- <-. simpl in *.
    apply (invariant_quiet cfg now rl rl ts); try done; try lia.
    good_step Hgp.
  - (* the lock of _clean_old_requests is taken *)
    apply exec_acquire in Hpc as (Hh & -> & ->). simpl in *.
    rewrite Hh in Hmx.
    apply (invariant_quiet cfg now rl _ ts); try done; try lia.
    + rewrite held_relock. lia.
    + good_step Hgp.
  - (* the comprehension is evaluated *)
    apply exec_get_log in Hpc as (-> & ->). simpl in *.
    apply (invariant_quiet cfg now rl _ ts); try done; try lia.
    + by rewrite log_upd.
    + rewrite held_upd. lia.
    + good_step Hgp.
  - (* the pruned list is assigned *)
    apply exec_set_log in Hpc as (-> & ->). simpl in *.
    specialize (Hcrit_pos eq_refl).
    assert (Hone : (Conc.count Conc.in_crit ts <= 1)%nat)
      by (rewrite Hmx; destruct (Conc.held cfg rl); lia).
    assert (Ha : Conc.count Conc.is_admitted (<[i:=Conc.CleanRelease]> ts) =
                 Conc.count Conc.is_admitted ts) by lia.
    constructor; unfold Conc.admitted_count, Conc.denied_count; simpl;
      rewrite ?held_upd, ?log_upd, ?Ha.
    + lia.
    + rewrite Hgp, filter_twice. done.
    + intros _. by rewrite Hgp.
    + good_step Hgp.
    + intros H. apply Hden. lia.
    + done.
  - (* the lock of _clean_old_requests is released *)
    apply exec_release in Hpc as (-> & ->). simpl in *.
    specialize (Hcrit_pos eq_refl).
    assert (Hh : Conc.held cfg rl = true)
      by (destruct (Conc.held cfg rl); [done|lia]).
    rewrite Hh in Hmx.
    apply (invariant_quiet cfg now rl _ ts); try done; try lia.
    + rewrite held_relock. lia.
    + good_step Hgp.
  - (* the lock of the check is taken *)
    apply exec_acquire in Hpc as (Hh & -> & ->). simpl in *.
    rewrite Hh in Hmx.
    apply (invariant_quiet cfg now rl _ ts); try done; try lia.
    + rewrite held_relock. lia.
    + good_step Hgp.
  - (* the length is compared with max_requests *)
    apply exec_get_log in Hpc as (-> & ->).
    specialize (Hcl_pos eq_refl). specialize (Hpr Hcl_pos).
    destruct (Conc.max_requests cfg <=? Py.len (Conc.log cfg rl)) eqn:Hc;
      simpl in *.
    + apply Z.leb_le in Hc. rewrite Hpr, len_replicate in Hc.
      assert (Ha : Conc.count Conc.is_admitted (<[i:=Conc.Release true]> ts) =
                   Conc.count Conc.is_admitted ts) by lia.
      constructor; unfold Conc.admitted_count, Conc.denied_count; simpl;
        rewrite ?held_upd, ?log_upd, ?Ha.
      * lia.
      * done.
      * done.
      * good_step Hgp.
      * done.
      * done.
    + apply Z.leb_gt in Hc.
      apply (invariant_quiet cfg now rl _ ts); try done; try lia.
      * by rewrite log_upd.
      * rewrite held_upd. lia.
      * eapply good_insert; eauto;
          [simpl; by rewrite log_upd|left; by rewrite log_upd].
  - (* the timestamp is appended *)
    apply exec_append_log in Hpc as (-> & ->). simpl in *.
    specialize (Hcrit_pos eq_refl).
    specialize (Hcl_pos eq_refl). specialize (Hpr Hcl_pos).
    assert (Hone : (Conc.count Conc.in_crit ts <= 1)%nat)
      by (rewrite Hmx; destruct (Conc.held cfg rl); lia).
    assert (Ha : Conc.count Conc.is_admitted (<[i:=Conc.Release false]> ts) =
                 S (Conc.count Conc.is_admitted ts)) by lia.
    rewrite Hpr, len_replicate in Hgp.
    constructor; unfold Conc.admitted_count, Conc.denied_count; simpl;
      rewrite ?held_upd, ?log_upd, ?Ha, ?Hpr, <- ?replicate_S_end.
    + lia.
    + by apply filter_replicate_now.
    + done.
    + good_step Hgp.
    + intros H. lia.
    + lia.
  - (* the lock of the check is released *)
    apply exec_release in Hpc as (-> & ->). simpl in *.
    specialize (Hcrit_pos eq_refl).
    assert (Hh : Conc.held cfg rl = true)
      by (destruct (Conc.held cfg rl); [done|lia]).
    rewrite Hh in Hmx.
    apply (invariant_quiet cfg now rl _ ts); try done;
      try (destruct b; simpl in *; lia).
    + rewrite held_relock. lia.
    + good_step Hgp.
  - (* a thread that has returned does not step *)
    done.
Qed.

Lemma total_rank_insert l : forall i p p',
  l !! i = Some p ->
  (Conc.total_rank (<[i := p']> l) + Conc.rank p =
   Conc.total_rank l + Conc.rank p')%nat.
Proof.
  induction l as [|q l IH]; intros i p p' Hi; [done|].
  destruct i as [|i]; simpl in *.
  - inversion Hi; subst. lia.
  - specialize (IH i p p' Hi). lia.
Qed.

Lemma total_rank_bound l : (Conc.total_rank l <= 9 * length l)%nat.
Proof.
  induction l as [|p l IH]; simpl; [lia|].
  assert (Conc.rank p <= 9)%nat by (destruct p; simpl; lia). lia.
Qed.

Lemma step_pc_rank cfg now p rl p' rl' :
  Conc.step_pc cfg now p rl = Some (p', rl') ->
  (Conc.rank p < Conc.rank p')%nat.
Proof.
  destruct p; simpl; unfold Conc.exec; intros H.
  - injection H as <- _. simpl. lia.
  - destruct (acquire _ rl); inversion H. simpl. lia.
  - destruct (get_log _ _ rl); inversion H. simpl. lia.
  - destruct (set_log _ _ _ rl); inversion H. simpl. lia.
  - destruct (release _ rl); inversion H. simpl. lia.
  - destruct (acquire _ rl); inversion H. simpl. lia.
  - destruct (get_log _ _ rl); inversion H.
    destruct (_ <=? _); simpl; lia.
  - destruct (append_log _ _ _ rl); inversion H. simpl. lia.
  - destruct (release _ rl); inversion H. simpl. lia.
  - done.
Qed.

Lemma run_preserves cfg now sched : forall s s',
  0 < Conc.window cfg ->
  Conc.invariant cfg now s ->
  Conc.run cfg now sched s = Some s' ->
  Conc.invariant cfg now s' /\
  length (Conc.threads s') = length (Conc.threads s) /\
  (length sched + Conc.total_rank (Conc.threads s) <=
   Conc.total_rank (Conc.threads s'))%nat.
Proof.
  induction sched as [|i sched IH]; intros s s' Hw Hinv Hrun; simpl in Hrun.
  - injection Hrun as <-. split; [done|]. split; [done|]. simpl. lia.
  - destruct (Conc.step cfg now i s) as [s1|] eqn:Hstep; [|done].
    destruct (IH s1 s' Hw (step_preserves _ _ _ _ _ Hw Hinv Hstep) Hrun)
      as (Hinv' & Hlen & Hrank).
    destruct (step_inv _ _ _ _ _ Hstep) as (p & p' & rl' & Hi & Hpc & ->).
    simpl in *. rewrite length_insert in Hlen.
    split; [done|]. split; [done|].
    pose proof (total_rank_insert (Conc.threads s) i p p' Hi) as Hins.
    pose proof (step_pc_rank _ _ _ _ _ _ Hpc) as Hup. lia.
Qed.

Lemma invariant_start cfg now rl n :
  0 <= Conc.max_requests cfg ->
  lock_free (Conc.user_id cfg) rl ->
  active_log now (Conc.window cfg) (Conc.user_id cfg) (Conc.endpoint cfg) rl
    = [] ->
  Conc.invariant cfg now (Conc.start rl n).
Proof.
  intros Hm Hf Hfresh. unfold Conc.start.
  constructor; unfold Conc.admitted_count, Conc.denied_count; simpl;
    rewrite ?count_replicate; simpl.
  - unfold Conc.held. by rewrite bool_decide_eq_false_2.
  - exact Hfresh.
  - lia.
  - by apply Forall_replicate.
  - lia.
  - done.
Qed.

Lemma forallb_false_lookup (P : Conc.pc -> bool) l :
  forallb P l = false -> exists i p, l !! i = Some p /\ P p = false.
Proof.
  induction l as [|q l IH]; simpl; [done|].
  destruct (P q) eqn:Hq; simpl.
  - intros H. destruct (IH H) as (i & p & Hi & Hp). by exists (S i), p.
  - intros _. by exists O, q.
Qed.

(** A state in which some thread has not returned has a thread that can
    step: the holder of the lock if it is held, any thread otherwise. *)
Lemma progress cfg now s :
  Conc.invariant cfg now s ->
  Conc.finished s = false ->
  exists i s', Conc.step cfg now i s = Some s'.
Proof.
  intros Hinv Hfin. destruct s as [rl ts].
  pose proof (Conc.inv_mutex _ _ _ Hinv) as Hmx. simpl in *.
  unfold Conc.finished in Hfin. simpl in Hfin.
  assert (Hcan : exists i p, ts !! i = Some p /\
                   Conc.is_done p = false /\
                   (Conc.held cfg rl = true -> Conc.in_crit p = true)).
  { destruct (Conc.held cfg rl) eqn:Hh.
    - destruct (count_pos_lookup Conc.in_crit ts) as (i & p & Hi & Hp);
        [lia|].
      exists i, p. split; [done|]. split; [by destruct p|done].
    - destruct (forallb_false_lookup _ _ Hfin) as (i & p & Hi & Hp).
      by exists i, p. }
  destruct Hcan as (i & p & Hi & Hnd & Hcrit).
  exists i. unfold Conc.step. simpl. rewrite Hi.
  assert (Hstep : exists r, Conc.step_pc cfg now p rl = Some r).
  { destruct p; try done; simpl; unfold Conc.exec;
      rewrite ?get_log_eq, ?set_log_eq, ?append_log_eq;
      try (eexists; reflexivity).
    - destruct (Conc.held cfg rl) eqn:Hh; [by specialize (Hcrit eq_refl)|].
      rewrite (acquire_free _ _ (held_free _ _ Hh)). by eexists.
    - destruct (Conc.held cfg rl) eqn:Hh; [by specialize (Hcrit eq_refl)|].
      rewrite (acquire_free _ _ (held_free _ _ Hh)). by eexists. }
  destruct Hstep as [[p' rl'] ->]. by eexists.
Qed.

Lemma step_rank cfg now i s s' :
  Conc.step cfg now i s = Some s' ->
  length (Conc.threads s') = length (Conc.threads s) /\
  (Conc.total_rank (Conc.threads s) < Conc.total_rank (Conc.threads s'))%nat.
Proof.
  intros Hstep.
  destruct (step_inv _ _ _ _ _ Hstep) as (p & p' & rl' & Hi & Hpc & ->).
  simpl. rewrite length_insert. split; [done|].
  pose proof (total_rank_insert (Conc.threads s) i p p' Hi).
  pose proof (step_pc_rank _ _ _ _ _ _ Hpc). lia.
Qed.

(** Every state of a run can be run on until all threads have returned. *)
Lemma run_to_completion cfg now :
  0 < Conc.window cfg ->
  forall n s,
    (9 * length (Conc.threads s) - Conc.total_rank (Conc.threads s) <= n)%nat ->
    Conc.invariant cfg now s ->
    exists sched s',
      Conc.run cfg now sched s = Some s' /\ Conc.finished s' = true.
Proof.
  intros Hw. induction n as [|n IH]; intros s Hn Hinv;
    (destruct (Conc.finished s) eqn:Hfin; [by exists [], s|]);
    destruct (progress cfg now s Hinv Hfin) as (i & s1 & Hstep);
    destruct (step_rank _ _ _ _ _ Hstep) as [Hlen Hrank];
    pose proof (total_rank_bound (Conc.threads s1)) as Hb.
  - lia.
  - destruct (IH s1) as (sched & s' & Hrun & Hdone).
    + lia.
    + by eapply step_preserves.
    + exists (i :: sched), s'. simpl. by rewrite Hstep.
Qed.

Lemma count_cleaned_finished l :
  forallb Conc.is_done l = true -> Conc.count Conc.cleaned l = length l.
Proof.
  unfold Conc.count. induction l as [|p l IH]; simpl; [done|].
  intros H. apply andb_true_iff in H as [Hp Hl].
  destruct p; simpl in *; try done. by rewrite IH.
Qed.

(** C2 (as amended).  [m + k] threads, [k > 0], call [is_rate_limited] for
    one key with quota [m] and a positive window, every clock reading being
    [now], on a log with no active entry.  Whatever the interleaving
    [sched] of their steps: at most one thread is inside a [with] block;
    the active log is [now] once per admitted thread and never longer than
    [m]; the run has at most nine steps per thread; as long as a thread has
    not returned some thread can step; and once all have returned, exactly
    [m] were admitted and [k] denied.  The comparison and the append of a
    thread are in one [with] block; its pruning is in an earlier one. *)
Theorem concurrent_burst (cfg : Conc.config) (now : Q) (k : nat)
    (rl : RateLimiter) (sched : list nat) (s' : Conc.state) :
  0 <= Conc.max_requests cfg ->
  0 < Conc.window cfg ->
  (0 < k)%nat ->
  lock_free (Conc.user_id cfg) rl ->
  active_log now (Conc.window cfg) (Conc.user_id cfg) (Conc.endpoint cfg) rl
    = [] ->
  Conc.run cfg now sched
    (Conc.start rl (Z.to_nat (Conc.max_requests cfg) + k)) = Some s' ->
  (Conc.count Conc.in_crit (Conc.threads s') <= 1)%nat /\
  active_log now (Conc.window cfg) (Conc.user_id cfg) (Conc.endpoint cfg)
    (Conc.shared s') = replicate (Conc.admitted_count s') now /\
  Z.of_nat (Conc.admitted_count s') <= Conc.max_requests cfg /\
  (length sched <= 9 * (Z.to_nat (Conc.max_requests cfg) + k))%nat /\
  (Conc.finished s' = false ->
   exists i s'', Conc.step cfg now i s' = Some s'') /\
  (exists rest s'',
     Conc.run cfg now rest s' = Some s'' /\ Conc.finished s'' = true) /\
  (Conc.finished s' = true ->
   Conc.admitted_count s' = Z.to_nat (Conc.max_requests cfg) /\
   Conc.denied_count s' = k /\
   log_of (Conc.user_id cfg) (Conc.endpoint cfg) (Conc.shared s') =
     replicate (Z.to_nat (Conc.max_requests cfg)) now).
Proof.
  intros Hm Hw Hk Hf Hfresh Hrun.
  set (n := (Z.to_nat (Conc.max_requests cfg) + k)%nat) in *.
  assert (Hinv0 : Conc.invariant cfg now (Conc.start rl n))
    by (by apply invariant_start).
  destruct (run_preserves cfg now sched _ _ Hw Hinv0 Hrun)
    as (Hinv & Hlen & Hrank).
  pose proof Hinv as [Hmx Hact Hpr Hgood Hden Hq].
  unfold Conc.start in Hlen, Hrank. simpl in Hlen, Hrank.
  rewrite length_replicate in Hlen.
  split; [rewrite Hmx; destruct (Conc.held cfg _); lia|].
  split; [exact Hact|]. split; [exact Hq|]. split.
  { pose proof (total_rank_bound (Conc.threads s')). lia. }
  split; [by apply progress|].
  split; [by eapply run_to_completion|].
  intros Hfin. unfold Conc.finished in Hfin.
  pose proof (count_finished _ Hfin) as Hsum.
  pose proof (count_cleaned_finished _ Hfin) as Hcl.
  unfold Conc.admitted_count, Conc.denied_count in *.
  assert (Ha : Conc.count Conc.is_admitted (Conc.threads s') =
               Z.to_nat (Conc.max_requests cfg)).
  { destruct (decide (0 < Conc.count Conc.is_denied (Conc.threads s'))%nat)
      as [Hd|Hd]; [specialize (Hden Hd)|]; lia. }
  split; [done|]. split; [lia|].
  rewrite <- Ha. apply Hpr. lia.
Qed.

Lemma concurrent_burst_witness :
  let cfg := Conc.mkConfig "10.0.0.7" "search" 1 60 in
  let sched := [0; 1; 0; 0; 0; 0; 1; 1; 1; 1; 1; 1; 1; 1; 0; 0; 0]%nat in
  let s' := Conc.mkState (put "10.0.0.7" "search" [5%Q] init)
              [Conc.Done true; Conc.Done false] in
  (Conc.count Conc.in_crit (Conc.threads s') <= 1)%nat /\
  active_log 5 (Conc.window cfg) (Conc.user_id cfg) (Conc.endpoint cfg)
    (Conc.shared s') = replicate (Conc.admitted_count s') 5%Q /\
  Z.of_nat (Conc.admitted_count s') <= Conc.max_requests cfg /\
  (length sched <= 9 * (Z.to_nat (Conc.max_requests cfg) + 1))%nat /\
  (Conc.finished s' = false ->
   exists i s'', Conc.step cfg 5 i s' = Some s'') /\
  (exists rest s'',
      Conc.run cfg 5 rest s' = Some s'' /\ Conc.finished s'' = true) /\
  (Conc.finished s' = true ->
   Conc.admitted_count s' = Z.to_nat (Conc.max_requests cfg) /\
   Conc.denied_count s' = 1%nat /\
   log_of (Conc.user_id cfg) (Conc.endpoint cfg) (Conc.shared s') =
     replicate (Z.to_nat (Conc.max_requests cfg)) 5%Q).
Proof.
  apply (concurrent_burst (Conc.mkConfig "10.0.0.7" "search" 1 60) 5 1 init
           [0; 1; 0; 0; 0; 0; 1; 1; 1; 1; 1; 1; 1; 1; 0; 0; 0]%nat).
  - simpl. lia.
  - simpl. lia.
  - lia.
  - apply init_lock_free.
  - reflexivity.
  - vm_compute. reflexivity.
Defined.

(** C2, the pruning of a thread and its comparison are not one block:
    with a quota of 1, thread 0 prunes the log to the empty list and
    releases the lock; thread 1 then takes its whole check and append;
    thread 0, which is still before its comparison, finds the log changed
    and is denied. *)
Lemma prune_and_check_in_two_blocks :
  let cfg := Conc.mkConfig "10.0.0.7" "search" 1 60 in
  exists s1 s2 s3,
    Conc.run cfg 5 [0; 1; 0; 0; 0; 0]%nat (Conc.start init 2) = Some s1 /\
    Conc.threads s1 = [Conc.CheckAcquire; Conc.CleanAcquire 5] /\
    Conc.log cfg (Conc.shared s1) = [] /\
    Conc.run cfg 5 [1; 1; 1; 1; 1; 1; 1; 1]%nat s1 = Some s2 /\
    Conc.threads s2 = [Conc.CheckAcquire; Conc.Done false] /\
    Conc.log cfg (Conc.shared s2) = [5%Q] /\
    Conc.run cfg 5 [0; 0; 0]%nat s2 = Some s3 /\
    Conc.threads s3 = [Conc.Done true; Conc.Done false].
Proof.
  eexists _, _, _.
  split; [vm_compute; reflexivity|]. split; [reflexivity|].
  split; [vm_compute; reflexivity|].
  split; [vm_compute; reflexivity|]. split; [reflexivity|].
  split; [vm_compute; reflexivity|].
  split; [vm_compute; reflexivity|]. reflexivity.
Qed.

(** * Further properties *)

(** ** The sliding window over a run of calls *)

Lemma filter_weaken {A} (f g : A -> bool) (l : list A) :
  Forall (fun x => f x = true -> g x = true) l ->
  List.filter f (List.filter g l) = List.filter f l.
Proof.
  induction 1 as [|x l Hx _ IH]; simpl; [done|].
  destruct (g x) eqn:Hg; simpl.
  - by rewrite IH.
  - destruct (f x) eqn:Hf; [by specialize (Hx eq_refl)|done].
Qed.

Lemma filter_length_le {A} (f : A -> bool) (l : list A) :
  (length (List.filter f l) <= length l)%nat.
Proof. induction l as [|x l IH]; simpl; [done|]. destruct (f x); simpl; lia. Qed.

(** An entry counted at a later time was counted at every earlier time
    not before it. *)
Lemma active_earlier t t' w x :
  (t' <= t)%Q -> active t w x = true -> active t' w x = true.
Proof.
  intros Ht H. apply active_iff in H. apply active_iff.
  eapply Qle_lt_trans; [|exact H].
  apply Qplus_le_l. exact Ht.
Qed.

Lemma filter_sorted f (l : list Q) :
  StronglySorted Qle l -> StronglySorted Qle (List.filter f l).
Proof.
  induction 1 as [|x l Hs IH Hx]; simpl; [constructor|].
  destruct (f x); [|done]. constructor; [done|].
  apply Forall_forall. intros y Hy.
  apply list_elem_of_In, filter_In in Hy as [Hy _].
  by apply (proj1 (Forall_forall _ _) Hx), list_elem_of_In.
Qed.

Lemma sorted_snoc (l : list Q) x :
  StronglySorted Qle l -> Forall (fun y => (y <= x)%Q) l ->
  StronglySorted Qle (l ++ [x]).
Proof.
  induction 1 as [|y l Hs IH Hy]; intros Hall; simpl.
  - repeat constructor.
  - apply Forall_cons in Hall as [Hyx Hall]. constructor; [by apply IH|].
    apply Forall_app. split; [done|]. by constructor.
Qed.

Lemma min_from_sorted x r :
  StronglySorted Qle (x :: r) -> Py.min_from x r = x.
Proof.
  revert x. induction r as [|y r IH]; intros x Hs; simpl; [done|].
  apply StronglySorted_inv in Hs as [Hs Hx].
  apply Forall_cons in Hx as [Hxy Hx].
  assert (Hlt : Py.lt y x = false).
  { destruct (Py.lt y x) eqn:H; [|done]. apply lt_iff in H.
    exfalso. by apply (Qlt_not_le y x). }
  rewrite Hlt. apply IH.
  apply StronglySorted_inv in Hs as [Hs _]. by constructor.
Qed.

Lemma last_cons {A} (l : list A) : forall x d,
  List.last (x :: l) d = List.last l x.
Proof.
  induction l as [|y l IH]; intros x d; [done|].
  change (List.last (x :: y :: l) d) with (List.last (y :: l) d).
  by rewrite !IH.
Qed.

(** An entry recorded at or after [t] counts at [t]. *)
Lemma active_later t w x :
  0 < w -> (t <= x)%Q -> active t w x = true.
Proof.
  intros Hw Hx. apply active_iff.
  apply Qle_lt_trans with (y := 0%Q).
  - apply (Qplus_le_l _ _ x). ring_simplify. exact Hx.
  - change 0%Q with (inject_Z 0). by rewrite <- Zlt_Qlt.
Qed.

(** The state of a key during a run whose clock does not go back: the
    stored log is the recorded timestamps [adm] that count at the time
    [tc] at which the last call pruned; [t0] is the last clock reading. *)
Lemma run_calls_window u e m w cs : forall rl adm tc t0,
  0 < w ->
  lock_free u rl ->
  log_of u e rl = List.filter (active tc w) adm ->
  StronglySorted Qle adm ->
  Forall (fun x => (x <= t0)%Q) adm ->
  (tc <= t0)%Q ->
  Z.of_nat (length (log_of u e rl)) <= Z.max m 0 ->
  Forall (one_key u e m w) cs ->
  StronglySorted Qle (t0 :: reads cs) ->
  exists bs rl',
    run_calls cs rl = Returns bs rl' /\
    length bs = length cs /\
    lock_free u rl' /\
    log_of u e rl' =
      List.filter (active (List.last (map c_clean cs) tc) w)
        (adm ++ admitted_times cs bs) /\
    StronglySorted Qle (adm ++ admitted_times cs bs) /\
    Z.of_nat (length (log_of u e rl')) <= Z.max m 0.
Proof.
  induction cs as [|c cs IH];
    intros rl adm tc t0 Hw Hf Hlog Hadm Hle Htc Hlen Hcs Hts.
  - exists [], rl. simpl. unfold admitted_times. simpl. rewrite app_nil_r.
    by repeat split.
  - apply Forall_cons in Hcs as [(Hu & He & Hm & Hwc) Hcs].
    change (reads (c :: cs)) with (c_clean c :: c_append c :: reads cs)
      in Hts.
    apply StronglySorted_inv in Hts as [Hts Ht0].
    apply Forall_cons in Ht0 as [Ht0 _].
    pose proof Hts as Hts'.
    apply StronglySorted_inv in Hts' as [Hta Ht].
    apply Forall_cons in Ht as [Ht _].
    set (t := c_clean c) in *. set (ta := c_append c) in *.
    simpl. unfold bind at 1, do_call. rewrite Hu, He, Hm, Hwc.
    fold t ta.
    rewrite is_rate_limited_eq by done. cbv zeta.
    assert (Htct : (tc <= t)%Q) by exact (Qle_trans _ _ _ Htc Ht0).
    assert (Hact : active_log t w u e rl = List.filter (active t w) adm).
    { unfold active_log. rewrite Hlog. apply filter_weaken.
      apply Forall_forall. intros x _. by apply active_earlier. }
    assert (Hle' : Forall (fun x => (x <= ta)%Q) adm).
    { eapply Forall_impl; [exact Hle|]. intros x Hx.
      exact (Qle_trans _ _ _ Hx (Qle_trans _ _ _ Ht0 Ht)). }
    assert (Hshrink : (length (active_log t w u e rl)
                       <= length (log_of u e rl))%nat)
      by apply filter_length_le.
    rewrite Hact in *.
    destruct (m <=? Py.len (List.filter (active t w) adm)) eqn:Hc.
    + destruct (IH (put u e (List.filter (active t w) adm) rl) adm t ta)
        as (bs & rl' & Hrun & Hbl & Hf' & Hlog' & Hs' & Hlen');
        try done.
      * apply lock_free_put_same.
      * by rewrite log_of_put.
      * rewrite log_of_put. lia.
      * exists (true :: bs), rl'. unfold bind, ret. rewrite Hrun.
        split; [done|]. split; [simpl; lia|]. split; [done|].
        change (match map c_clean cs with
                | [] => t
                | _ :: _ => List.last (map c_clean cs) tc
                end) with (List.last (t :: map c_clean cs) tc).
        rewrite last_cons.
        change (admitted_times (c :: cs) (true :: bs))
          with (admitted_times cs bs).
        done.
    + apply Z.leb_gt in Hc. unfold Py.len in Hc.
      destruct (IH (put u e (List.filter (active t w) adm ++ [ta]) rl)
                  (adm ++ [ta]) t ta)
        as (bs & rl' & Hrun & Hbl & Hf' & Hlog' & Hs' & Hlen');
        try done.
      * apply lock_free_put_same.
      * rewrite log_of_put, List.filter_app. simpl.
        by rewrite (active_later t w ta Hw Ht).
      * by apply sorted_snoc.
      * apply Forall_app. split; [done|]. constructor; [apply Qle_refl|done].
      * rewrite log_of_put, length_app. simpl. lia.
      * exists (false :: bs), rl'. unfold bind, ret. rewrite Hrun.
        split; [done|]. split; [simpl; lia|]. split; [done|].
        change (match map c_clean cs with
                | [] => t
                | _ :: _ => List.last (map c_clean cs) tc
                end) with (List.last (t :: map c_clean cs) tc).
        rewrite last_cons.
        change (admitted_times (c :: cs) (false :: bs))
          with (ta :: admitted_times cs bs).
        rewrite <- app_assoc in Hlog', Hs'. done.
Qed.

Lemma sorted_take (l : list Q) k :
  StronglySorted Qle l -> StronglySorted Qle (take k l).
Proof.
  intros Hs. rewrite <- (take_drop k l) in Hs.
  by apply StronglySorted_app_1_l in Hs.
Qed.

Lemma reads_take cs k :
  StronglySorted Qle (reads cs) -> StronglySorted Qle (reads (take k cs)).
Proof.
  intros Hs. rewrite <- (take_drop k cs) in Hs.
  unfold reads in Hs. rewrite flat_map_app in Hs.
  by apply StronglySorted_app_1_l in Hs.
Qed.

Lemma run_calls_fresh u e m w cs rl :
  0 < w ->
  lock_free u rl ->
  log_of u e rl = [] ->
  Forall (one_key u e m w) cs ->
  StronglySorted Qle (reads cs) ->
  exists bs rl',
    run_calls cs rl = Returns bs rl' /\
    length bs = length cs /\
    lock_free u rl' /\
    log_of u e rl' =
      List.filter (active (List.last (map c_clean cs) 0%Q) w)
        (admitted_times cs bs) /\
    StronglySorted Qle (admitted_times cs bs) /\
    Z.of_nat (length (log_of u e rl')) <= Z.max m 0.
Proof.
  intros Hw Hf Hlog Hcs Hts.
  destruct cs as [|c cs].
  - exists [], rl. simpl. rewrite Hlog.
    split; [done|]. split; [done|]. split; [done|]. split; [done|].
    split; [constructor|]. simpl. lia.
  - destruct (run_calls_window u e m w (c :: cs) rl [] (c_clean c)
                (c_clean c))
      as (bs & rl' & Hrun & Hlen & Hf' & Hlog' & Hs' & Hb); try done.
    + constructor.
    + apply Qle_refl.
    + rewrite Hlog. simpl. lia.
    + constructor; [done|].
      change (reads (c :: cs)) with (c_clean c :: c_append c :: reads cs)
        in *.
      constructor; [apply Qle_refl|].
      by apply StronglySorted_inv in Hts as [_ Hts].
    + exists bs, rl'. simpl app in *.
      change (map c_clean (c :: cs)) with (c_clean c :: map c_clean cs)
        in *.
      rewrite !last_cons in *. done.
Qed.

(** X1.  A run of [is_rate_limited] calls for one key, with quota [m] and
    window [w > 0], a clock that does not go back from one reading to the
    next (each call reads it when it prunes and again when it records the
    request), subtractions that are exact, and an empty log at the start:
    after the first [k] calls, whatever [k], the stored log is exactly
    the recorded timestamps of the admitted calls that lie within the
    window ending at the last call, and there are at most [max(m, 0)] of
    them.  So no window that ends at a call holds more than [m] admitted
    requests. *)
Theorem sliding_window_bound (u e : string) (m w : Z) (cs : list call)
    (rl : RateLimiter) (k : nat) :
  0 < w ->
  lock_free u rl ->
  log_of u e rl = [] ->
  Forall (one_key u e m w) cs ->
  StronglySorted Qle (reads cs) ->
  run_exact cs = true ->
  exists bs rl',
    run_calls (take k cs) rl = Returns bs rl' /\
    length bs = length (take k cs) /\
    let window_end := List.last (map c_clean (take k cs)) 0%Q in
    log_of u e rl' =
      List.filter (active window_end w) (admitted_times (take k cs) bs) /\
    Z.of_nat
      (length (List.filter (active window_end w)
                 (admitted_times (take k cs) bs))) <= Z.max m 0.
Proof.
  intros Hw Hf Hlog Hcs Hts _.
  destruct (run_calls_fresh u e m w (take k cs) rl)
    as (bs & rl' & Hrun & Hlen & _ & Hlog' & _ & Hb); try done.
  - by apply Forall_take.
  - by apply reads_take.
  - exists bs, rl'. cbv zeta. rewrite <- Hlog'. done.
Qed.

Lemma sliding_window_bound_witness :
  let cs := [mkCall 0 (1 # 2) "10.0.0.7" "search" 2 60;
             mkCall 10 (21 # 2) "10.0.0.7" "search" 2 60;
             mkCall 20 (41 # 2) "10.0.0.7" "search" 2 60;
             mkCall 65 (131 # 2) "10.0.0.7" "search" 2 60] in
  exists bs rl',
    run_calls (take 4 cs) init = Returns bs rl' /\
    length bs = length (take 4 cs) /\
    let window_end := List.last (map c_clean (take 4 cs)) 0%Q in
    log_of "10.0.0.7" "search" rl' =
      List.filter (active window_end 60) (admitted_times (take 4 cs) bs) /\
    Z.of_nat
      (length (List.filter (active window_end 60)
                 (admitted_times (take 4 cs) bs))) <= Z.max 2 0.
Proof.
  apply (sliding_window_bound "10.0.0.7" "search" 2 60).
  - lia.
  - apply init_lock_free.
  - reflexivity.
  - repeat constructor.
  - repeat constructor; by vm_compute.
  - by vm_compute.
Defined.

(** X2.  In such a run the stored log is in time order, so its oldest
    entry is its first one: [get_reset_time], at a time at which its
    addition and subtraction are exact, answers with the time left to the
    first stored entry. *)
Theorem log_in_time_order (u e : string) (m w : Z) (cs : list call)
    (rl : RateLimiter) :
  0 < w ->
  lock_free u rl ->
  log_of u e rl = [] ->
  Forall (one_key u e m w) cs ->
  StronglySorted Qle (reads cs) ->
  run_exact cs = true ->
  exists bs rl',
    run_calls cs rl = Returns bs rl' /\
    StronglySorted Qle (log_of u e rl') /\
    forall now,
      Double.reset_exact now w (log_of u e rl') = true ->
      value (get_reset_time now u e w rl') =
      Some match log_of u e rl' with
           | [] => 0%Q
           | first :: _ => Py.max0 (first + inject_Z w - now)%Q
           end.
Proof.
  intros Hw Hf Hlog Hcs Hts _.
  destruct (run_calls_fresh u e m w cs rl)
    as (bs & rl' & Hrun & _ & Hf' & Hlog' & Hs & _); try done.
  exists bs, rl'. split; [done|].
  assert (Hsorted : StronglySorted Qle (log_of u e rl'))
    by (rewrite Hlog'; by apply filter_sorted).
  split; [done|]. intros now _. rewrite get_reset_time_eq by done. simpl.
  destruct (log_of u e rl') as [|x r]; [done|].
  by rewrite min_from_sorted.
Qed.

Lemma log_in_time_order_witness :
  let cs := [mkCall 0 (1 # 2) "10.0.0.7" "search" 2 60;
             mkCall 10 (21 # 2) "10.0.0.7" "search" 2 60;
             mkCall 65 (131 # 2) "10.0.0.7" "search" 2 60] in
  exists bs rl',
    run_calls cs init = Returns bs rl' /\
    StronglySorted Qle (log_of "10.0.0.7" "search" rl') /\
    forall now,
      Double.reset_exact now 60 (log_of "10.0.0.7" "search" rl') = true ->
      value (get_reset_time now "10.0.0.7" "search" 60 rl') =
      Some match log_of "10.0.0.7" "search" rl' with
           | [] => 0%Q
           | first :: _ => Py.max0 (first + inject_Z 60 - now)%Q
           end.
Proof.
  apply (log_in_time_order "10.0.0.7" "search" 2 60).
  - lia.
  - apply init_lock_free.
  - reflexivity.
  - repeat constructor.
  - repeat constructor; by vm_compute.
  - by vm_compute.
Defined.

(** ** When a slot is free again *)

Lemma filter_replicate {A} (f : A -> bool) n x :
  List.filter f (replicate n x) = if f x then replicate n x else [].
Proof.
  induction n as [|n IH]; simpl; [by destruct (f x)|].
  rewrite IH. by destruct (f x).
Qed.

(** X3.  After a burst at [t0] has used the whole quota [m >= 1], a call
    at [t1] for which the subtraction [t1 - t0] is exact is denied exactly
    when [t1 - t0 < window]: the slots are free again from [t0 + window]
    on, not before.  A denied call leaves the log as it is; an admitted
    one finds every entry of the burst expired and leaves the log with its
    own timestamp only.  (The prune of the burst is taken to subtract
    exactly too.) *)
Theorem slot_free_after_window (m w : Z) (t0 t1 : Q) (u e : string)
    (rl : RateLimiter) :
  1 <= m -> 0 < w ->
  lock_free u rl -> active_log t0 w u e rl = [] ->
  Double.prune_exact t0 (log_of u e rl) = true ->
  Double.sub_exact t1 t0 = true ->
  exists bs s,
    run_calls (replicate (Z.to_nat m) (at_instant t0 u e m w)) rl =
      Returns bs s /\
    log_of u e s = replicate (Z.to_nat m) t0 /\
    is_rate_limited t1 t1 u e m w s =
      Returns (active t1 w t0)
        (put u e (if active t1 w t0 then replicate (Z.to_nat m) t0
                  else [t1]) s) /\
    (active t1 w t0 = true <-> (t1 - t0 < inject_Z w)%Q).
Proof.
  intros Hm Hw Hf Hfresh _ _.
  pose proof (burst_prefix m w t0 u e rl Hm Hw Hf Hfresh (Z.to_nat m))
    as Hrun.
  pose proof (after_free m t0 u e rl Hf (Z.to_nat m)) as Hfree.
  pose proof (after_active m w t0 u e rl Hw Hfresh (Z.to_nat m)) as Hact.
  set (s := after_burst (Z.to_nat m) t0 u e m rl) in *.
  assert (Hlog : log_of u e s = replicate (Z.to_nat m) t0).
  { unfold s, after_burst. destruct (Z.to_nat m) eqn:Hz; [lia|].
    rewrite log_of_put. f_equal. lia. }
  eexists _, s. split; [exact Hrun|]. split; [done|].
  split; [|apply active_iff].
  rewrite is_rate_limited_eq by done. cbv zeta.
  unfold active_log. rewrite Hlog, filter_replicate.
  destruct (active t1 w t0).
  - rewrite len_replicate. by rewrite (proj2 (Z.leb_le _ _)) by lia.
  - change (Py.len []) with 0. by rewrite (proj2 (Z.leb_gt _ _)) by lia.
Qed.

Lemma slot_free_after_window_witness :
  exists bs s,
    run_calls (replicate (Z.to_nat 2) (at_instant 5 "10.0.0.7" "search" 2 60))
      init = Returns bs s /\
    log_of "10.0.0.7" "search" s = replicate (Z.to_nat 2) 5%Q /\
    is_rate_limited 65 65 "10.0.0.7" "search" 2 60 s =
      Returns (active 65 60 5)
        (put "10.0.0.7" "search"
           (if active 65 60 5 then replicate (Z.to_nat 2) 5%Q else [65%Q])
           s) /\
    (active 65 60 5 = true <-> (65 - 5 < inject_Z 60)%Q).
Proof.
  apply (slot_free_after_window 2 60 5 65 "10.0.0.7" "search" init).
  - lia.
  - lia.
  - apply init_lock_free.
  - reflexivity.
  - reflexivity.
  - by vm_compute.
Defined.

(** ** Reading does not use the quota *)



(** ** One lock and one set of logs per user *)

Lemma is_rate_limited_held t1 t2 u e m w rl :
  locks rl !! u = Some true -> is_rate_limited t1 t2 u e m w rl = Blocked.
Proof.
  intros Hh. unfold is_rate_limited, _clean_old_requests, with_lock, bind.
  by rewrite (acquire_held u rl Hh).
Qed.

(** X5.  A call of [is_rate_limited] for a user waits only for that
    user's own lock: it blocks exactly when that lock is held, whatever
    the locks of the other users; and when it returns it has left the logs
    and the lock of every other user as they were. *)
Theorem users_independent (t1 t2 : Q) (u u' e : string) (m w : Z)
    (rl : RateLimiter) :
  u <> u' ->
  (is_rate_limited t1 t2 u e m w rl = Blocked <->
   locks rl !! u = Some true) /\
  (forall b s, is_rate_limited t1 t2 u e m w rl = Returns b s ->
     requests s !! u' = requests rl !! u' /\
     locks s !! u' = locks rl !! u').
Proof.
  intros Hne. split.
  - split; [|apply is_rate_limited_held].
    intros Hb. destruct (decide (locks rl !! u = Some true)) as [|Hf]; [done|].
    rewrite is_rate_limited_eq in Hb by done. cbv zeta in Hb.
    by destruct (m <=? _).
  - intros b s Hr.
    destruct (decide (locks rl !! u = Some true)) as [Hh|Hf].
    { by rewrite (is_rate_limited_held _ _ _ _ _ _ _ Hh) in Hr. }
    rewrite is_rate_limited_eq in Hr by done. cbv zeta in Hr.
    destruct (m <=? _); injection Hr as _ <-; unfold put, upd; simpl;
      by rewrite !lookup_insert_ne.
Qed.

Lemma users_independent_witness :
  let rl := mkRateLimiter {["10.0.0.9" := {["search" := [1%Q]]}]}
              {["10.0.0.9" := true]} in
  (is_rate_limited 2 2 "10.0.0.7" "search" 1 60 rl = Blocked <->
   locks rl !! "10.0.0.7" = Some true) /\
  (forall b s, is_rate_limited 2 2 "10.0.0.7" "search" 1 60 rl = Returns b s ->
     requests s !! "10.0.0.9" = requests rl !! "10.0.0.9" /\
     locks s !! "10.0.0.9" = locks rl !! "10.0.0.9").
Proof.
  apply (users_independent 2 2 "10.0.0.7" "10.0.0.9" "search" 1 60).
  discriminate.
Defined.

(** ** The headers of an admitted request *)

(** X6.  A request admitted at the instant [now] (window positive, [n]
    active entries with [n < limit]) is recorded, and the dependency
    returns the user id with the headers X-RateLimit-Limit, the limit,
    X-RateLimit-Remaining, [limit - n - 1], which counts the request
    itself and is never negative, and X-RateLimit-Reset, the truncated
    time left to the oldest entry that is counted.  This is for a limit
    that [str] can print, and for timestamps on which the subtractions of
    the prune and the sum and difference of [get_reset_time] are exact. *)
Theorem admitted_response (limit : Z) (endpoint : string) (window : Z)
    (now : Q) (request : Request) (rl : RateLimiter) (u : string) :
  0 < window ->
  get_user_id request = Some u ->
  lock_free u rl ->
  let l := active_log now window u endpoint rl in
  Py.len l < limit ->
  Limits.str_defined limit = true ->
  Double.prune_exact now (log_of u endpoint rl) = true ->
  Double.reset_exact now window (l ++ [now]) = true ->
  exists oldest,
    rate_limit_dependency limit endpoint window (frozen now) request rl =
      Returns
        (mkAdmitted u
           [("X-RateLimit-Limit", Py.str limit);
            ("X-RateLimit-Remaining", Py.str (limit - Py.len l - 1));
            ("X-RateLimit-Reset",
              Py.str (Py.int (oldest + inject_Z window - now)%Q))]%string)
        (put u endpoint (l ++ [now]) rl) /\
    0 <= limit - Py.len l - 1 /\
    In oldest (l ++ [now]) /\
    Forall (fun t => (oldest <= t)%Q) (l ++ [now]) /\
    (0 < oldest + inject_Z window - now)%Q.
Proof.
  intros Hw Hid Hf l Hlen _ _ _.
  assert (Hl' : List.filter (active now window) (l ++ [now]) = l ++ [now]).
  { rewrite List.filter_app. unfold l, active_log. rewrite filter_twice.
    simpl. by rewrite (active_now now window Hw). }
  destruct (l ++ [now]) as [|x r] eqn:Hxr; [by destruct l|].
  exists (Py.min_from x r).
  assert (Hpos : (0 < Py.min_from x r + inject_Z window - now)%Q).
  { apply active_time_left, oldest_active. rewrite <- Hl'.
    apply filter_Forall. }
  split.
  - unfold rate_limit_dependency, bind. rewrite Hid.
    change (ret u rl) with (Returns u rl). cbv beta iota.
    change (t_limited_clean (frozen now)) with now.
    change (t_limited_append (frozen now)) with now.
    change (t_remaining (frozen now)) with now.
    change (t_reset (frozen now)) with now.
    rewrite is_rate_limited_eq by done. cbv zeta. fold l.
    rewrite (proj2 (Z.leb_gt _ _)) by lia. cbv beta iota.
    rewrite get_remaining_requests_eq by apply lock_free_put_same.
    cbv zeta. cbv beta iota. rewrite active_log_put, Hxr, Hl', put_put.
    rewrite get_reset_time_eq by apply lock_free_put_same.
    rewrite log_of_put, put_put. unfold ret.
    rewrite (max0_pos _ Hpos).
    assert (Hrem : Py.max0_int (limit - Py.len (x :: r)) =
                   limit - Py.len l - 1).
    { rewrite <- Hxr, len_app. change (Py.len [now]) with 1.
      unfold Py.max0_int. destruct (0 <? _) eqn:H0; lia. }
    by rewrite Hrem.
  - split; [lia|]. split.
    + destruct (min_from_in r x) as [->|Hin]; [by left|by right].
    + split; [|done].
      constructor; [apply min_from_le_cur|apply min_from_le_all].
Qed.

Lemma admitted_response_witness :
  let request := mkRequest (fun _ => None) (Some (mkAddress "10.0.0.7" 51234)) in
  let rl := put "10.0.0.7" "answer" [10%Q] init in
  let l := active_log 30 60 "10.0.0.7" "answer" rl in
  exists oldest,
    rate_limit_dependency 3 "answer" 60 (frozen 30) request rl =
      Returns
        (mkAdmitted "10.0.0.7"
           [("X-RateLimit-Limit", Py.str 3);
            ("X-RateLimit-Remaining", Py.str (3 - Py.len l - 1));
            ("X-RateLimit-Reset",
              Py.str (Py.int (oldest + inject_Z 60 - 30)%Q))]%string)
        (put "10.0.0.7" "answer" (l ++ [30%Q]) rl) /\
    0 <= 3 - Py.len l - 1 /\
    In oldest (l ++ [30%Q]) /\
    Forall (fun t => (oldest <= t)%Q) (l ++ [30%Q]) /\
    (0 < oldest + inject_Z 60 - 30)%Q.
Proof.
  apply (admitted_response 3 "answer" 60 30
           (mkRequest (fun _ => None) (Some (mkAddress "10.0.0.7" 51234)))
           (put "10.0.0.7" "answer" [10%Q] init) "10.0.0.7").
  - lia.
  - reflexivity.
  - apply lock_free_put_same.
  - by vm_compute.
  - by vm_compute.
  - by vm_compute.
  - by vm_compute.
Defined.

(** ** The prompt and the document ranges *)

Lemma str_length_app (a b : string) :
  String.length (a ++ b) = (String.length a + String.length b)%nat.
Proof.
  induction a as [|c a IH]; [done|].
  rewrite append_cons. simpl. by rewrite IH.
Qed.

Lemma str_app_assoc (a b c : string) :
  ((a ++ b) ++ c)%string = (a ++ (b ++ c))%string.
Proof.
  induction a as [|x a IH]; [done|].
  rewrite !append_cons. by rewrite IH.
Qed.

Lemma substring_prefix (c r : string) :
  String.substring 0 (String.length c) (c ++ r) = c.
Proof.
  induction c as [|x c IH]; simpl.
  - rewrite ?append_nil. by destruct r.
  - rewrite ?append_cons. simpl. by rewrite IH.
Qed.

(** [(p + c + r)[len(p) : len(p) + len(c)] == c] *)
Lemma substring_middle (p c r : string) :
  String.substring (String.length p) (String.length c) (p ++ c ++ r) = c.
Proof.
  induction p as [|x p IH]; simpl.
  - rewrite ?append_nil. apply substring_prefix.
  - rewrite ?append_cons. simpl. exact IH.
Qed.

(** A slice that ends inside [s] does not see what follows [s]. *)
Lemma substring_app_l (s r : string) : forall a n,
  (a + n <= String.length s)%nat ->
  String.substring a n (s ++ r) = String.substring a n s.
Proof.
  induction s as [|x s IH]; intros a n Hle; simpl in Hle.
  - assert (a = O) by lia. assert (n = O) by lia. subst.
    rewrite ?append_nil. by destruct r.
  - rewrite ?append_cons. destruct a as [|a]; simpl.
    + destruct n as [|n]; [done|]. f_equal. apply IH. simpl. lia.
    + apply IH. lia.
Qed.

Lemma title_part_length title :
  (0 < String.length (Task.title_part title))%nat.
Proof. unfold Task.title_part. rewrite str_length_app. simpl. lia. Qed.

Lemma content_part_length content :
  String.length (Task.content_part content) =
  (String.length content + 2)%nat.
Proof.
  unfold Task.content_part. rewrite !str_length_app. reflexivity.
Qed.

(** What the loop adds to the prompt and to the ranges. *)
Lemma loop_spec docs : forall prompt ranges,
  exists tail new,
    Task.loop docs prompt ranges = ((prompt ++ tail)%string, ranges ++ new) /\
    length new = length docs /\
    (forall i title content, docs !! i = Some (title, content) ->
       exists a,
         new !! i = Some (a, (a + String.length content)%nat) /\
         (String.length prompt + String.length (Task.title_part title)
          <= a)%nat /\
         (a + String.length content + 2
          <= String.length (prompt ++ tail))%nat /\
         String.substring a (String.length content) (prompt ++ tail)
           = content /\
         String.substring (a - String.length (Task.title_part title))
           (String.length (Task.title_part title)) (prompt ++ tail)
           = Task.title_part title) /\
    (forall i j a b a' b', (i < j)%nat ->
       new !! i = Some (a, b) -> new !! j = Some (a', b') -> (b < a')%nat).
Proof.
  induction docs as [|[title content] docs IH]; intros prompt ranges.
  - exists EmptyString, []. simpl.
    assert (Hnil : (prompt ++ "")%string = prompt).
    { induction prompt as [|x p IHp]; [done|].
      by rewrite append_cons, IHp. }
    rewrite Hnil, app_nil_r. by repeat split.
  - set (p1 := (prompt ++ Task.title_part title)%string).
    set (rg := (String.length p1,
                (String.length p1 + String.length content)%nat)).
    destruct (IH (p1 ++ Task.content_part content)%string (ranges ++ [rg]))
      as (tail & new & Hloop & Hlen & Hloc & Hord).
    exists (Task.title_part title ++ Task.content_part content ++ tail)%string,
      (rg :: new).
    assert (Hfinal :
      ((p1 ++ Task.content_part content) ++ tail)%string =
      (prompt ++ Task.title_part title ++ Task.content_part content
         ++ tail)%string)
      by (unfold p1; by rewrite !str_app_assoc).
    assert (Hp1 : String.length p1 =
                  (String.length prompt
                   + String.length (Task.title_part title))%nat)
      by (unfold p1; apply str_length_app).
    pose proof (content_part_length content) as Hcp.
    pose proof (title_part_length title) as Htp.
    split.
    { change (Task.loop ((title, content) :: docs) prompt ranges)
        with (Task.loop docs (p1 ++ Task.content_part content)%string
                (ranges ++ [rg])).
      by rewrite Hloop, Hfinal, <- app_assoc. }
    split; [simpl; lia|]. split.
    + intros [|i] t c Hi; simpl in Hi.
      * injection Hi as <- <-. exists (String.length p1).
        split; [done|]. split; [lia|].
        rewrite <- Hfinal. rewrite (str_length_app _ tail).
        rewrite (str_length_app p1), Hcp.
        split; [lia|]. split.
        -- unfold Task.content_part. rewrite !str_app_assoc.
           apply substring_middle.
        -- rewrite Hfinal, Hp1.
           replace (String.length prompt
                    + String.length (Task.title_part title)
                    - String.length (Task.title_part title))%nat
             with (String.length prompt) by lia.
           apply substring_middle.
      * destruct (Hloc i t c Hi) as (a & Ha & Hlo & Hhi & Hsub & Htitle).
        exists a. rewrite <- Hfinal.
        rewrite str_length_app in Hlo.
        split; [done|]. split; [lia|]. done.
    + intros [|i] [|j] a b a' b' Hij Hi Hj; simpl in Hi, Hj; try lia.
      * injection Hi as <- <-.
        assert (Hjd : is_Some (docs !! j)).
        { apply lookup_lt_is_Some. rewrite <- Hlen.
          by eapply lookup_lt_Some. }
        destruct Hjd as [[t c] Hjd].
        destruct (Hloc j t c Hjd) as (a0 & Ha0 & Hlo & _).
        rewrite Ha0 in Hj. injection Hj as <- <-.
        rewrite str_length_app, Hcp in Hlo. lia.
      * apply (Hord i j a b a' b'); [lia|done..].
Qed.

(** X7. Each document range of [get_prompt_and_document_ranges] locates
    its document in the prompt that is returned: for the [i]-th title and
    content, the [i]-th range is [(a, a + len(content))], the slice
    [prompt[a : a + len(content)]] is the content itself, and the text just
    before it, [prompt[a - len(header) : a]], is the header
    ["Title: {title}\nContent: "] of that same document. *)
Theorem document_ranges_locate_contents
    (query : string) (titles contents : list string)
    (i : nat) (title content : string) :
  titles !! i = Some title ->
  contents !! i = Some content ->
  let (prompt, document_ranges) :=
    Task.get_prompt_and_document_ranges query titles contents in
  exists a,
    document_ranges !! i = Some (a, (a + String.length content)%nat) /\
    Seq.slice a (a + String.length content) prompt = content /\
    (String.length (Task.title_part title) <= a)%nat /\
    Seq.slice (a - String.length (Task.title_part title)) a prompt
      = Task.title_part title.
Proof.
  intros Ht Hc. unfold Task.get_prompt_and_document_ranges.
  destruct (loop_spec (zip titles contents) EmptyString [])
    as (tail & new & Hloop & _ & Hloc & _).
  rewrite Hloop.
  assert (Hi : zip titles contents !! i = Some (title, content))
    by by apply lookup_zip_Some.
  destruct (Hloc i title content Hi) as (a & Ha & Hlo & Hhi & Hsub & Htitle).
  exists a. change (String.length "") with O in Hlo. unfold Seq.slice.
  split; [done|]. split.
  { replace (a + String.length content - a)%nat
      with (String.length content) by lia.
    rewrite substring_app_l by lia. exact Hsub. }
  split; [lia|].
  replace (a - (a - String.length (Task.title_part title)))%nat
    with (String.length (Task.title_part title)) by lia.
  rewrite substring_app_l by lia. exact Htitle.
Qed.

Lemma document_ranges_locate_contents_witness :
  let (prompt, document_ranges) :=
    Task.get_prompt_and_document_ranges "q" ["A"; "B"]%string
      ["one"; "two"]%string in
  exists a,
    document_ranges !! 1%nat = Some (a, (a + String.length "two")%nat) /\
    Seq.slice a (a + String.length "two") prompt = "two"%string /\
    (String.length (Task.title_part "B") <= a)%nat /\
    Seq.slice (a - String.length (Task.title_part "B")) a prompt
      = Task.title_part "B".
Proof.
  exact (document_ranges_locate_contents "q" ["A"; "B"]%string
           ["one"; "two"]%string 1 "B" "two" eq_refl eq_refl).
Defined.

(** X8. The shape of what [get_prompt_and_document_ranges] returns: there
    is one range per pair of [zip(titles, contents)], so
    [min(len(titles), len(contents))] of them (a title without a content,
    or a content without a title, is left out without an error); the
    ranges follow one another without overlap (a range ends strictly
    before the next one starts) and all end inside the part of the prompt
    that precedes the query; and the prompt ends with the query part
    ["Query: {query}\n\nAnswer the question ..."], which is the whole
    prompt when there is no document. *)
Theorem prompt_shape (query : string) (titles contents : list string) :
  let (prompt, document_ranges) :=
    Task.get_prompt_and_document_ranges query titles contents in
  length document_ranges = Nat.min (length titles) (length contents) /\
  (forall i j a b a' b', (i < j)%nat ->
     document_ranges !! i = Some (a, b) ->
     document_ranges !! j = Some (a', b') -> (a <= b < a')%nat) /\
  (exists body,
     prompt = (body ++ Task.query_part query)%string /\
     (forall i a b, document_ranges !! i = Some (a, b) ->
        (a <= b /\ b + 2 <= String.length body)%nat) /\
     (titles = [] \/ contents = [] -> body = EmptyString)).
Proof.
  unfold Task.get_prompt_and_document_ranges.
  destruct (loop_spec (zip titles contents) EmptyString [])
    as (tail & new & Hloop & Hlen & Hloc & Hord).
  rewrite Hloop. simpl app.
  assert (Hrange : forall i a b, new !! i = Some (a, b) ->
            (a <= b /\ b + 2 <= String.length ("" ++ tail))%nat).
  { intros i a b Hi.
    assert (Hd : is_Some (zip titles contents !! i)).
    { apply lookup_lt_is_Some. rewrite <- Hlen. by eapply lookup_lt_Some. }
    destruct Hd as [[t c] Hd].
    destruct (Hloc i t c Hd) as (a0 & Ha0 & _ & Hhi & _).
    rewrite Ha0 in Hi. injection Hi as <- <-. lia. }
  split; [by rewrite Hlen, length_zip|]. split.
  - intros i j a b a' b' Hij Hi Hj.
    split; [by apply (Hrange i)|by apply (Hord i j a b a' b')].
  - exists ("" ++ tail)%string. split; [done|]. split; [exact Hrange|].
    intros Hempty.
    assert (Hz : zip titles contents = []).
    { destruct Hempty as [-> | ->]; [done|]. by destruct titles. }
    rewrite Hz in Hloop. simpl in Hloop. by injection Hloop as <- _.
Qed.

(** ** The selection and the ranking of the citations *)

Lemma max_from_ge_cur l : forall cur, (cur <= Seq.max_from cur l)%Q.
Proof.
  induction l as [|x l IH]; intros cur; simpl; [apply Qle_refl|].
  eapply Qle_trans; [|apply IH].
  destruct (Py.lt cur x) eqn:Hlt; [|apply Qle_refl].
  by apply Qlt_le_weak, lt_iff.
Qed.

Lemma max_from_ge_all l : forall cur,
  Forall (fun x => (x <= Seq.max_from cur l)%Q) l.
Proof.
  induction l as [|x l IH]; intros cur; simpl; constructor; [|apply IH].
  eapply Qle_trans; [|apply max_from_ge_cur].
  destruct (Py.lt cur x) eqn:Hlt; [apply Qle_refl|].
  apply Qnot_lt_le. intros Hc. apply lt_iff in Hc. congruence.
Qed.

Lemma max_from_in l : forall cur,
  Seq.max_from cur l = cur \/ In (Seq.max_from cur l) l.
Proof.
  induction l as [|x l IH]; intros cur; simpl; [by left|].
  destruct (IH (if Py.lt cur x then x else cur)) as [H|H]; [|by right; right].
  rewrite H. destruct (Py.lt cur x); [right; by left|by left].
Qed.

Lemma np_max_spec (l : list Q) m :
  Seq.np_max l = Some m -> In m l /\ Forall (fun x => (x <= m)%Q) l.
Proof.
  destruct l as [|x l]; [done|]. intros [= <-]. split.
  - destruct (max_from_in l x) as [-> | H]; [by left|by right].
  - constructor; [apply max_from_ge_cur|apply max_from_ge_all].
Qed.

Lemma ge_iff a b : Seq.ge a b = true <-> (b <= a)%Q.
Proof. apply Qle_bool_iff. Qed.

(** The comprehension [[i for i, score in enumerate(scores) if P(score)]],
    with the enumeration started at [k]. *)
Lemma comprehension_from (P : Q -> bool) (l : list Q) : forall k,
  let sel := omap (fun '(i, s) => if P s then Some i else None)
               (imap (fun i x => ((k + i)%nat, x)) l) in
  StronglySorted lt sel /\
  forall i, i ∈ sel <->
    exists s, (k <= i)%nat /\ l !! (i - k)%nat = Some s /\ P s = true.
Proof.
  induction l as [|x l IH]; intros k; simpl.
  - split; [constructor|]. intros i. split; [by intros ?%elem_of_nil|].
    by intros (s & _ & ? & _).
  - rewrite (imap_ext _ (fun i x => ((S k + i)%nat, x)) l)
      by (intros; simpl; f_equal; lia).
    destruct (IH (S k)) as [Hs Hel]. simpl in Hs, Hel.
    assert (Htail : forall i,
      i ∈ omap (fun '(i, s) => if P s then Some i else None)
            (imap (fun i x => (S (k + i), x)) l) <->
      exists s, (k <= i)%nat /\ (x :: l) !! (i - k)%nat = Some s /\
                P s = true /\ i <> (k + 0)%nat).
    { intros i. rewrite Hel. split.
      - intros (s & Hk & Hi & HP). exists s.
        replace (i - k)%nat with (S (i - S k)) by lia.
        repeat split; [lia|done|done|lia].
      - intros (s & Hk & Hi & HP & Hne). exists s.
        replace (i - k)%nat with (S (i - S k)) in Hi by lia.
        repeat split; [lia|done|done]. }
    destruct (P x) eqn:HPx.
    + split.
      * constructor; [done|]. apply Forall_forall. intros i Hi.
        apply Hel in Hi as (s & Hk & _). lia.
      * intros i. rewrite elem_of_cons, Htail. split.
        -- intros [-> | (s & Hk & Hi & HP & _)].
           ++ exists x. rewrite Nat.add_0_r, Nat.sub_diag.
              by repeat split.
           ++ by exists s.
        -- intros (s & Hk & Hi & HP).
           destruct (decide (i = (k + 0)%nat)) as [->|Hne]; [by left|].
           right. by exists s.
    + split; [done|]. intros i. rewrite Htail. split.
      * intros (s & Hk & Hi & HP & _). by exists s.
      * intros (s & Hk & Hi & HP). exists s.
        repeat split; [done..|]. intros ->.
        rewrite Nat.add_0_r, Nat.sub_diag in Hi. simpl in Hi. congruence.
Qed.

Lemma select_inr scores absolute_threshold relative_threshold max_score :
  Seq.np_max scores = Some max_score ->
  exists sel,
    Citation.select_citation_indices scores absolute_threshold
      relative_threshold = inr sel /\
    StronglySorted lt sel /\
    forall i, i ∈ sel <->
      exists s, scores !! i = Some s /\
        Citation.filter_fn absolute_threshold relative_threshold
          max_score s = true.
Proof.
  intros Hmax. unfold Citation.select_citation_indices. rewrite Hmax.
  eexists. split; [reflexivity|].
  destruct (comprehension_from
    (Citation.filter_fn absolute_threshold relative_threshold max_score)
    scores 0) as [Hs Hel].
  simpl in Hs, Hel. split; [exact Hs|].
  intros i. unfold Seq.enumerate. rewrite Hel. split.
  - intros (s & _ & Hi & HP). rewrite Nat.sub_0_r in Hi. by exists s.
  - intros (s & Hi & HP). exists s. rewrite Nat.sub_0_r.
    repeat split; [lia|done..].
Qed.

Lemma filter_fn_iff absolute_threshold relative_threshold max_score s :
  Citation.filter_fn absolute_threshold relative_threshold max_score s = true
  <-> (absolute_threshold <= s)%Q /\
      forall rel, relative_threshold = Some rel -> (max_score * rel <= s)%Q.
Proof.
  unfold Citation.filter_fn. destruct relative_threshold as [rel|].
  - rewrite andb_true_iff, !ge_iff. split.
    + intros [Ha Hr]. split; [done|]. by intros ? [= <-].
    + intros [Ha Hr]. split; [done|]. by apply Hr.
  - rewrite ge_iff. split; [|by intros [? _]].
    intros Ha. by split.
Qed.

(** X9. [select_citation_indices] raises the [ValueError] of [np.max] on an
    empty score list, whatever the thresholds, and returns otherwise.  The
    indices it returns are in strictly increasing order (so without
    repetition), and an index is returned exactly when its score is at
    least the absolute threshold and, when a relative threshold is given,
    at least the largest score times that threshold; the largest score is
    an element of the list that bounds every score.  With a relative
    threshold this is for scores whose product with the threshold is
    exact; without one, as by default, nothing is multiplied. *)
Theorem select_citation_indices_spec
    (scores : list Q) (absolute_threshold : Q)
    (relative_threshold : option Q) :
  Double.threshold_exact scores relative_threshold = true ->
  match Citation.select_citation_indices scores absolute_threshold
          relative_threshold with
  | inl e => e = ValueError /\ scores = []
  | inr sel =>
      exists max_score,
        In max_score scores /\
        Forall (fun x => (x <= max_score)%Q) scores /\
        StronglySorted lt sel /\
        forall i, i ∈ sel <->
          exists s, scores !! i = Some s /\
            (absolute_threshold <= s)%Q /\
            forall rel, relative_threshold = Some rel ->
                        (max_score * rel <= s)%Q
  end.
Proof.
  intros _.
  destruct (Seq.np_max scores) as [max_score|] eqn:Hmax.
  - destruct (select_inr scores absolute_threshold relative_threshold
                max_score Hmax) as (sel & -> & Hs & Hel).
    destruct (np_max_spec _ _ Hmax) as [Hin Hall].
    exists max_score. repeat split; [done..| |].
    + intros (s & Hi & HP)%Hel. exists s.
      by apply filter_fn_iff in HP.
    + intros (s & Hi & HP). apply Hel. exists s.
      split; [done|]. by apply filter_fn_iff.
  - unfold Citation.select_citation_indices. rewrite Hmax.
    by destruct scores.
Qed.

Lemma select_citation_indices_spec_witness :
  match Citation.select_citation_indices [1 # 2; 1 # 4; 1 # 16]%Q
          (1 # 8) (Some (1 # 2)) with
  | inl e => e = ValueError /\ [1 # 2; 1 # 4; 1 # 16]%Q = []
  | inr sel =>
      exists max_score,
        In max_score [1 # 2; 1 # 4; 1 # 16]%Q /\
        Forall (fun x => (x <= max_score)%Q) [1 # 2; 1 # 4; 1 # 16]%Q /\
        StronglySorted lt sel /\
        forall i, i ∈ sel <->
          exists s, [1 # 2; 1 # 4; 1 # 16]%Q !! i = Some s /\
            (1 # 8 <= s)%Q /\
            forall rel, Some (1 # 2) = Some rel ->
                        (max_score * rel <= s)%Q
  end.
Proof.
  apply (select_citation_indices_spec [1 # 2; 1 # 4; 1 # 16]%Q (1 # 8)
           (Some (1 # 2))).
  by vm_compute.
Defined.

(** [l.sort(key=key, reverse=True)] permutes, orders by descending key
    and keeps the elements of each key in the order they had. *)
Lemma insert_desc_perm {A} (key : A -> Q) x l :
  Seq.insert_desc key x l ≡ₚ x :: l.
Proof.
  induction l as [|y l IH]; simpl; [done|].
  destruct (Py.lt (key x) (key y)); [|done].
  rewrite IH. apply Permutation_swap.
Qed.

Lemma sort_desc_perm {A} (key : A -> Q) l : Seq.sort_desc key l ≡ₚ l.
Proof.
  induction l as [|x l IH]; simpl; [done|].
  by rewrite insert_desc_perm, IH.
Qed.

Lemma insert_desc_sorted {A} (key : A -> Q) x l :
  StronglySorted (fun a b => (key b <= key a)%Q) l ->
  StronglySorted (fun a b => (key b <= key a)%Q) (Seq.insert_desc key x l).
Proof.
  induction 1 as [|y l Hs IH Hy]; simpl; [by repeat constructor|].
  destruct (Py.lt (key x) (key y)) eqn:Hlt.
  - constructor; [done|].
    rewrite insert_desc_perm. constructor; [|done].
    by apply Qlt_le_weak, lt_iff.
  - assert (Hyx : (key y <= key x)%Q).
    { apply Qnot_lt_le. intros Hc. apply lt_iff in Hc. congruence. }
    constructor; [by constructor|]. constructor; [done|].
    eapply Forall_impl; [exact Hy|]. simpl. intros z Hz.
    by eapply Qle_trans.
Qed.

Lemma sort_desc_sorted {A} (key : A -> Q) l :
  StronglySorted (fun a b => (key b <= key a)%Q) (Seq.sort_desc key l).
Proof.
  induction l as [|x l IH]; simpl; [constructor|].
  by apply insert_desc_sorted.
Qed.

Lemma insert_desc_stable {A} (key : A -> Q) q x l :
  List.filter (fun i => Qeq_bool (key i) q) (Seq.insert_desc key x l) =
  List.filter (fun i => Qeq_bool (key i) q) (x :: l).
Proof.
  induction l as [|y l IH]; [done|].
  cbn [Seq.insert_desc]. destruct (Py.lt (key x) (key y)) eqn:Hlt; [|done].
  cbn [List.filter] in *. rewrite IH.
  destruct (Qeq_bool (key x) q) eqn:Hx; [|done].
  destruct (Qeq_bool (key y) q) eqn:Hy; [|done].
  apply Qeq_bool_iff in Hx, Hy. apply lt_iff in Hlt.
  rewrite Hx, Hy in Hlt. by apply Qlt_irrefl in Hlt.
Qed.

Lemma sort_desc_stable {A} (key : A -> Q) q l :
  List.filter (fun i => Qeq_bool (key i) q) (Seq.sort_desc key l) =
  List.filter (fun i => Qeq_bool (key i) q) l.
Proof.
  induction l as [|x l IH]; [done|].
  cbn [Seq.sort_desc]. rewrite insert_desc_stable.
  cbn [List.filter]. by rewrite IH.
Qed.

Lemma filter_increasing f (l : list nat) :
  StronglySorted lt l -> StronglySorted lt (List.filter f l).
Proof.
  induction 1 as [|x l Hs IH Hx]; simpl; [constructor|].
  destruct (f x); [|done]. constructor; [done|].
  apply Forall_forall. intros y Hy.
  apply list_elem_of_In, filter_In in Hy as [Hy _].
  by apply (proj1 (Forall_forall _ _) Hx), list_elem_of_In.
Qed.

(** The loop of [get_at2_citations]. *)
Lemma build_inr titles scores get_source source_to_document idx : forall cs,
  Citation.build titles scores get_source source_to_document idx = inr cs <->
  Forall2 (fun i c =>
      titles !! source_to_document i = Some (Citation.title c) /\
      Citation.text c = Py.strip (get_source i) /\
      scores !! i = Some (Citation.score c)) idx cs.
Proof.
  induction idx as [|i idx IH]; intros cs; simpl.
  - split; [intros [= <-]; constructor|by intros ->%Forall2_nil_inv_l].
  - destruct (titles !! source_to_document i) as [t|] eqn:Ht;
      [destruct (scores !! i) as [s|] eqn:Hs|].
    + destruct (Citation.build titles scores get_source source_to_document
                  idx) as [e|cs'] eqn:Hb.
      * split; [done|]. intros H.
        apply Forall2_cons_inv_l in H as (c & cs' & _ & H & _).
        by apply IH in H.
      * split.
        -- intros [= <-]. constructor; [done|]. by apply IH.
        -- intros H.
           apply Forall2_cons_inv_l in H as (c & cs2 & (Hc1 & Hc2 & Hc3) & H & ->).
           apply IH in H. injection H as <-.
           destruct c as [ct cx csc]. simpl in *. congruence.
    + split; [done|]. intros H.
      apply Forall2_cons_inv_l in H as (c & cs' & (_ & _ & Hc) & _).
      congruence.
    + split; [done|]. intros H.
      apply Forall2_cons_inv_l in H as (c & cs' & (Hc & _) & _).
      congruence.
Qed.

Lemma build_inl titles scores get_source source_to_document idx : forall e,
  Citation.build titles scores get_source source_to_document idx = inl e <->
  e = IndexError /\
  exists i, i ∈ idx /\
    (titles !! source_to_document i = None \/ scores !! i = None).
Proof.
  induction idx as [|i idx IH]; intros e; simpl.
  - split; [done|]. by intros (_ & i & ?%elem_of_nil & _).
  - destruct (titles !! source_to_document i) as [t|] eqn:Ht;
      [destruct (scores !! i) as [s|] eqn:Hs|].
    + destruct (Citation.build titles scores get_source source_to_document
                  idx) as [e'|cs'] eqn:Hb.
      * destruct (proj1 (IH e') eq_refl) as (-> & j & Hj & H). split.
        -- intros [= <-]. split; [done|]. exists j. split; [by right|done].
        -- by intros (-> & _).
      * split; [done|]. intros (-> & j & Hj & H).
        apply elem_of_cons in Hj as [->|Hj].
        -- destruct H as [H|H]; congruence.
        -- assert (Hc : @inr exn _ cs' = inl IndexError); [|done].
           apply IH. split; [done|]. by exists j.
    + split; [|by intros (-> & _)]. intros [= <-]. split; [done|].
      exists i. split; [by left|by right].
    + split; [|by intros (-> & _)]. intros [= <-]. split; [done|].
      exists i. split; [by left|by left].
Qed.

Lemma sorted_through {A B} (P : A -> B -> Prop) (key : A -> Q)
    (val : B -> Q) (l : list A) (k : list B) :
  Forall2 P l k ->
  (forall a b, P a b -> key a = val b) ->
  StronglySorted (fun a a' => (key a' <= key a)%Q) l ->
  StronglySorted (fun b b' => (val b' <= val b)%Q) k.
Proof.
  intros HF HP. induction HF as [|a b l k Hab HF IH]; intros Hs;
    [constructor|].
  apply StronglySorted_inv in Hs as [Hs Ha].
  constructor; [by apply IH|].
  clear IH Hs. induction HF as [|a' b' l k Hab' HF IH]; [constructor|].
  apply Forall_cons in Ha as [Ha Hl].
  constructor; [|by apply IH].
  by rewrite <- (HP _ _ Hab), <- (HP _ _ Hab').
Qed.

(** X10. When [get_at2_citations] returns, its citations are the selected
    sources, each once: the list of their source indices is a permutation
    of what [select_citation_indices] gave; a citation carries the title
    of the document of its source, the source text stripped of
    surrounding whitespace, and the score of the source; the citations
    are in descending order of score; and of two sources with equal
    scores the one with the smaller index comes first. *)
Theorem citations_ranked
    (titles : list string) (scores : list Q) (get_source : nat -> string)
    (source_to_document : nat -> nat) (absolute_threshold : Q)
    (relative_threshold : option Q) (cs : list Citation.citation) :
  Citation.get_at2_citations titles scores get_source source_to_document
    absolute_threshold relative_threshold = inr cs ->
  exists sel idx,
    Citation.select_citation_indices scores absolute_threshold
      relative_threshold = inr sel /\
    idx ≡ₚ sel /\
    Forall2 (fun i c =>
        titles !! source_to_document i = Some (Citation.title c) /\
        Citation.text c = Py.strip (get_source i) /\
        scores !! i = Some (Citation.score c)) idx cs /\
    StronglySorted
      (fun c c' => (Citation.score c' <= Citation.score c)%Q) cs /\
    forall l1 i l2 j l3 s s',
      idx = l1 ++ i :: l2 ++ j :: l3 ->
      scores !! i = Some s -> scores !! j = Some s' -> (s == s')%Q ->
      (i < j)%nat.
Proof.
  unfold Citation.get_at2_citations. intros Hc.
  destruct (Citation.select_citation_indices scores absolute_threshold
              relative_threshold) as [e|sel] eqn:Hsel; [done|].
  set (key := fun i : nat => default 0%Q (scores !! i)) in Hc.
  exists sel, (Seq.sort_desc key sel).
  split; [done|]. split; [apply sort_desc_perm|].
  apply build_inr in Hc. split; [exact Hc|]. split.
  - eapply (sorted_through _ key Citation.score); [exact Hc| |].
    + intros i c (_ & _ & Hi). unfold key. by rewrite Hi.
    + apply sort_desc_sorted.
  - intros l1 i l2 j l3 s s' Hidx Hi Hj Hss.
    assert (Hinc : StronglySorted lt sel).
    { destruct (Seq.np_max scores) as [m|] eqn:Hmax.
      - destruct (select_inr scores absolute_threshold relative_threshold
                    m Hmax) as (sel' & Hsel' & Hs & _).
        rewrite Hsel in Hsel'. by injection Hsel' as <-.
      - unfold Citation.select_citation_indices in Hsel.
        by rewrite Hmax in Hsel. }
    pose proof (filter_increasing (fun i => Qeq_bool (key i) s) sel Hinc)
      as Hf.
    rewrite <- (sort_desc_stable key s sel), Hidx in Hf.
    rewrite List.filter_app in Hf. cbn [List.filter] in Hf.
    assert (Hki : Qeq_bool (key i) s = true).
    { unfold key. rewrite Hi. simpl. apply Qeq_bool_iff. reflexivity. }
    rewrite Hki, List.filter_app in Hf. cbn [List.filter] in Hf.
    assert (Hkj : Qeq_bool (key j) s = true).
    { unfold key. rewrite Hj. simpl. apply Qeq_bool_iff.
      by symmetry. }
    rewrite Hkj in Hf.
    apply StronglySorted_app_1_r, StronglySorted_inv in Hf as [_ Hf].
    apply Forall_app in Hf as [_ Hf].
    by apply Forall_cons in Hf as [Hf _].
Qed.

Lemma citations_ranked_witness :
  exists sel idx,
    Citation.select_citation_indices [1 # 10; 3 # 10; 0; 3 # 10]%Q
      Citation.ABSOLUTE_THRESHOLD Citation.RELATIVE_THRESHOLD = inr sel /\
    idx ≡ₚ sel /\
    Forall2 (fun i c =>
        ["A"; "B"]%string !! (i mod 2)%nat = Some (Citation.title c) /\
        Citation.text c = Py.strip " source " /\
        [1 # 10; 3 # 10; 0; 3 # 10]%Q !! i = Some (Citation.score c)) idx
      [Citation.mkCitation "B" "source" (3 # 10);
       Citation.mkCitation "B" "source" (3 # 10);
       Citation.mkCitation "A" "source" (1 # 10)] /\
    StronglySorted
      (fun c c' => (Citation.score c' <= Citation.score c)%Q)
      [Citation.mkCitation "B" "source" (3 # 10);
       Citation.mkCitation "B" "source" (3 # 10);
       Citation.mkCitation "A" "source" (1 # 10)] /\
    forall l1 i l2 j l3 s s',
      idx = l1 ++ i :: l2 ++ j :: l3 ->
      [1 # 10; 3 # 10; 0; 3 # 10]%Q !! i = Some s ->
      [1 # 10; 3 # 10; 0; 3 # 10]%Q !! j = Some s' -> (s == s')%Q ->
      (i < j)%nat.
Proof.
  exact (citations_ranked ["A"; "B"]%string [1 # 10; 3 # 10; 0; 3 # 10]%Q
           (fun _ => " source "%string) (fun i => (i mod 2)%nat)
           Citation.ABSOLUTE_THRESHOLD Citation.RELATIVE_THRESHOLD
           _ eq_refl).
Defined.

(** X11. [get_at2_citations] fails in two cases only: with the
    [ValueError] of [np.max] when there is no score at all, and with an
    [IndexError] when the document of some selected source has no title
    ([_source_to_document] points past the end of [titles]); a source
    that is not selected is never looked up.  In every other case it
    returns. *)
Theorem citations_errors
    (titles : list string) (scores : list Q) (get_source : nat -> string)
    (source_to_document : nat -> nat) (absolute_threshold : Q)
    (relative_threshold : option Q) (e : exn) :
  Citation.get_at2_citations titles scores get_source source_to_document
    absolute_threshold relative_threshold = inl e <->
  (e = ValueError /\ scores = []) \/
  (e = IndexError /\
   exists sel i,
     Citation.select_citation_indices scores absolute_threshold
       relative_threshold = inr sel /\
     i ∈ sel /\ (length titles <= source_to_document i)%nat).
Proof.
  unfold Citation.get_at2_citations.
  destruct (Seq.np_max scores) as [m|] eqn:Hmax.
  - destruct (select_inr scores absolute_threshold relative_threshold
                m Hmax) as (sel & Hsel & _ & Hel).
    rewrite Hsel. rewrite build_inl. split.
    + intros (-> & i & Hi & H). right. split; [done|].
      rewrite sort_desc_perm in Hi. exists sel, i.
      split; [done|]. split; [done|].
      destruct H as [H|H]; [by apply lookup_ge_None|].
      apply Hel in Hi as (s & Hs & _). congruence.
    + intros [[_ ->]|(-> & sel' & i & [= <-] & Hi & Hle)]; [done|].
      split; [done|]. exists i. rewrite sort_desc_perm.
      split; [done|]. left. by apply lookup_ge_None.
  - unfold Citation.select_citation_indices. rewrite Hmax.
    destruct scores; [|done]. split.
    + intros [= <-]. by left.
    + intros [[-> _]|(_ & sel & i & [=] & _)]. done.
Qed.

(** ** The search results *)

Lemma dict_set_keys {V} k (v : V) d :
  (Seq.dict_set k v d).*1 =
  if decide (k ∈ d.*1) then d.*1 else d.*1 ++ [k].
Proof.
  induction d as [|[k' v'] d IH].
  - destruct (decide (k ∈ ([] : list (string * V)).*1)) as [H|H]; [|done].
    by apply elem_of_nil in H.
  - cbn [Seq.dict_set]. destruct (String.eqb_spec k' k) as [->|Hne].
    + destruct (decide (k ∈ ((k, v') :: d).*1)) as [H|H]; [done|].
      exfalso. apply H. by left.
    + rewrite fmap_cons, IH. cbn [fst].
      destruct (decide (k ∈ d.*1)) as [Hin|Hin];
        destruct (decide (k ∈ ((k', v') :: d).*1)) as [H|H]; try done.
      * exfalso. apply H. by right.
      * exfalso. rewrite fmap_cons in H.
        apply elem_of_cons in H as [H|H]; [by apply Hne|done].
Qed.

Lemma dict_set_NoDup {V} k (v : V) d :
  NoDup d.*1 -> NoDup (Seq.dict_set k v d).*1.
Proof.
  intros Hd. rewrite dict_set_keys. destruct (decide (k ∈ d.*1)); [done|].
  apply NoDup_app. split; [done|]. split; [|apply NoDup_singleton].
  intros x Hx ->%list_elem_of_singleton. done.
Qed.

Lemma dict_set_elem {V} k (v : V) d k0 v0 :
  NoDup d.*1 ->
  (k0, v0) ∈ Seq.dict_set k v d ->
  (k0 = k /\ v0 = v) \/ (k0 <> k /\ (k0, v0) ∈ d).
Proof.
  induction d as [|[k' v'] d IH]; simpl; intros Hd.
  - intros [= -> ->]%list_elem_of_singleton. by left.
  - apply NoDup_cons in Hd as [Hk' Hd].
    destruct (String.eqb_spec k' k) as [->|Hne].
    + intros [[= -> ->]|Hin]%elem_of_cons; [by left|].
      right. split; [|by right]. intros ->. apply Hk'.
      by apply (list_elem_of_fmap_2 fst _ (k, v0)).
    + intros [[= -> ->]|Hin]%elem_of_cons.
      * right. split; [done|by left].
      * destruct (IH Hd Hin) as [?|[? ?]]; [by left|].
        right. split; [done|by right].
Qed.

Lemma first_seen_elem l x : x ∈ first_seen l <-> x ∈ l.
Proof.
  induction l as [|y l IH]; simpl; [done|].
  rewrite !elem_of_cons, list_elem_of_filter, IH.
  destruct (decide (x = y)) as [->|Hne]; [split; by left|].
  split; [intros [?|[_ ?]]; [done|by right]|].
  intros [?|?]; [done|by right].
Qed.

Lemma first_seen_NoDup l : NoDup (first_seen l).
Proof.
  induction l as [|y l IH]; simpl; constructor.
  - rewrite list_elem_of_filter. by intros [? _].
  - by apply NoDup_filter.
Qed.

Lemma first_seen_distinct l : NoDup l -> first_seen l = l.
Proof.
  induction 1 as [|x l Hx Hl IH]; simpl; [done|].
  rewrite IH. f_equal. clear IH Hl.
  induction l as [|y l IH]; [done|].
  rewrite filter_cons_True by set_solver. f_equal. apply IH. set_solver.
Qed.

(** The keys of the dict after the loop. *)
Lemma fill_keys get truncate_length entries : forall acc results,
  Search.fill get truncate_length entries acc = Search.Val results ->
  results.*1 =
  acc.*1 ++ filter (fun k => k ∉ acc.*1) (first_seen (Search.url <$> entries)).
Proof.
  induction entries as [|e entries IH]; intros acc results; simpl.
  - intros [= <-]. by rewrite app_nil_r.
  - destruct (Search.content_of get truncate_length e) as [c|]; [|done].
    intros Hf. rewrite (IH _ _ Hf), dict_set_keys.
    destruct (decide (Search.url e ∈ acc.*1)) as [Hin|Hin].
    + rewrite filter_cons_False by (intros H; by apply H). f_equal.
      rewrite list_filter_filter. apply list_filter_iff.
      intros x. split; [|by intros [? _]].
      intros Hx. split; [done|]. by intros ->.
    + rewrite filter_cons_True by done. rewrite <- app_assoc. f_equal.
      simpl. f_equal. rewrite list_filter_filter. apply list_filter_iff.
      intros x. rewrite elem_of_app, list_elem_of_singleton. split.
      * intros Hx. split; intros Hc; apply Hx; [by left|by right].
      * intros [Hx Hne] [Hc|Hc]; [by apply Hx|done].
Qed.

Lemma fill_NoDup get truncate_length entries : forall acc results,
  NoDup acc.*1 ->
  Search.fill get truncate_length entries acc = Search.Val results ->
  NoDup results.*1.
Proof.
  induction entries as [|e entries IH]; intros acc results Hacc; simpl.
  - by intros [= <-].
  - destruct (Search.content_of get truncate_length e) as [c|]; [|done].
    apply IH. by apply dict_set_NoDup.
Qed.

(** The value of a key after the loop is the one of the last entry with
    that URL. *)
Lemma fill_elem get truncate_length entries : forall acc results,
  NoDup acc.*1 ->
  Search.fill get truncate_length entries acc = Search.Val results ->
  forall k v, (k, v) ∈ results ->
    (exists pre e post c,
       entries = pre ++ e :: post /\
       Search.url e = k /\
       Forall (fun e' => Search.url e' <> k) post /\
       Search.content_of get truncate_length e = Search.Val c /\
       v = Search.mkResult (Search.title e) (Search.url e) c) \/
    (Forall (fun e' => Search.url e' <> k) entries /\ (k, v) ∈ acc).
Proof.
  induction entries as [|e entries IH]; intros acc results Hacc; simpl.
  - intros [= <-] k v Hin. right. by split.
  - destruct (Search.content_of get truncate_length e) as [c|] eqn:Hc;
      [|done].
    intros Hf k v Hin.
    destruct (IH _ _ (dict_set_NoDup _ _ _ Hacc) Hf k v Hin)
      as [(pre & e' & post & c' & -> & Hk & Hpost & Hc' & Hv)|[Hno Hin']].
    + left. by exists (e :: pre), e', post, c'.
    + apply dict_set_elem in Hin' as [[-> ->]|[Hne Hin']]; [| |done].
      * left. by exists [], e, entries, c.
      * right. split; [|done]. constructor; [|done]. by intros <-.
Qed.

Lemma upto_fmap {A B} (f : A -> B) n (l : list A) :
  f <$> Seq.upto n l = Seq.upto n (f <$> l).
Proof.
  unfold Seq.upto. rewrite length_fmap.
  destruct (0 <=? n); apply fmap_take.
Qed.

Lemma upto_elem {A} n (l : list A) x : x ∈ Seq.upto n l -> x ∈ l.
Proof.
  unfold Seq.upto. destruct (0 <=? n); apply subseteq_take.
Qed.

Lemma upto_NoDup {A} n (l : list A) : NoDup l -> NoDup (Seq.upto n l).
Proof.
  unfold Seq.upto. intros Hl.
  destruct (0 <=? n); (eapply sublist_NoDup; [done|apply sublist_take]).
Qed.

Lemma upto_length {A} n (l : list A) :
  Z.of_nat (length (Seq.upto n l)) =
  if 0 <=? n then Z.min n (Z.of_nat (length l))
  else Z.max 0 (Z.of_nat (length l) + n).
Proof.
  unfold Seq.upto. destruct (Z.leb_spec 0 n); rewrite length_take; lia.
Qed.

Lemma substring_length n s :
  String.length (String.substring 0 n s) = Nat.min n (String.length s).
Proof.
  revert n. induction s as [|c s IH]; intros [|n]; simpl; try done.
  by rewrite IH.
Qed.

Lemma str_upto_length n s :
  Z.of_nat (String.length (Seq.str_upto n s)) =
  if 0 <=? n then Z.min n (Z.of_nat (String.length s))
  else Z.max 0 (Z.of_nat (String.length s) + n).
Proof.
  unfold Seq.str_upto.
  destruct (Z.leb_spec 0 n); rewrite substring_length; lia.
Qed.

Lemma content_of_exc get truncate_length e :
  Search.content_of get truncate_length e = Search.Exc <->
  Search.raw_content e = None /\
  get (Search.url e) = Search.RequestException.
Proof.
  unfold Search.content_of, Search.parse_paragraphs.
  destruct (Search.raw_content e) as [raw|].
  - split; [done|]. by intros [? _].
  - destruct (get (Search.url e)) as [status ps|].
    + destruct (negb (status =? 200)); (split; [done|by intros [_ ?]]).
    + by split.
Qed.

Lemma content_of_ext get get' truncate_length e :
  (Search.raw_content e = None -> get (Search.url e) = get' (Search.url e)) ->
  Search.content_of get truncate_length e =
  Search.content_of get' truncate_length e.
Proof.
  unfold Search.content_of, Search.parse_paragraphs. intros H.
  destruct (Search.raw_content e) as [raw|]; [done|]. by rewrite H.
Qed.

Lemma fill_exc get truncate_length entries : forall acc,
  Search.fill get truncate_length entries acc = Search.Exc <->
  Exists (fun e => Search.content_of get truncate_length e = Search.Exc)
    entries.
Proof.
  induction entries as [|e entries IH]; intros acc; simpl.
  - split; [done|]. by intros ?%Exists_nil.
  - rewrite Exists_cons.
    destruct (Search.content_of get truncate_length e) as [c|].
    + rewrite IH. split; [by right|]. by intros [?|?].
    + split; [by left|done].
Qed.

Lemma fill_ext get get' truncate_length entries : forall acc,
  Forall (fun e => Search.raw_content e = None ->
                   get (Search.url e) = get' (Search.url e)) entries ->
  Search.fill get truncate_length entries acc =
  Search.fill get' truncate_length entries acc.
Proof.
  induction entries as [|e entries IH]; intros acc Hall; [done|].
  apply Forall_cons in Hall as [He Hall]. simpl.
  rewrite (content_of_ext get get' truncate_length e He).
  destruct (Search.content_of get' truncate_length e); [|done].
  by apply IH.
Qed.

(** The values of the dict carry their key as link. *)
Lemma fill_links get truncate_length entries results :
  Search.fill get truncate_length entries [] = Search.Val results ->
  Search.r_link <$> results.*2 = results.*1.
Proof.
  intros Hf.
  assert (Hall : Forall (fun kv => Search.r_link kv.2 = kv.1) results).
  { apply Forall_forall. intros [k v] Hin.
    destruct (fill_elem get truncate_length entries [] results
                (NoDup_nil_2) Hf k v Hin)
      as [(pre & e & post & c & _ & Hk & _ & _ & ->)|[_ Hin']];
      [done|by apply elem_of_nil in Hin']. }
  clear Hf. induction Hall as [|[k v] results Hkv Hall IH]; [done|].
  rewrite !fmap_cons. simpl in Hkv. cbn [fst snd]. by rewrite Hkv, IH.
Qed.

Lemma map_fmap {A B} (f : A -> B) (l : list A) : map f l = f <$> l.
Proof. induction l as [|x l IH]; [done|]. simpl. by rewrite IH. Qed.

Lemma tavily_search_val get entries max_results truncate_length rs :
  Search.tavily_search get entries max_results truncate_length
    = Search.Val rs ->
  exists results,
    Search.fill get truncate_length entries [] = Search.Val results /\
    rs = Seq.upto max_results results.*2.
Proof.
  unfold Search.tavily_search.
  destruct (Search.fill get truncate_length entries []) as [results|];
    [|done].
  intros [= <-]. exists results. by rewrite map_fmap.
Qed.

(** X12. The links of the results of [tavily_search] are the distinct URLs
    of the entries of the response, in the order in which they first
    occur, cut by the slice [[:max_results]]: no two results have the
    same link, and the number of results is the smaller of [max_results]
    and the number of distinct URLs, or, for a negative [max_results],
    that number of distinct URLs less [-max_results] (and not below
    zero). *)
Theorem tavily_search_links
    (get : string -> Search.fetched) (entries : list Search.tavily_result)
    (max_results : Z) (truncate_length : option Z)
    (rs : list Search.search_result) :
  Search.tavily_search get entries max_results truncate_length
    = Search.Val rs ->
  Search.r_link <$> rs =
    Seq.upto max_results (first_seen (Search.url <$> entries)) /\
  NoDup (Search.r_link <$> rs) /\
  Z.of_nat (length rs) =
    let distinct :=
      Z.of_nat (length (first_seen (Search.url <$> entries))) in
    if 0 <=? max_results then Z.min max_results distinct
    else Z.max 0 (distinct + max_results).
Proof.
  intros (results & Hf & ->)%tavily_search_val.
  assert (Hlinks : Search.r_link <$> Seq.upto max_results results.*2 =
            Seq.upto max_results (first_seen (Search.url <$> entries))).
  { rewrite upto_fmap, (fill_links _ _ _ _ Hf), (fill_keys _ _ _ _ _ Hf).
    simpl. f_equal. induction (first_seen (Search.url <$> entries))
      as [|x l IH]; [done|].
    rewrite filter_cons_True by apply not_elem_of_nil. by rewrite IH. }
  split; [done|]. split.
  - rewrite Hlinks. apply upto_NoDup, first_seen_NoDup.
  - rewrite <- (length_fmap Search.r_link), Hlinks. apply upto_length.
Qed.

Lemma tavily_search_links_witness :
  let entries :=
    [Search.mkTavily "u1" "first" "s1" (Some "raw one");
     Search.mkTavily "u2" "second" "s2" None;
     Search.mkTavily "u1" "third" "s3" (Some "raw three")] in
  let rs :=
    [Search.mkResult "third" "u1" "raw three";
     Search.mkResult "second" "u2" "s2"] in
  Search.r_link <$> rs =
    Seq.upto Search.MAX_RESULTS (first_seen (Search.url <$> entries)) /\
  NoDup (Search.r_link <$> rs) /\
  Z.of_nat (length rs) =
    let distinct :=
      Z.of_nat (length (first_seen (Search.url <$> entries))) in
    if 0 <=? Search.MAX_RESULTS then Z.min Search.MAX_RESULTS distinct
    else Z.max 0 (distinct + Search.MAX_RESULTS).
Proof.
  exact (tavily_search_links (fun _ => Search.Response 404 [])
           [Search.mkTavily "u1" "first" "s1" (Some "raw one");
            Search.mkTavily "u2" "second" "s2" None;
            Search.mkTavily "u1" "third" "s3" (Some "raw three")]
           Search.MAX_RESULTS Search.TRUNCATE_LENGTH _ eq_refl).
Defined.

(** X13. Each result of [tavily_search] holds the data of the last entry
    of the response that has its link: an entry whose URL occurred before
    replaces the title and the content of the earlier one, at the place
    of the earlier one.  The content is what the code takes for that
    entry (raw content, else the fetched paragraphs, else the snippet)
    after the truncation. *)
Theorem tavily_search_last_entry
    (get : string -> Search.fetched) (entries : list Search.tavily_result)
    (max_results : Z) (truncate_length : option Z)
    (rs : list Search.search_result) :
  Search.tavily_search get entries max_results truncate_length
    = Search.Val rs ->
  Forall (fun r =>
    exists pre e post,
      entries = pre ++ e :: post /\
      Search.url e = Search.r_link r /\
      Forall (fun e' => Search.url e' <> Search.r_link r) post /\
      Search.title e = Search.r_title r /\
      Search.content_of get truncate_length e
        = Search.Val (Search.r_content r)) rs.
Proof.
  intros (results & Hf & ->)%tavily_search_val.
  apply Forall_forall. intros r Hr%upto_elem.
  apply list_elem_of_fmap in Hr as ([k v] & -> & Hin).
  destruct (fill_elem get truncate_length entries [] results
              (NoDup_nil_2) Hf k v Hin)
    as [(pre & e & post & c & -> & Hk & Hpost & Hc & ->)|[_ Hin']];
    [|by apply elem_of_nil in Hin'].
  exists pre, e, post. simpl. rewrite Hk. by repeat split.
Qed.

Lemma tavily_search_last_entry_witness :
  let entries :=
    [Search.mkTavily "u1" "first" "s1" (Some "raw one");
     Search.mkTavily "u2" "second" "s2" None;
     Search.mkTavily "u1" "third" "s3" (Some "raw three")] in
  Forall (fun r =>
    exists pre e post,
      entries = pre ++ e :: post /\
      Search.url e = Search.r_link r /\
      Forall (fun e' => Search.url e' <> Search.r_link r) post /\
      Search.title e = Search.r_title r /\
      Search.content_of (fun _ => Search.Response 404 []) (Some 5) e
        = Search.Val (Search.r_content r))
    [Search.mkResult "third" "u1" "raw t";
     Search.mkResult "second" "u2" "s2"].
Proof.
  exact (tavily_search_last_entry (fun _ => Search.Response 404 [])
           [Search.mkTavily "u1" "first" "s1" (Some "raw one");
            Search.mkTavily "u2" "second" "s2" None;
            Search.mkTavily "u1" "third" "s3" (Some "raw three")]
           2 (Some 5) _ eq_refl).
Defined.

(** X14. [tavily_search] lets an exception of [requests.get] through
    exactly when the response has an entry without raw content whose page
    cannot be fetched; it catches nothing, so one such entry loses the
    results of all the others.  (Each URL is taken to answer the same way
    every time it is fetched.) *)
Theorem tavily_search_raises
    (get : string -> Search.fetched) (entries : list Search.tavily_result)
    (max_results : Z) (truncate_length : option Z) :
  Search.tavily_search get entries max_results truncate_length = Search.Exc
  <->
  exists e, e ∈ entries /\ Search.raw_content e = None /\
            get (Search.url e) = Search.RequestException.
Proof.
  unfold Search.tavily_search.
  destruct (Search.fill get truncate_length entries []) as [results|] eqn:Hf.
  - split; [done|]. intros (e & He & Hraw & Hget).
    assert (Hx : Search.fill get truncate_length entries [] = Search.Exc);
      [|congruence].
    apply fill_exc, Exists_exists. exists e. split; [done|].
    by apply content_of_exc.
  - split; [|done]. intros _.
    apply fill_exc, Exists_exists in Hf as (e & He & Hc).
    exists e. split; [done|]. by apply content_of_exc in Hc.
Qed.

(** X15. [tavily_search] fetches a page only for an entry that came
    without raw content: two networks that answer alike on the URLs of
    those entries give the same results, whatever they answer elsewhere;
    in particular when every entry has raw content the network plays no
    part. *)
Theorem fetch_only_without_raw_content
    (get get' : string -> Search.fetched)
    (entries : list Search.tavily_result)
    (max_results : Z) (truncate_length : option Z) :
  (forall e, e ∈ entries -> Search.raw_content e = None ->
             get (Search.url e) = get' (Search.url e)) ->
  Search.tavily_search get entries max_results truncate_length =
  Search.tavily_search get' entries max_results truncate_length.
Proof.
  intros H. unfold Search.tavily_search.
  rewrite (fill_ext get get'); [done|]. by apply Forall_forall.
Qed.

Lemma fetch_only_without_raw_content_witness :
  Search.tavily_search (fun _ => Search.RequestException)
    [Search.mkTavily "u1" "first" "s1" (Some "raw one")]
    Search.MAX_RESULTS Search.TRUNCATE_LENGTH =
  Search.tavily_search (fun _ => Search.Response 200 ["p"]%string)
    [Search.mkTavily "u1" "first" "s1" (Some "raw one")]
    Search.MAX_RESULTS Search.TRUNCATE_LENGTH.
Proof.
  apply (fetch_only_without_raw_content (fun _ => Search.RequestException)
           (fun _ => Search.Response 200 ["p"]%string)).
  intros e He%list_elem_of_singleton Hraw. subst e. discriminate Hraw.
Defined.

(** X16. With a truncation length [n >= 0], no result of [tavily_search]
    has a content of more than [n] characters, whichever of the raw
    content, the fetched page and the snippet it comes from; with the
    defaults that is at most 3 results of at most 20000 characters. *)
Theorem contents_truncated
    (get : string -> Search.fetched) (entries : list Search.tavily_result)
    (max_results n : Z) (rs : list Search.search_result) :
  0 <= n ->
  Search.tavily_search get entries max_results (Some n) = Search.Val rs ->
  Forall (fun r => Z.of_nat (String.length (Search.r_content r)) <= n) rs /\
  (0 <= max_results -> Z.of_nat (length rs) <= max_results).
Proof.
  intros Hn Hs. split.
  - pose proof Hs as (results & Hf & ->)%tavily_search_val.
    apply Forall_forall. intros r Hr%upto_elem.
    apply list_elem_of_fmap in Hr as ([k v] & -> & Hin).
    destruct (fill_elem get (Some n) entries [] results
                (NoDup_nil_2) Hf k v Hin)
      as [(pre & e & post & c & -> & Hk & Hpost & Hc & ->)|[_ Hin']];
      [|by apply elem_of_nil in Hin'].
    simpl. unfold Search.content_of in Hc.
    destruct (match Search.raw_content e with
              | Some raw => Search.Val (Some raw)
              | None => Search.parse_paragraphs get (Search.url e)
              end) as [o|]; [|done].
    injection Hc as <-. rewrite str_upto_length.
    destruct (Z.leb_spec 0 n); lia.
  - intros Hm. pose proof Hs as (results & Hf & ->)%tavily_search_val.
    rewrite upto_length. destruct (Z.leb_spec 0 max_results); lia.
Qed.

Lemma contents_truncated_witness :
  Forall (fun r => Z.of_nat (String.length (Search.r_content r)) <= 5)
    [Search.mkResult "first" "u1" "raw o"] /\
  (0 <= 3 -> Z.of_nat (length [Search.mkResult "first" "u1" "raw o"]) <= 3).
Proof.
  apply (contents_truncated (fun _ => Search.RequestException)
           [Search.mkTavily "u1" "first" "s1" (Some "raw one")] 3 5);
    [lia|reflexivity].
Defined.

(** ** The choice of the device *)

Lemma split_nonempty sep s : Py.split sep s <> [].
Proof.
  destruct s as [|c r]; simpl; [done|].
  destruct (Ascii.eqb c sep); [done|]. by destruct (Py.split sep r).
Qed.

(** [sep.join(s.split(sep)) == s] *)
Lemma split_join sep s :
  String.concat (String sep EmptyString) (Py.split sep s) = s.
Proof.
  induction s as [|c r IH]; [done|]. cbn [Py.split].
  pose proof (split_nonempty sep r) as Hne.
  destruct (Ascii.eqb_spec c sep) as [->|Hc].
  - destruct (Py.split sep r) as [|h t]; [done|].
    cbn [String.concat] in *. rewrite IH. by rewrite ?append_nil, ?append_cons.
  - destruct (Py.split sep r) as [|h t]; [done|].
    destruct t as [|h' t]; cbn [String.concat] in *.
    + by rewrite IH.
    + rewrite (append_cons c h). by rewrite IH.
Qed.

Lemma split_no_comma s :
  Forall (fun d => has_comma d = false) (Py.split "," s).
Proof.
  induction s as [|c r IH]; [by repeat constructor|]. cbn [Py.split].
  destruct (Ascii.eqb c ",") eqn:Hc; [constructor; [done|exact IH]|].
  destruct (Py.split "," r) as [|h t].
  - constructor; [|done]. simpl. by rewrite Hc.
  - apply Forall_cons in IH as [Hh Ht]. constructor; [|done].
    simpl. by rewrite Hc.
Qed.

Lemma split_whole s : has_comma s = false -> Py.split "," s = [s].
Proof.
  induction s as [|c r IH]; [done|]. simpl.
  destruct (Ascii.eqb c ","); [done|]. simpl. intros H. by rewrite IH.
Qed.

(** X17. The device choice of [create_app]: without the environment
    variable [CUDA_VISIBLE_DEVICES] the start fails with the
    [AttributeError] of [None.split]; with it, whatever its value and the
    process id, a device is chosen and neither the modulo nor the
    subscript fails.  The chosen device is the entry number
    [pid % len(devices)] of the comma-separated list, which contains no
    comma; joining the entries with commas gives the variable back; and a
    value without a comma is chosen whole by every process. *)
Theorem device_choice (env : option string) (pid : nat) :
  match env with
  | None => Main.select_device env pid = inl Main.AttributeError
  | Some s =>
      exists device,
        Main.select_device env pid = inr device /\
        Py.split "," s !! (pid mod length (Py.split "," s))%nat
          = Some device /\
        has_comma device = false /\
        String.concat "," (Py.split "," s) = s /\
        (has_comma s = false -> device = s)
  end.
Proof.
  destruct env as [s|]; [|done]. unfold Main.select_device.
  pose proof (split_nonempty "," s) as Hne.
  pose proof (split_no_comma s) as Hnc.
  pose proof (split_join "," s) as Hjoin.
  assert (Hlen : (0 < length (Py.split "," s))%nat).
  { destruct (Py.split "," s); [done|simpl; lia]. }
  destruct (Nat.eqb_spec (length (Py.split "," s)) 0) as [H0|_]; [lia|].
  destruct (lookup_lt_is_Some_2 (Py.split "," s)
              (pid mod length (Py.split "," s))) as [device Hd].
  { apply Nat.mod_upper_bound. lia. }
  rewrite Hd. exists device. split; [done|]. split; [done|]. split.
  - apply list_elem_of_lookup_2 in Hd.
    by apply (proj1 (Forall_forall _ _) Hnc).
  - split; [exact Hjoin|]. intros Hs.
    rewrite (split_whole s Hs) in Hd. cbn [length] in Hd.
    rewrite Nat.mod_1_r in Hd. by injection Hd as <-.
Qed.

(** ** The limiter of [backend/rate_limiter.py] *)

(** X18. The limiter of [backend/rate_limiter.py] keeps one log per user
    and nothing per quota: of two calls of [is_rate_limited] for one user
    at one instant, with quotas [m1] and [m2], the first is denied exactly
    when the active log has [m1] entries or more, and the second exactly
    when the active log, with the first call added if it was admitted, has
    [m2] entries or more.  A call admitted under one quota takes a slot
    of every other quota of that user. *)
Theorem legacy_quotas_share_log
    (now : Q) (u : string) (m1 m2 w : Z) (rl : Legacy.RateLimiter) :
  0 < w ->
  Legacy.lock_free u rl ->
  let l := List.filter (active now w) (Legacy.log_of u rl) in
  exists rl1 rl2,
    Legacy.is_rate_limited now now u m1 w rl
      = Returns (m1 <=? Py.len l) rl1 /\
    Legacy.is_rate_limited now now u m2 w rl1
      = Returns (m2 <=? Py.len l + (if m1 <=? Py.len l then 0 else 1)) rl2 /\
    Legacy.log_of u rl2 =
      l ++ (if m1 <=? Py.len l then [] else [now])
        ++ (if m2 <=? Py.len l + (if m1 <=? Py.len l then 0 else 1)
            then [] else [now]).
Proof.
  intros Hw Hfree l.
  assert (Hl : List.filter (active now w) l = l) by apply filter_twice.
  assert (Hl1 : List.filter (active now w) (l ++ [now]) = l ++ [now]).
  { rewrite List.filter_app, Hl. simpl. by rewrite active_now. }
  rewrite (legacy_is_rate_limited_eq now now u m1 w rl Hfree).
  fold l. cbv zeta.
  assert (Hput : forall l', Legacy.lock_free u (Legacy.put u l' rl)).
  { intros l'. unfold Legacy.lock_free, Legacy.put. simpl.
    by rewrite lookup_insert_eq. }
  destruct (m1 <=? Py.len l) eqn:H1.
  - rewrite Z.add_0_r. destruct (m2 <=? Py.len l) eqn:H2;
      (eexists; eexists; split; [reflexivity|]);
      rewrite (legacy_is_rate_limited_eq now now u m2 w _ (Hput l));
      rewrite legacy_log_of_put_eq, Hl; cbv zeta; rewrite H2;
      (split; [reflexivity|]);
      rewrite legacy_log_of_put_eq; by rewrite ?app_nil_r.
  - destruct (m2 <=? Py.len l + 1) eqn:H2;
      (eexists; eexists; split; [reflexivity|]);
      rewrite (legacy_is_rate_limited_eq now now u m2 w _
                 (Hput (l ++ [now])));
      rewrite legacy_log_of_put_eq, Hl1; cbv zeta; rewrite len_app;
      change (Py.len [now]) with 1; rewrite H2;
      (split; [reflexivity|]);
      rewrite legacy_log_of_put_eq; by rewrite <- ?app_assoc, ?app_nil_r.
Qed.

Lemma legacy_quotas_share_log_witness :
  exists rl1 rl2,
    Legacy.is_rate_limited 0 0 "u" 5 60 Legacy.init
      = Returns (5 <=? Py.len (@nil Q)) rl1 /\
    Legacy.is_rate_limited 0 0 "u" 1 60 rl1
      = Returns (1 <=? Py.len (@nil Q) + (if 5 <=? Py.len (@nil Q)
                                          then 0 else 1)) rl2 /\
    Legacy.log_of "u" rl2 =
      [] ++ (if 5 <=? Py.len (@nil Q) then [] else [0%Q])
         ++ (if 1 <=? Py.len (@nil Q) + (if 5 <=? Py.len (@nil Q)
                                         then 0 else 1)
             then [] else [0%Q]).
Proof.
  apply (legacy_quotas_share_log 0 "u" 5 1 60 Legacy.init);
    [lia|apply legacy_init_lock_free].
Defined.
